(** * manparse: the parsing engine and the constraint validator

    A shallow embedding of [manparse.py] (Python 2): the parameter registry
    ([add_parameter], [_Parameter.__init__]), the constraint graphs
    ([dependency_params], [incompatible_params]) and the parser
    ([parse_params], [_do_action], [_store_action], [_parse_list],
    [_check_required_param], [_complete_namespace]).

    Python objects are values of [pyval]; a call that may raise is a
    computation in [outcome]; the attributes of the parser object that the
    methods mutate are threaded through explicitly. *)

From Stdlib Require Import ZArith String Ascii Bool Lia.
From stdpp Require Import base tactics option list gmap strings fin_maps pretty.

Local Open Scope string_scope.
Local Open Scope list_scope.

(** ** Byte strings *)

(** [s.startswith('-')] *)
Definition startswith (p s : string) : bool := String.prefix p s.

(** [old in s] for byte strings. *)
Fixpoint str_contains (old s : string) : bool :=
  String.prefix old s ||
  match s with
  | EmptyString => false
  | String _ s' => str_contains old s'
  end.

Fixpoint str_drop (n : nat) (s : string) : string :=
  match n, s with
  | S n', String _ s' => str_drop n' s'
  | _, _ => s
  end.

(** [s.replace(old, new, 1)] for a non-empty [old]: the leftmost occurrence
    of [old] is replaced, the rest of the string is kept. *)
Fixpoint str_replace1 (old new s : string) : string :=
  if String.prefix old s then new ++ str_drop (String.length old) s
  else match s with
       | EmptyString => EmptyString
       | String c s' => String c (str_replace1 old new s')
       end.

(** The one-character strings of [s], as [for p in s] yields them. *)
Fixpoint str_chars (s : string) : list string :=
  match s with
  | EmptyString => []
  | String c s' => String c EmptyString :: str_chars s'
  end.

(** ** Regular expressions of the [re] module

    Only what the three patterns of the source use: character classes,
    sequence, alternation and repetition. [re_full] decides a full match by
    derivatives. *)

Inductive regex : Type :=
  | RNone
  | REps
  | RClass (f : ascii -> bool)
  | RSeq (r1 r2 : regex)
  | RAlt (r1 r2 : regex)
  | RStar (r : regex).

Fixpoint nullable (r : regex) : bool :=
  match r with
  | RNone => false
  | REps => true
  | RClass _ => false
  | RSeq a b => nullable a && nullable b
  | RAlt a b => nullable a || nullable b
  | RStar _ => true
  end.

Fixpoint deriv (c : ascii) (r : regex) : regex :=
  match r with
  | RNone => RNone
  | REps => RNone
  | RClass f => if f c then REps else RNone
  | RSeq a b =>
      if nullable a then RAlt (RSeq (deriv c a) b) (deriv c b)
      else RSeq (deriv c a) b
  | RAlt a b => RAlt (deriv c a) (deriv c b)
  | RStar a => RSeq (deriv c a) (RStar a)
  end.

Fixpoint re_full (r : regex) (s : list ascii) : bool :=
  match s with
  | [] => nullable r
  | c :: s' => re_full (deriv c r) s'
  end.

(** The language of a regular expression. *)
Inductive lang : regex -> list ascii -> Prop :=
  | lang_eps : lang REps []
  | lang_class f c : f c = true -> lang (RClass f) [c]
  | lang_seq a b s1 s2 : lang a s1 -> lang b s2 -> lang (RSeq a b) (s1 ++ s2)
  | lang_alt_l a b s : lang a s -> lang (RAlt a b) s
  | lang_alt_r a b s : lang b s -> lang (RAlt a b) s
  | lang_star_nil a : lang (RStar a) []
  | lang_star_cons a s1 s2 :
      lang a s1 -> lang (RStar a) s2 -> lang (RStar a) (s1 ++ s2).

Definition RChr (c : ascii) : regex := RClass (Ascii.eqb c).
Definition RPlus (r : regex) : regex := RSeq r (RStar r).
(** [r{2,}] *)
Definition RAtLeast2 (r : regex) : regex := RSeq r (RSeq r (RStar r)).
Definition ROpt (r : regex) : regex := RAlt r REps.

Definition newline : ascii := ascii_of_nat 10.

(** [re.match('^' + P + '$', s) is not None]. [re.match] anchors at the
    start of [s]; without [re.MULTILINE], [$] holds at the end of the string
    and also just before a newline that ends the string. *)
Definition re_match (P : regex) (s : string) : bool :=
  re_full (RSeq P (ROpt (RChr newline))) (list_ascii_of_string s).

Definition in_range (lo hi c : ascii) : bool :=
  (nat_of_ascii lo <=? nat_of_ascii c)%nat && (nat_of_ascii c <=? nat_of_ascii hi)%nat.

(** [[A-Za-z]] *)
Definition is_letter (c : ascii) : bool :=
  in_range "A" "Z" c || in_range "a" "z" c.

(** [[A-Za-z_]] *)
Definition is_letter_or_underscore (c : ascii) : bool :=
  is_letter c || Ascii.eqb c "_".

Definition dash : regex := RChr "-".

(** ['^-[a-zA-Z]$'] (line 423) *)
Definition short_command_re : regex := RSeq dash (RClass is_letter).

(** ['^-[A-Za-z]+$'] (line 612) *)
Definition short_bundle_re : regex := RSeq dash (RPlus (RClass is_letter)).

(** ['^--[A-Za-z]{2,}[A-Za-z_]*[A-Za-z]$'] (lines 435 and 623) *)
Definition long_command_re : regex :=
  RSeq dash (RSeq dash
    (RSeq (RAtLeast2 (RClass is_letter))
          (RSeq (RStar (RClass is_letter_or_underscore)) (RClass is_letter)))).

(** ** The builtin [int] on byte strings (Python 2)

    [int(s)] skips white space, reads an optional sign, skips white space
    again (Python 2 does, Python 3 does not), reads at least one decimal
    digit, skips white space and must then be at the end of [s]. Anything
    else raises [ValueError]. *)

(** C's [isspace] in the C locale. *)
Definition is_space (c : ascii) : bool :=
  let n := nat_of_ascii c in ((9 <=? n)%nat && (n <=? 13)%nat) || (n =? 32)%nat.

Definition is_digit (c : ascii) : bool := in_range "0" "9" c.

Definition digit_value (c : ascii) : Z := Z.of_nat (nat_of_ascii c - 48).

Fixpoint skip_spaces (s : list ascii) : list ascii :=
  match s with
  | c :: s' => if is_space c then skip_spaces s' else s
  | [] => []
  end.

Fixpoint read_digits (acc : Z) (s : list ascii) : Z * list ascii :=
  match s with
  | c :: s' => if is_digit c then read_digits (10 * acc + digit_value c) s' else (acc, s)
  | [] => (acc, [])
  end.

Definition read_sign (s : list ascii) : Z * list ascii :=
  match s with
  | c :: s' =>
      if Ascii.eqb c "+" then (1, s')
      else if Ascii.eqb c "-" then (-1, s')
      else (1, s)
  | [] => (1, [])
  end%Z.

Definition int_of_str (s : string) : option Z :=
  let '(sign, s1) := read_sign (skip_spaces (list_ascii_of_string s)) in
  match skip_spaces s1 with
  | (c :: _) as s2 =>
      if is_digit c then
        let '(v, rest) := read_digits 0 s2 in
        match skip_spaces rest with
        | [] => Some (sign * v)%Z
        | _ :: _ => None
        end
      else None
  | [] => None
  end.

(** ** Python values, exceptions and the runtime *)

(** The two factory classes of the module. *)
Inductive type_class : Type := FileTypeClass | DirTypeClass.

(** The objects the parser handles. [VObj] stands for an object that only
    the runtime can look into (a float, an open stream). [VInstance c arg]
    is the object the call [c(arg)] of a factory class makes:
    [FileType(arg)] has [arg] as its mode, [DirType(arg)] as its check. *)
#[warnings="-register-all"]
Inductive pyval : Type :=
  | VNone
  | VBool (b : bool)
  | VInt (z : Z)
  | VStr (s : string)
  | VList (l : list pyval)
  | VObj (o : N)
  | VInstance (c : type_class) (arg : pyval).

(** What [type=] may be given: the four builtins, an instance of
    [FileType] or of [DirType], one of these two classes itself (the list
    of line 275 holds the classes, so they are in it), or anything else. *)
Inductive ptype : Type :=
  | TStr
  | TInt
  | TFloat
  | TBool
  | TFileType (mode : string) (bufsize : option Z)
  | TDirType (check : bool)
  | TClass (c : type_class)
  | TOther.

(** [nargs] as the caller gives it and as [_Parameter] keeps it. *)
Inductive nargs_val : Type :=
  | AInt (n : Z)
  | AStr (s : string).

(** Which of the two restriction methods formats a message. *)
Inductive restriction_method : Type := Dependency | Incompatible.

(** The messages of [ParameterError], one constructor per format string of
    the source, with the values that are formatted into it. *)
Inductive message : Type :=
  | NeedsValues (n : Z)
  | NotInChoices (value : pyval) (choices : list pyval)
  | IsNotType (value : pyval) (t : ptype)
  | NotValidValue (value : pyval)
  | NotValidFileMode (mode : string)
  | CannotOpen (path : string)
  | DirMustBeStr
  | NotADirectory (path : string)
  | NotValidType (t : ptype)
  | NotValidAction (a : string)
  | DefaultIsNotType (v : pyval) (t : ptype)
  | ConstIsNotType (v : pyval) (t : ptype)
  | ChoicesNotIterable
  | DefaultNotSet
  | ConstNotSet
  | NotValidNargs
  | DuplicatedShort (s : string)
  | NotValidShort (s : option string)
  | DuplicateLong (s : string)
  | NotValidLong (s : string)
  | DuplicateDest (d : string)
  | NeedsTwoParameters (m : restriction_method)
  | NotExists (m : restriction_method) (r : string)
  | MustBeStrOrList (m : restriction_method)
  | MustBeStr (m : restriction_method)
  | RestrictionToItself (m : restriction_method) (p : string)
  | DependencyAndIncompatibility (m : restriction_method) (p r : string)
  | NotValidParameter (p : string)
  | NotValidLongParameter (p : string)
  | NotValidFormat (tok : string)
  | MissingRequired (dests : list string)
  | IncompatibleParameters (names : list string)
  | MissingDependencies (names : list string)
  | PassedMoreThanOnce
  | NeedAtLeastOne.

(** What the process has written when it exits. *)
Inductive exit_output : Type :=
  | ErrorText (parameter_name : option string) (m : message)
  | HelpText
  | VersionText.

Inductive exn : Type :=
  | ParameterError (parameter_name : option string) (m : message)
  | ValueError
  | IOError
  | TypeError
  | AttributeError
  | IndexError
  | UnboundLocalError
  | SystemExit (status : Z) (out : exit_output).

(** A Python computation: it returns, raises, or never ends. *)
Inductive outcome (A : Type) : Type :=
  | Return (a : A)
  | Raise (e : exn)
  | Loops.

Arguments Return {A} a.
Arguments Raise {A} e.
Arguments Loops {A}.

#[global] Instance outcome_ret : MRet outcome := fun _ a => Return a.

#[global] Instance outcome_bind : MBind outcome := fun _ _ f m =>
  match m with
  | Return a => f a
  | Raise e => Raise e
  | Loops => Loops
  end.

(** [self._error(err)]: the message goes to the error stream and the
    process exits with status 2. *)
Definition _error {A} (parameter_name : option string) (m : message) : outcome A :=
  Raise (SystemExit 2 (ErrorText parameter_name m)).

(** [try: ... except ParameterError: self._error(err)] *)
Definition except_ParameterError {A} (body : outcome A) : outcome A :=
  match body with
  | Raise (ParameterError n m) => _error n m
  | _ => body
  end.

(** What the engine takes from the Python runtime and from the file system:
    the builtin [float], [open], [os.path.isdir], the two standard streams,
    and [int], [str], truth and [==] on the objects of [VObj] (for [str]
    also on lists). *)
Record Runtime : Type := {
  rt_float : pyval -> outcome pyval;
  rt_open : string -> string -> option Z -> outcome pyval;
  rt_isdir : string -> bool;
  rt_stdin : pyval;
  rt_stdout : pyval;
  rt_int : N -> outcome pyval;
  rt_str : pyval -> string;
  rt_truth : N -> bool;
  rt_eq : N -> pyval -> bool
}.

(** ['==SUPPRESS=='] *)
Definition SUPPRESS : string := "==SUPPRESS==".

(** A [default]: the object [SUPPRESS] itself, or any other value ([None]
    is [DVal VNone]). [p.default is not SUPPRESS] compares identities, so a
    string that merely equals [SUPPRESS] is a [DVal]. *)
Inductive default_val : Type :=
  | DSuppress
  | DVal (v : pyval).

(** [choices=] as given: absent, an object with [__iter__], or one without
    (a Python 2 [str] has none). *)
Inductive choices_arg : Type :=
  | ChNone
  | ChIter (l : list pyval)
  | ChNotIter.

(** ** [_Parameter] *)

Record _Parameter : Type := {
  p_name : string;
  p_long_name : option string;
  p_dest : string;
  p_required : bool;
  p_section : string;
  p_type : ptype;
  p_action : string;
  p_default : default_val;
  p_const : pyval;
  p_choices : option (list pyval);
  p_default_nargs : bool;
  p_nargs : nargs_val;
  p_help : string
}.

(** The keyword arguments of [add_parameter]; [None] is [None] or [VNone]. *)
Record kwargs : Type := {
  kw_dest : option string;
  kw_type : option ptype;
  kw_action : string;
  kw_nargs : option nargs_val;
  kw_default : default_val;
  kw_const : pyval;
  kw_required : bool;
  kw_choices : choices_arg;
  kw_section : option string;
  kw_help : option string
}.

(** No keyword given: the defaults of [_Parameter.__init__]. *)
Definition no_kwargs : kwargs :=
  {| kw_dest := None; kw_type := None; kw_action := "store"; kw_nargs := None;
     kw_default := DVal VNone; kw_const := VNone; kw_required := false;
     kw_choices := ChNone; kw_section := None; kw_help := None |}.

(** [Namespace]: the attributes that were set. *)
Abbreviation Namespace := (gmap string pyval).

(** [Namespace.__iter__]: the attribute names that do not start with [_]
    and are not [next]. *)
Definition visible (a : string) : bool :=
  negb (startswith "_" a) && negb (String.eqb a "next").

Definition Namespace_iter (namespace : Namespace) : list string :=
  List.filter visible (map fst (map_to_list namespace)).

(** [Namespace.__contains__] *)
Definition Namespace_contains (namespace : Namespace) (key : string) : bool :=
  bool_decide (is_Some (namespace !! key)).

Definition str_in (x : string) (l : list string) : bool :=
  existsb (String.eqb x) l.

(** The attribute names that [setattr] can give a [Namespace]: every
    string but the three that the object keeps for itself. *)
Definition assignable (name : string) : bool :=
  negb (str_in name ["__class__"; "__dict__"; "__weakref__"]).

(** [setattr(namespace, name, value)] for the values the parser writes,
    none of which is a class or a dictionary: [__class__] and [__dict__]
    refuse such a value with [TypeError], and [__weakref__] cannot be
    written. *)
Definition setattr (namespace : Namespace) (name : string) (value : pyval)
  : outcome Namespace :=
  if String.eqb name "__weakref__" then Raise AttributeError
  else if str_in name ["__class__"; "__dict__"] then Raise TypeError
  else Return (<[name := value]> namespace).

Section Engine.

Context (rt : Runtime).

(** [a == b] *)
Fixpoint py_eq (a b : pyval) {struct a} : bool :=
  match a, b with
  | VObj o, _ => rt_eq rt o b
  | _, VObj o => rt_eq rt o a
  | VNone, VNone => true
  | VBool x, VBool y => Bool.eqb x y
  | VBool x, VInt y => Z.eqb (if x then 1 else 0) y
  | VInt x, VBool y => Z.eqb x (if y then 1 else 0)
  | VInt x, VInt y => Z.eqb x y
  | VStr x, VStr y => String.eqb x y
  | VList xs, VList ys =>
      (fix go (xs ys : list pyval) {struct xs} : bool :=
         match xs, ys with
         | [], [] => true
         | x :: xs', y :: ys' => py_eq x y && go xs' ys'
         | _, _ => false
         end) xs ys
  | _, _ => false
  end.

(** [value in l] *)
Definition py_in (value : pyval) (l : list pyval) : bool :=
  existsb (py_eq value) l.

(** [int(v)] *)
Definition py_int (v : pyval) : outcome pyval :=
  match v with
  | VInt z => Return (VInt z)
  | VBool b => Return (VInt (if b then 1 else 0))
  | VStr s =>
      match int_of_str s with
      | Some z => Return (VInt z)
      | None => Raise ValueError
      end
  | VObj o => rt_int rt o
  | VNone | VList _ | VInstance _ _ => Raise TypeError
  end.

(** [str(v)] *)
Definition py_str (v : pyval) : string :=
  match v with
  | VStr s => s
  | VInt z => pretty z
  | VBool b => if b then "True" else "False"
  | VNone => "None"
  | VList _ | VObj _ | VInstance _ _ => rt_str rt v
  end.

(** [bool(v)] *)
Definition py_bool (v : pyval) : bool :=
  match v with
  | VNone => false
  | VBool b => b
  | VInt z => negb (Z.eqb z 0)
  | VStr s => negb (String.eqb s "")
  | VList l => match l with [] => false | _ :: _ => true end
  | VObj o => rt_truth rt o
  | VInstance _ _ => true
  end.

(** [FileType.__call__] (lines 121-142) *)
Definition FileType_call (mode : string) (bufsize : option Z) (string_ : pyval)
  : outcome pyval :=
  if py_eq string_ (VStr "-") then
    if str_contains "r" mode then Return (rt_stdin rt)
    else if str_contains "w" mode then Return (rt_stdout rt)
    else Raise ValueError
  else if negb (str_in mode ["r"; "w"]) then
    Raise (ParameterError None (NotValidFileMode mode))
  else
    match string_ with
    | VStr path =>
        let buf := match bufsize with
                   | Some z => if Z.eqb z 0 then None else Some z
                   | None => None
                   end in
        match rt_open rt path mode buf with
        | Raise IOError => Raise (ParameterError None (CannotOpen path))
        | r => r
        end
    | _ => Raise TypeError
    end.

(** [DirType.__call__] (lines 168-176) *)
Definition DirType_call (check : bool) (string_ : pyval) : outcome pyval :=
  match string_ with
  | VStr s =>
      if check && negb (rt_isdir rt s)
      then Raise (ParameterError None (NotADirectory s))
      else Return (VStr s)
  | _ => Raise (ParameterError None DirMustBeStr)
  end.

(** [ptype(value)] *)
Definition call_type (t : ptype) (value : pyval) : outcome pyval :=
  match t with
  | TStr => Return (VStr (py_str value))
  | TInt => py_int value
  | TFloat => rt_float rt value
  | TBool => Return (VBool (py_bool value))
  | TFileType mode bufsize => FileType_call mode bufsize value
  | TDirType check => DirType_call check value
  | TClass c => Return (VInstance c value)
  | TOther => Raise TypeError
  end.

(** [_check_type] (lines 48-53) *)
Definition _check_type (t : ptype) (value : pyval) : outcome bool :=
  match call_type t value with
  | Return _ => Return true
  | Raise ValueError | Raise IOError => Return false
  | Raise e => Raise e
  | Loops => Loops
  end.

(** [_check_choices] (lines 56-57) *)
Definition _check_choices (choices : option (list pyval)) (value : pyval) : bool :=
  match choices with
  | None => true
  | Some l => py_in value l
  end.

(** [_check_type(int, value) or not value.startswith('-')], the test of
    lines 66, 753 and 765. *)
Definition _is_value (value : pyval) : outcome bool :=
  b ← _check_type TInt value;
  if b : bool then Return true
  else match value with
       | VStr s => Return (negb (startswith "-" s))
       | _ => Raise AttributeError
       end.

Definition raise_for {A} (parameter : _Parameter) (m : message) : outcome A :=
  Raise (ParameterError (Some (p_name parameter)) m).

(** The [for value in slist] loop of [_parse_list] (lines 64-79). *)
Fixpoint _parse_list_loop (parameter : _Parameter) (slist list_values : list pyval)
  : outcome (list pyval) :=
  match slist with
  | [] => Return list_values
  | value :: slist' =>
      is_value ← _is_value value;
      if is_value : bool then
        has_type ← _check_type (p_type parameter) value;
        if has_type : bool then
          value' ← call_type (p_type parameter) value;
          if _check_choices (p_choices parameter) value' then
            _parse_list_loop parameter slist' (list_values ++ [value'])
          else
            raise_for parameter
              (NotInChoices value' (default [] (p_choices parameter)))
        else raise_for parameter (IsNotType value (p_type parameter))
      else raise_for parameter (NotValidValue value)
  end.

(** [_parse_list] (lines 59-81) *)
Definition _parse_list (parameter : _Parameter) (slist : list pyval)
  : outcome (list pyval) :=
  match p_nargs parameter with
  | AInt n =>
      if (Z.of_nat (length slist) <? n)%Z
      then raise_for parameter (NeedsValues n)
      else _parse_list_loop parameter slist []
  | AStr _ => _parse_list_loop parameter slist []
  end.

(** ** [_Parameter.__init__] (lines 246-341) *)

(** [default not in [None, SUPPRESS]]: the list membership compares with
    [==], so a string equal to [SUPPRESS] is in the list as well. *)
Definition default_needs_conversion (d : default_val) : bool :=
  match d with
  | DSuppress => false
  | DVal VNone => false
  | DVal (VStr s) => negb (String.eqb s SUPPRESS)
  | DVal _ => true
  end.

Definition valid_type (t : ptype) : bool :=
  match t with
  | TOther => false
  | _ => true
  end.

Definition _Parameter_init (name : string) (long_name : option string)
    (dest : string) (kw : kwargs) : outcome _Parameter :=
  let raise_self {A} (m : message) : outcome A :=
    Raise (ParameterError (Some name) m) in
  let required := kw_required kw in
  let section := if required then Some "Required" else kw_section kw in
  let section := default "Others" section in
  let type := default TStr (kw_type kw) in
  if negb (valid_type type) then raise_self (NotValidType type) else
  let action := kw_action kw in
  if negb (str_in action ["store"; "store_true"; "store_false"; "help"; "version"])
  then raise_self (NotValidAction action) else
  let default0 :=
    if String.eqb action "store_false" then DVal (VBool true)
    else if String.eqb action "store_true" then DVal (VBool false)
    else kw_default kw in
  default1 ←
    (if default_needs_conversion default0 then
       match default0 with
       | DVal d =>
           ok ← _check_type type d;
           if ok : bool then v ← call_type type d; Return (DVal v)
           else raise_self (DefaultIsNotType d type)
       | DSuppress => Return DSuppress
       end
     else Return default0);
  const1 ←
    (match kw_const kw with
     | VNone => Return VNone
     | c =>
         ok ← _check_type type c;
         if ok : bool then call_type type c
         else raise_self (ConstIsNotType c type)
     end);
  choices1 ←
    (match kw_choices kw with
     | ChNone => Return None
     | ChIter l => l' ← mapM (call_type type) l; Return (Some l')
     | ChNotIter => raise_self ChoicesNotIterable
     end);
  let '(nargs0, default_nargs) :=
    match kw_nargs kw with
    | None => (AInt 1, true)
    | Some n => (n, false)
    end in
  nargs1 ←
    (if String.eqb action "store_true" || String.eqb action "store_false"
     then Return (AInt 0)
     else
       let acceptable :=
         match nargs0 with
         | AInt n => (0 <=? n)%Z
         | AStr s => str_in s ["+"; "*"; "?"]
         end in
       if acceptable then
         match nargs0, default1, const1 with
         | AStr "?", DVal VNone, _ => raise_self DefaultNotSet
         | AStr "?", _, VNone => raise_self ConstNotSet
         | _, _, _ => Return nargs0
         end
       else raise_self NotValidNargs);
  Return {| p_name := name; p_long_name := long_name; p_dest := dest;
            p_required := required; p_section := section; p_type := type;
            p_action := action; p_default := default1; p_const := const1;
            p_choices := choices1; p_default_nargs := default_nargs;
            p_nargs := nargs1;
            p_help := match kw_help kw with Some h => h | None => "None" end |}.

End Engine.

(** ** [ParameterParser] *)

(** The attributes of the parser that the engine reads or writes. The
    texts that only the help page shows ([prog], [short_description],
    [description], [bugs], [epilog]) are left out: each is a string or
    [None], so the page can always be put together from them. *)
Record ParameterParser : Type := {
  add_help : bool;
  version : option string;
  parameters : list _Parameter;
  user_name_parameters : list string;
  dependency_params_restrictions : gmap string (list string);
  incompatible_params_restrictions : gmap string (list string)
}.

Definition set_parameters (self : ParameterParser) (ps : list _Parameter) :=
  {| add_help := add_help self; version := version self; parameters := ps;
     user_name_parameters := user_name_parameters self;
     dependency_params_restrictions := dependency_params_restrictions self;
     incompatible_params_restrictions := incompatible_params_restrictions self |}.

Definition set_user_name_parameters (self : ParameterParser) (names : list string) :=
  {| add_help := add_help self; version := version self;
     parameters := parameters self; user_name_parameters := names;
     dependency_params_restrictions := dependency_params_restrictions self;
     incompatible_params_restrictions := incompatible_params_restrictions self |}.

(** The dictionary a restriction method writes and the one it checks
    against. *)
Definition own_restrictions (m : restriction_method) (self : ParameterParser) :=
  match m with
  | Dependency => dependency_params_restrictions self
  | Incompatible => incompatible_params_restrictions self
  end.

Definition other_restrictions (m : restriction_method) (self : ParameterParser) :=
  match m with
  | Dependency => incompatible_params_restrictions self
  | Incompatible => dependency_params_restrictions self
  end.

Definition set_own_restrictions (m : restriction_method) (self : ParameterParser)
    (d : gmap string (list string)) : ParameterParser :=
  match m with
  | Dependency =>
      {| add_help := add_help self; version := version self;
         parameters := parameters self;
         user_name_parameters := user_name_parameters self;
         dependency_params_restrictions := d;
         incompatible_params_restrictions := incompatible_params_restrictions self |}
  | Incompatible =>
      {| add_help := add_help self; version := version self;
         parameters := parameters self;
         user_name_parameters := user_name_parameters self;
         dependency_params_restrictions := dependency_params_restrictions self;
         incompatible_params_restrictions := d |}
  end.

(** [_valid_parameter] (lines 676-690): the first parameter with that short
    name (or long name), [None] for the [False] it returns otherwise. *)
Definition _valid_parameter (self : ParameterParser) (type_param param : string)
  : option _Parameter :=
  if String.eqb type_param "short" then
    List.find (fun valid_param => String.eqb (p_name valid_param) param) (parameters self)
  else
    List.find (fun valid_param =>
                 match p_long_name valid_param with
                 | Some l => String.eqb l param
                 | None => false
                 end) (parameters self).

(** [# Checking short_command] (lines 423-431): the short name. *)
Definition check_short_command (self : ParameterParser)
    (short_command : option string) : outcome string :=
  match short_command with
  | Some sc =>
      if re_match short_command_re sc then
        let sc' := str_replace1 "-" "" sc in
        if existsb (fun param => String.eqb (p_name param) sc') (parameters self)
        then Raise (ParameterError None (DuplicatedShort sc'))
        else Return sc'
      else Raise (ParameterError None (NotValidShort short_command))
  | None => Raise (ParameterError None (NotValidShort short_command))
  end.

(** [# Checking long_command] (lines 434-443): the long name, if any. *)
Definition check_long_command (self : ParameterParser)
    (long_command : option string) : outcome (option string) :=
  match long_command with
  | Some lc =>
      if re_match long_command_re lc then
        let lc' := str_replace1 "--" "" lc in
        if existsb (fun param =>
                      match p_long_name param with
                      | Some l => String.eqb l lc'
                      | None => false
                      end) (parameters self)
        then Raise (ParameterError None (DuplicateLong lc'))
        else Return (Some lc')
      else Raise (ParameterError None (NotValidLong lc))
  | None => Return None
  end.

(** [add_parameter] (lines 420-464) *)
Definition add_parameter (rt : Runtime) (self : ParameterParser)
    (short_command long_command : option string) (kw : kwargs)
  : outcome ParameterParser :=
  except_ParameterError (
    short ← check_short_command self short_command;
    long ← check_long_command self long_command;
    let dest :=
      match kw_dest kw with
      | Some d => d
      | None => match long with Some l => l | None => short end
      end in
    if existsb (fun param => String.eqb dest (p_dest param)) (parameters self)
    then Raise (ParameterError None (DuplicateDest dest))
    else
      new_parameter ← _Parameter_init rt short long dest kw;
      Return (set_parameters self (parameters self ++ [new_parameter]))).

(** [ParameterParser.__init__] (lines 359-401) *)
Definition ParameterParser_init (rt : Runtime) (add_help_ : bool)
    (version_ : option string) : outcome ParameterParser :=
  let self := {| add_help := add_help_; version := version_; parameters := [];
                 user_name_parameters := [];
                 dependency_params_restrictions := ∅;
                 incompatible_params_restrictions := ∅ |} in
  let info action help :=
    {| kw_dest := None; kw_type := None; kw_action := action; kw_nargs := None;
       kw_default := DSuppress; kw_const := VNone; kw_required := false;
       kw_choices := ChNone; kw_section := None; kw_help := Some help |} in
  self ←
    (if add_help_
     then add_parameter rt self (Some "-h") (Some "--help")
            (info "help" "Show this help and exit")
     else Return self);
  match version_ with
  | Some _ =>
      add_parameter rt self (Some "-V") (Some "--version")
        (info "version" "Show the version and exit")
  | None => Return self
  end.

(** ** The restriction methods (lines 469-587)

    [dependency_params] and [incompatible_params] are the same text up to the
    dictionary that is written, the one that is checked, and the prefix of
    the messages: [restriction_params] is that text, with the method as an
    argument. *)

(** The loop over a [restriction] given as a list (lines 484-488); an
    element that is no string has no [replace]. *)
Fixpoint check_restriction_list (m : restriction_method) (self : ParameterParser)
    (l : list pyval) : outcome (list string) :=
  match l with
  | [] => Return []
  | VStr r :: l' =>
      let r' := str_replace1 "-" "" r in
      match _valid_parameter self "short" r' with
      | Some _ => rest ← check_restriction_list m self l'; Return (r :: rest)
      | None => Raise (ParameterError None (NotExists m r'))
      end
  | _ :: _ => Raise AttributeError
  end.

(** The loop over the first arguments (lines 494-517). [own] is the
    dictionary being written. An absent key is bound to the list object
    [restriction] itself; [aliased] holds the keys bound that way during
    this call. Appending the elements of [restriction] to the value of such
    a key is appending to the list that is being iterated, which does not
    end unless the list is empty. *)
Fixpoint restriction_loop (m : restriction_method) (self : ParameterParser)
    (restriction : list string) (ps : list pyval)
    (own : gmap string (list string)) (aliased : list string)
  : outcome (gmap string (list string)) :=
  match ps with
  | [] => Return own
  | VStr p :: ps' =>
      let p_replace := str_replace1 "-" "" p in
      match _valid_parameter self "short" p_replace with
      | None => Raise (ParameterError None (NotExists m p_replace))
      | Some _ =>
          if str_in p restriction
          then Raise (ParameterError None (RestrictionToItself m p))
          else
            match
              match other_restrictions m self !! p with
              | Some l => List.find (fun r => str_in r l) restriction
              | None => None
              end
            with
            | Some r => Raise (ParameterError None (DependencyAndIncompatibility m p r))
            | None =>
                match own !! p with
                | Some l =>
                    if str_in p aliased then
                      match restriction with
                      | [] => restriction_loop m self restriction ps' own aliased
                      | _ :: _ => Loops
                      end
                    else
                      restriction_loop m self restriction ps'
                        (<[p := l ++ restriction]> own) aliased
                | None =>
                    restriction_loop m self restriction ps'
                      (<[p := restriction]> own) (p :: aliased)
                end
            end
      end
  | _ :: _ => Raise (ParameterError None (MustBeStr m))
  end.

Definition restriction_params (m : restriction_method) (self : ParameterParser)
    (args : list pyval) : outcome ParameterParser :=
  except_ParameterError (
    if (length args <? 2)%nat then Raise (ParameterError None (NeedsTwoParameters m))
    else
      match last args with
      | None => Raise IndexError
      | Some restriction0 =>
          restriction ←
            (match restriction0 with
             | VStr s =>
                 let r := str_replace1 "-" "" s in
                 match _valid_parameter self "short" r with
                 | Some _ => Return [s]
                 | None => Raise (ParameterError None (NotExists m r))
                 end
             | VList l => check_restriction_list m self l
             | _ => Raise (ParameterError None (MustBeStrOrList m))
             end);
          own ← restriction_loop m self restriction (removelast args)
                  (own_restrictions m self) [];
          (* list(set(value)) for every key: the order Python gives the
             elements is not specified, [remove_dups] keeps the last
             occurrence of each. *)
          Return (set_own_restrictions m self (remove_dups <$> own))
      end).

(** [dependency_params] (lines 469-527) *)
Definition dependency_params := restriction_params Dependency.

(** [incompatible_params] (lines 529-587) *)
Definition incompatible_params := restriction_params Incompatible.

(** ** The help page and the version (lines 783-903)

    What matters of the help page is how [_print_help] ends. The page is
    put together by string concatenation, which fails on a long name that
    is [None]; every other piece is a string, or goes through [str]. *)

(** [param_list.remove(p)] for the first [p] with that short name. *)
Fixpoint remove_named (name : string) (param_list : list _Parameter)
  : list _Parameter :=
  match param_list with
  | [] => []
  | p :: param_list' =>
      if String.eqb (p_name p) name then param_list'
      else p :: remove_named name param_list'
  end.

(** One entry of the [Info:] block of [_info_subsection_help] (lines
    833-849): the first parameter with that short name is taken from the
    list and shown with its long name. When there is none, the variable
    that should hold it was never bound. *)
Definition info_entry (name : string) (param_list : list _Parameter)
  : outcome (list _Parameter) :=
  match List.find (fun p => String.eqb (p_name p) name) param_list with
  | None => Raise UnboundLocalError
  | Some info =>
      match p_long_name info with
      | None => Raise TypeError
      | Some _ => Return (remove_named name param_list)
      end
  end.

(** A parameter [_subsections_help] shows (line 872) and whose line cannot
    be written (line 874). *)
Definition unprintable (p : _Parameter) : bool :=
  negb (String.eqb (p_help p) SUPPRESS) &&
  match p_long_name p with
  | None => true
  | Some _ => false
  end.

(** [_print_help] (lines 783-824): the [Info:] block, with the version
    entry first, then the other parameters, every section in turn; then the
    page is written and the process ends with [sys.exit(0)]. Sorting the
    copy of the list by short name (line 788) keeps the parameters of one
    name in their order. *)
Definition _print_help {A} (self : ParameterParser) : outcome A :=
  match
    param_list ← (match version self with
                  | Some _ => info_entry "V" (parameters self)
                  | None => Return (parameters self)
                  end);
    if add_help self then info_entry "h" param_list else Return param_list
  with
  | Return param_list =>
      if existsb unprintable param_list then Raise TypeError
      else Raise (SystemExit 0 HelpText)
  | Raise e => Raise e
  | Loops => Loops
  end.

(** [_print_version] (lines 901-903) *)
Definition _print_version {A} (self : ParameterParser) : outcome A :=
  Raise (SystemExit 0 VersionText).

(** ** The parser (lines 598-781) *)

(** [_check_required_param] (lines 707-717) *)
Definition _check_required_param (self : ParameterParser) (namespace : Namespace)
  : list _Parameter :=
  List.filter (fun rp => negb (str_in (p_dest rp) (Namespace_iter namespace)))
    (List.filter (fun p => p_required p) (parameters self)).

(** [_complete_namespace] (lines 719-724), over the parameters that are
    left: the namespace it ends with, and the [setattr] calls it made. *)
Fixpoint complete_from (ps : list _Parameter) (namespace : Namespace)
  : outcome (Namespace * list (string * pyval)) :=
  match ps with
  | [] => Return (namespace, [])
  | p :: ps' =>
      match p_default p with
      | DVal d =>
          if negb (Namespace_contains namespace (p_dest p)) then
            namespace ← setattr namespace (p_dest p) d;
            '(ns, writes) ← complete_from ps' namespace;
            Return (ns, (p_dest p, d) :: writes)
          else complete_from ps' namespace
      | DSuppress => complete_from ps' namespace
      end
  end.

Definition _complete_namespace (self : ParameterParser) (namespace : Namespace)
  : outcome Namespace :=
  '(ns, _) ← complete_from (parameters self) namespace; Return ns.

(** [raise ParameterError(parameter, msg)] where [parameter] is what
    [_valid_parameter] returned: [False] has no [name]. *)
Definition raise_found {A} (parameter : option _Parameter) (m : message) : outcome A :=
  match parameter with
  | Some p => Raise (ParameterError (Some (p_name p)) m)
  | None => Raise AttributeError
  end.

(** The check of lines 649-655 over the items of the dictionary. *)
Fixpoint check_incompatible (self : ParameterParser) (names : list string)
    (items : list (string * list string)) : outcome unit :=
  match items with
  | [] => Return ()
  | (value, restrictions) :: items' =>
      let value := str_replace1 "-" "" value in
      let result :=
        List.filter (fun i => str_in (str_replace1 "-" "" i) names) restrictions in
      if str_in value names && negb (length result =? 0)%nat
      then raise_found (_valid_parameter self "short" value) (IncompatibleParameters result)
      else check_incompatible self names items'
  end.

(** The check of lines 658-664. *)
Fixpoint check_dependency (self : ParameterParser) (names : list string)
    (items : list (string * list string)) : outcome unit :=
  match items with
  | [] => Return ()
  | (value, restrictions) :: items' =>
      let value := str_replace1 "-" "" value in
      let result :=
        List.filter (fun i => negb (str_in (str_replace1 "-" "" i) names)) restrictions in
      if str_in value names && negb (length result =? 0)%nat
      then raise_found (_valid_parameter self "short" value) (MissingDependencies result)
      else check_dependency self names items'
  end.

Section Parser.

Context (rt : Runtime).

(** The loop of lines 764-768: the tokens up to the first one that fails
    the test. *)
Fixpoint collect_values (l : list string) : outcome (list string) :=
  match l with
  | [] => Return []
  | a :: l' =>
      is_value ← _is_value rt (VStr a);
      if is_value : bool then largs ← collect_values l'; Return (a :: largs)
      else Return []
  end.

(** [_store_action] (lines 729-781). [__init__] only lets a [nargs] that is
    an [int] be non-negative, so the slice of line 742 is the next [nargs]
    tokens, or the tokens that are left when there are fewer. *)
Definition _store_action (param : _Parameter) (namespace : Namespace)
    (external_index : nat) (args : list string) : outcome (Namespace * nat) :=
  if str_in (p_dest param) (Namespace_iter namespace)
  then raise_for param PassedMoreThanOnce
  else if String.eqb (p_action param) "store_true"
  then namespace ← setattr namespace (p_dest param) (VBool true);
       Return (namespace, external_index)
  else if String.eqb (p_action param) "store_false"
  then namespace ← setattr namespace (p_dest param) (VBool false);
       Return (namespace, external_index)
  else
    match p_nargs param with
    | AInt n =>
        let largs := take (Z.to_nat n) (drop (external_index + 1) args) in
        let external_index := (external_index + Z.to_nat n)%nat in
        list_values ← _parse_list rt param (VStr <$> largs);
        namespace ←
          match list_values with
          | [v] => setattr namespace (p_dest param) v
          | _ => setattr namespace (p_dest param) (VList list_values)
          end;
        Return (namespace, external_index)
    | AStr nargs =>
        '(list_values, external_index) ←
          (if String.eqb nargs "?" then
             if negb (length args =? external_index + 1)%nat then
               match args !! (external_index + 1)%nat with
               | None => Raise IndexError
               | Some a =>
                   is_value ← _is_value rt (VStr a);
                   if is_value : bool then
                     list_values ← _parse_list rt param [VStr a];
                     Return (list_values, (external_index + 1)%nat)
                   else
                     list_values ← _parse_list rt param [p_const param];
                     Return (list_values, external_index)
               end
             else
               list_values ← _parse_list rt param [p_const param];
               Return (list_values, external_index)
           else
             largs ← collect_values (drop (external_index + 1) args);
             list_values ← _parse_list rt param (VStr <$> largs);
             if String.eqb nargs "+" && (length list_values =? 0)%nat
             then raise_for param NeedAtLeastOne
             else Return (list_values, (external_index + length largs)%nat));
        namespace ←
          (if p_default_nargs param then
             match list_values with
             | v :: _ => setattr namespace (p_dest param) v
             | [] => Raise IndexError
             end
           else setattr namespace (p_dest param) (VList list_values));
        Return (namespace, external_index)
    end.

(** [_do_action] (lines 692-705) *)
Definition _do_action (self : ParameterParser) (param : _Parameter)
    (namespace : Namespace) (external_index : nat) (args : list string)
  : outcome (Namespace * nat) :=
  if String.eqb (p_action param) "help" then _print_help self
  else if String.eqb (p_action param) "version" then _print_version self
  else _store_action param namespace external_index args.

(** The state of the scan: the namespace, [self.user_name_parameters] and
    [index]. *)
Definition scan_state : Type := Namespace * list string * nat.

(** The loop over the letters of a bundle (lines 614-621). *)
Fixpoint bundle_loop (self : ParameterParser) (args : list string)
    (letters : list string) (st : scan_state) : outcome scan_state :=
  match letters with
  | [] => Return st
  | p :: letters' =>
      let '(namespace, names, index) := st in
      match _valid_parameter self "short" p with
      | Some validated_param =>
          let names := names ++ [p_name validated_param] in
          '(namespace, index) ← _do_action self validated_param namespace index args;
          bundle_loop self args letters' (namespace, names, index)
      | None => Raise (ParameterError None (NotValidParameter p))
      end
  end.

(** One turn of the main loop (lines 610-637), [index += 1] included. *)
Definition scan_step (self : ParameterParser) (args : list string)
    (st : scan_state) : outcome scan_state :=
  let '(namespace, names, index) := st in
  match args !! index with
  | None => Raise IndexError
  | Some checking_param =>
      '(namespace, names, index) ←
        (if re_match short_bundle_re checking_param then
           bundle_loop self args (str_chars (str_replace1 "-" "" checking_param)) st
         else if re_match long_command_re checking_param then
           let checking_param := str_replace1 "--" "" checking_param in
           match _valid_parameter self "long" checking_param with
           | Some validated_param =>
               let names := names ++ [p_name validated_param] in
               '(namespace, index) ← _do_action self validated_param namespace index args;
               Return (namespace, names, index)
           | None => Raise (ParameterError None (NotValidLongParameter checking_param))
           end
         else Raise (ParameterError None (NotValidFormat checking_param)));
      Return (namespace, names, (index + 1)%nat)
  end.

(** [while index < args_len] (line 609); [fuel] bounds the number of
    turns. *)
Fixpoint main_loop (self : ParameterParser) (args : list string) (fuel : nat)
    (st : scan_state) : outcome scan_state :=
  if (st.2 <? length args)%nat then
    match fuel with
    | O => Loops
    | S fuel' => st' ← scan_step self args st; main_loop self args fuel' st'
    end
  else Return st.

(** The scan of [parse_params]: every turn moves [index] forward, so
    [len(args)] turns are enough. *)
Definition scan (self : ParameterParser) (args : list string)
    (namespace : Namespace) : outcome scan_state :=
  main_loop self args (length args) (namespace, user_name_parameters self, 0%nat).

(** [parse_params] (lines 598-673). [args] is the token list (reading
    [sys.argv] is left to the caller); [namespace] is the optional second
    argument. What is returned is the namespace, and the parser with its
    [user_name_parameters] as the call leaves it. *)
Definition parse_params (self : ParameterParser) (args : list string)
    (namespace : option Namespace) : outcome (Namespace * ParameterParser) :=
  except_ParameterError (
    let namespace : Namespace := default ∅ namespace in
    '(namespace, names, _) ← scan self args namespace;
    let missing_required_param_list := _check_required_param self namespace in
    if negb (length missing_required_param_list =? 0)%nat
    then Raise (ParameterError None
                  (MissingRequired (p_dest <$> missing_required_param_list)))
    else
      let self' := set_user_name_parameters self names in
      _ ← check_incompatible self' names
            (map_to_list (incompatible_params_restrictions self'));
      _ ← check_dependency self' names
            (map_to_list (dependency_params_restrictions self'));
      namespace ← _complete_namespace self' namespace;
      Return (namespace, self')).

End Parser.

(** ** Notions used in the statements *)

(** The candidate-value test in words: the token parses as an integer, or
    it does not begin with a dash. *)
Definition candidate_value (tok : string) : Prop :=
  is_Some (int_of_str tok) \/ startswith "-" tok = false.

(** A name of at least three characters whose first two characters and
    last character are letters, the others letters or underscores. *)
Definition long_name_ok (name : string) : bool :=
  match list_ascii_of_string name with
  | a :: b :: rest =>
      is_letter a && is_letter b && forallb is_letter_or_underscore rest
      && match last rest with Some z => is_letter z | None => false end
  | _ => false
  end.

(** The long name as the specification words it: at least two characters,
    the first and the last letters, those between letters or underscores. *)
Definition claimed_long_name_ok (name : string) : bool :=
  match list_ascii_of_string name with
  | a :: rest =>
      is_letter a && forallb is_letter_or_underscore rest
      && match last rest with Some z => is_letter z | None => false end
  | [] => false
  end.

Definition long_name_chars (name : list ascii) : Prop :=
  exists a b mid z, name = a :: b :: mid ++ [z] /\
    is_letter a = true /\ is_letter b = true /\
    Forall (fun c => is_letter_or_underscore c = true) mid /\ is_letter z = true.

(** The string that is one newline. *)
Definition nl : string := String newline EmptyString.

(** Lines 745-748 of [_store_action]: what a fixed [nargs] stores. *)
Definition store_fixed (param : _Parameter) (namespace : Namespace)
    (list_values : list pyval) : outcome Namespace :=
  match list_values with
  | [v] => setattr namespace (p_dest param) v
  | _ => setattr namespace (p_dest param) (VList list_values)
  end.

(** Lines 776-779 of [_store_action]: what the other [nargs] store. *)
Definition store_collected (param : _Parameter) (namespace : Namespace)
    (list_values : list pyval) (external_index : nat) : outcome (Namespace * nat) :=
  namespace ←
    (if p_default_nargs param then
       match list_values with
       | v :: _ => setattr namespace (p_dest param) v
       | [] => Raise IndexError
       end
     else setattr namespace (p_dest param) (VList list_values));
  Return (namespace, external_index).

(** The token [tok] is one flag of [param]: a dash and its letter, or its
    long form. *)
Definition resolves_to (self : ParameterParser) (tok : string) (param : _Parameter)
  : Prop :=
  (re_match short_bundle_re tok = true /\
   str_chars (str_replace1 "-" "" tok) = [p_name param] /\
   _valid_parameter self "short" (p_name param) = Some param) \/
  (re_match short_bundle_re tok = false /\
   re_match long_command_re tok = true /\
   _valid_parameter self "long" (str_replace1 "--" "" tok) = Some param).

(** Lines 625-632 of [parse_params]: the turn of the main loop for a token
    that matches the long pattern, [index += 1] included. *)
Definition long_flag_turn (rt : Runtime) (self : ParameterParser)
    (args : list string) (st : scan_state) (checking_param : string)
  : outcome scan_state :=
  let '(namespace, names, index) := st in
  let checking_param := str_replace1 "--" "" checking_param in
  match _valid_parameter self "long" checking_param with
  | Some validated_param =>
      '(namespace, index) ← _do_action rt self validated_param namespace index args;
      Return (namespace, names ++ [p_name validated_param], (index + 1)%nat)
  | None => Raise (ParameterError None (NotValidLongParameter checking_param))
  end.

(** The parsers a program can hold: made by [ParameterParser(...)], then
    passed through calls of the public methods that returned. *)
Inductive built (rt : Runtime) : ParameterParser -> Prop :=
  | built_init add_help_ version_ self :
      ParameterParser_init rt add_help_ version_ = Return self -> built rt self
  | built_add self short_command long_command kw self' :
      built rt self ->
      add_parameter rt self short_command long_command kw = Return self' ->
      built rt self'
  | built_restriction m self args self' :
      built rt self -> restriction_params m self args = Return self' ->
      built rt self'
  | built_parse self args namespace namespace' self' :
      built rt self ->
      parse_params rt self args namespace = Return (namespace', self') ->
      built rt self'.

(** No token follows, or the one that follows fails the test. *)
Definition no_value_follows (following : list string) : Prop :=
  match following with
  | [] => True
  | a :: _ => ~ candidate_value a
  end.

(** What declaring the pair [(a, b)] leaves in the dictionary [own]. *)
Definition declared (own : gmap string (list string)) (a b : string)
  : gmap string (list string) :=
  remove_dups <$> <[a := default [] (own !! a) ++ [b]]> own.

(** The other restriction method. *)
Definition opposite (m : restriction_method) : restriction_method :=
  match m with
  | Dependency => Incompatible
  | Incompatible => Dependency
  end.

(** How often [setattr] was called on [dest]. *)
Definition write_count (dest : string) (writes : list (string * pyval)) : nat :=
  length (List.filter (fun w => String.eqb w.1 dest) writes).

(** How often [x] stands in [l]. *)
Definition occurrences (x : string) (l : list string) : nat :=
  length (List.filter (String.eqb x) l).

(** The attribute [dest] of the namespace a parse returned. *)
Definition result_attr (r : outcome (Namespace * ParameterParser)) (dest : string)
  : outcome (option pyval) :=
  '(namespace, _) ← r; Return (namespace !! dest).

(** ** Concrete parsers *)

(** A runtime with no floats, no files and no directories. *)
Definition bare_runtime : Runtime :=
  {| rt_float := fun _ => Raise ValueError;
     rt_open := fun _ _ _ => Raise IOError;
     rt_isdir := fun _ => false;
     rt_stdin := VObj 0;
     rt_stdout := VObj 1;
     rt_int := fun _ => Raise TypeError;
     rt_str := fun _ => "<object>";
     rt_truth := fun _ => true;
     rt_eq := fun _ _ => false |}.

Definition with_type_nargs (t : ptype) (n : option nargs_val) : kwargs :=
  {| kw_dest := None; kw_type := Some t; kw_action := "store"; kw_nargs := n;
     kw_default := DVal VNone; kw_const := VNone; kw_required := false;
     kw_choices := ChNone; kw_section := None; kw_help := None |}.

Definition store_true_flag : kwargs :=
  {| kw_dest := None; kw_type := None; kw_action := "store_true"; kw_nargs := None;
     kw_default := DVal VNone; kw_const := VNone; kw_required := false;
     kw_choices := ChNone; kw_section := None; kw_help := None |}.

(** [add_parameter('-n', type=int, nargs=1)] *)
Definition parser_n (rt : Runtime) : outcome ParameterParser :=
  self ← ParameterParser_init rt true None;
  add_parameter rt self (Some "-n") None (with_type_nargs TInt (Some (AInt 1))).

(** [add_parameter('-n', type=int)] *)
Definition parser_n_default (rt : Runtime) : outcome ParameterParser :=
  self ← ParameterParser_init rt true None;
  add_parameter rt self (Some "-n") None (with_type_nargs TInt None).

(** [type=int, nargs='?', default=10, const=1] *)
Definition optional_one_kwargs : kwargs :=
  {| kw_dest := None; kw_type := Some TInt; kw_action := "store";
     kw_nargs := Some (AStr "?"); kw_default := DVal (VInt 10);
     kw_const := VInt 1; kw_required := false; kw_choices := ChNone;
     kw_section := None; kw_help := None |}.

(** [add_parameter('-o', type=int, nargs='?', default=10, const=1)] *)
Definition parser_o (rt : Runtime) : outcome ParameterParser :=
  self ← ParameterParser_init rt true None;
  add_parameter rt self (Some "-o") None optional_one_kwargs.

(** [add_parameter('-l', '--list', nargs='*')] *)
Definition parser_star (rt : Runtime) : outcome ParameterParser :=
  self ← ParameterParser_init rt true None;
  add_parameter rt self (Some "-l") (Some "--list")
    (with_type_nargs TStr (Some (AStr "*"))).

(** The [_Parameter] that [parser_star] registers. *)
Definition star_param : _Parameter :=
  {| p_name := "l"; p_long_name := Some "list"; p_dest := "list";
     p_required := false; p_section := "Others"; p_type := TStr;
     p_action := "store"; p_default := DVal VNone; p_const := VNone;
     p_choices := None; p_default_nargs := false; p_nargs := AStr "*";
     p_help := "None" |}.

(** The [_Parameter] that [parser_n] registers. *)
Definition n_param : _Parameter :=
  {| p_name := "n"; p_long_name := None; p_dest := "n";
     p_required := false; p_section := "Others"; p_type := TInt;
     p_action := "store"; p_default := DVal VNone; p_const := VNone;
     p_choices := None; p_default_nargs := false; p_nargs := AInt 1;
     p_help := "None" |}.

(** The [_Parameter] that [parser_o] registers. *)
Definition o_param : _Parameter :=
  {| p_name := "o"; p_long_name := None; p_dest := "o";
     p_required := false; p_section := "Others"; p_type := TInt;
     p_action := "store"; p_default := DVal (VInt 10); p_const := VInt 1;
     p_choices := None; p_default_nargs := false; p_nargs := AStr "?";
     p_help := "None" |}.

(** Two flags, [-a] and [-b]. *)
Definition parser_ab (rt : Runtime) : outcome ParameterParser :=
  self ← ParameterParser_init rt true None;
  self ← add_parameter rt self (Some "-a") None store_true_flag;
  add_parameter rt self (Some "-b") None store_true_flag.

(** The parser before any registration. *)
Definition empty_parser : ParameterParser :=
  {| add_help := false; version := None; parameters := [];
     user_name_parameters := []; dependency_params_restrictions := ∅;
     incompatible_params_restrictions := ∅ |}.

(** The value a computation returned ([d] if it did not return). *)
Definition returned {A} (r : outcome A) (d : A) : A :=
  match r with
  | Return a => a
  | _ => d
  end.

(** The parser objects of the examples. *)
Definition ab_parser : ParameterParser := returned (parser_ab bare_runtime) empty_parser.

Definition ab_dependency : ParameterParser :=
  returned (dependency_params ab_parser [VStr "-a"; VStr "-b"]) empty_parser.

Definition ab_incompatible : ParameterParser :=
  returned (incompatible_params ab_parser [VStr "-a"; VStr "-b"]) empty_parser.


Definition help_parser : ParameterParser :=
  returned (ParameterParser_init bare_runtime true None) empty_parser.

Definition o_parser : ParameterParser := returned (parser_o bare_runtime) empty_parser.

Definition star_parser : ParameterParser := returned (parser_star bare_runtime) empty_parser.

(** ** Notions used in the further properties *)

(** The long names in the registry. *)
Definition long_names (self : ParameterParser) : list string :=
  omap p_long_name (parameters self).

(** No two parameters share a short name, a long name or a dest. *)
Definition registry_unique (self : ParameterParser) : Prop :=
  NoDup (p_name <$> parameters self) /\ NoDup (long_names self) /\
  NoDup (p_dest <$> parameters self).

(** Every character of [s] is a letter. *)
Definition all_letters (s : string) : bool :=
  forallb is_letter (list_ascii_of_string s).

(** What [__init__] checks of the fields of a parameter. *)
Definition well_formed (p : _Parameter) : Prop :=
  valid_type (p_type p) = true /\
  str_in (p_action p) ["store"; "store_true"; "store_false"; "help"; "version"]
  = true /\
  (p_required p = true -> p_section p = "Required") /\
  match p_nargs p with
  | AInt n => (0 <= n)%Z
  | AStr s => str_in s ["+"; "*"; "?"] = true
  end /\
  (String.eqb (p_action p) "store_true" || String.eqb (p_action p) "store_false"
   = true -> p_nargs p = AInt 0) /\
  (p_nargs p = AStr "?" -> p_default p <> DVal VNone /\ p_const p <> VNone).

(** [r] is the short name of a registered parameter, with or without its
    dash. *)
Definition registered (self : ParameterParser) (r : string) : Prop :=
  is_Some (_valid_parameter self "short" (str_replace1 "-" "" r)).

(** What the restriction methods keep true of the two dictionaries: keys
    and targets are registered, no list holds a string twice, no key is among
    its own targets, and no key has a target in both dictionaries. *)
Definition graphs_consistent (self : ParameterParser) : Prop :=
  (forall m k l, own_restrictions m self !! k = Some l ->
     registered self k /\ Forall (registered self) l /\ NoDup l /\ k ∉ l) /\
  (forall k l1 l2 r,
     dependency_params_restrictions self !! k = Some l1 ->
     incompatible_params_restrictions self !! k = Some l2 ->
     r ∈ l1 -> r ∉ l2).

(** The arguments of a restriction method: the keys, then the targets as
    one string or as a list of strings. *)
Definition keys_and_targets (args : list pyval) (keys R : list string) : Prop :=
  args = (VStr <$> keys) ++ [VList (VStr <$> R)] \/
  exists r, R = [r] /\ args = (VStr <$> keys) ++ [VStr r].

(** What a restriction method checks of a key [p] against the targets
    [R]: [p] is registered, is not one of the targets as written, and has
    none of them in the other dictionary. *)
Definition key_accepted (m : restriction_method) (self : ParameterParser)
    (R : list string) (p : string) : Prop :=
  registered self p /\ (p ∉ R) /\
  (forall l r, other_restrictions m self !! p = Some l -> r ∈ R -> r ∉ l).

(** The namespace with [True] or [False] stored for every flag of [ps],
    in their order. *)
Definition store_flags (ps : list _Parameter) (namespace : Namespace) : Namespace :=
  foldl (fun ns p => <[p_dest p := VBool (String.eqb (p_action p) "store_true")]> ns)
    namespace ps.

(** The [_Parameter] that [add_parameter('-' + name, type=t, nargs=n)]
    registers. *)
Definition value_param (name : string) (t : ptype) (n : nargs_val) : _Parameter :=
  {| p_name := name; p_long_name := None; p_dest := name;
     p_required := false; p_section := "Others"; p_type := t;
     p_action := "store"; p_default := DVal VNone; p_const := VNone;
     p_choices := None; p_default_nargs := false; p_nargs := n;
     p_help := "None" |}.




(** What a parse returned (the empty namespace and parser if it did
    not). *)
Definition parsed (r : outcome (Namespace * ParameterParser))
  : Namespace * ParameterParser :=
  returned r (∅, empty_parser).

(** The runtime functions end: [float], [open] and [int] return or
    raise. *)
Definition runtime_ends (rt : Runtime) : Prop :=
  (forall v, rt_float rt v <> Loops) /\
  (forall path mode bufsize, rt_open rt path mode bufsize <> Loops) /\
  (forall o, rt_int rt o <> Loops).

(** A [store_true] flag kept under the hidden dest [_a]. *)
Definition hidden_flag : _Parameter :=
  {| p_name := "a"; p_long_name := None; p_dest := "_a";
     p_required := false; p_section := "Others"; p_type := TStr;
     p_action := "store_true"; p_default := DVal (VStr "False"); p_const := VNone;
     p_choices := None; p_default_nargs := true; p_nargs := AInt 0;
     p_help := "None" |}.

(** [type=int, choices=l] *)
Definition int_choices (l : list pyval) : kwargs :=
  {| kw_dest := None; kw_type := Some TInt; kw_action := "store"; kw_nargs := None;
     kw_default := DVal VNone; kw_const := VNone; kw_required := false;
     kw_choices := ChIter l; kw_section := None; kw_help := None |}.

(** The parameter an information flag registers. *)
Definition info_param (name long action help : string) : _Parameter :=
  {| p_name := name; p_long_name := Some long; p_dest := long;
     p_required := false; p_section := "Others"; p_type := TStr;
     p_action := action; p_default := DSuppress; p_const := VNone;
     p_choices := None; p_default_nargs := true; p_nargs := AInt 1;
     p_help := help |}.



(** The state of the scan after the turn that stores the empty list for
    [param]. *)
Definition stored_empty (param : _Parameter) (st : scan_state) : scan_state :=
  (<[p_dest param := VList []]> st.1.1, st.1.2 ++ [p_name param], (st.2 + 1)%nat).

(** The namespace a caller passes with [o] set to 5. *)
Definition prefilled : Namespace := <["o" := VInt 5]> ∅.

(** A boolean flag. *)
Definition is_flag (p : _Parameter) : Prop :=
  String.eqb (p_action p) "store_true" || String.eqb (p_action p) "store_false"
  = true.

(** * Properties *)

(** ** The regular expressions *)

Lemma lang_class_inv f s : lang (RClass f) s <-> exists c, s = [c] /\ f c = true.
Proof.
  split.
  - inversion 1; subst; eauto.
  - intros (c & -> & H). by constructor.
Qed.

Lemma lang_seq_inv a b s :
  lang (RSeq a b) s <-> exists s1 s2, s = s1 ++ s2 /\ lang a s1 /\ lang b s2.
Proof.
  split.
  - inversion 1; subst; eauto.
  - intros (s1 & s2 & -> & H1 & H2). by constructor.
Qed.

Lemma lang_alt_inv a b s : lang (RAlt a b) s <-> lang a s \/ lang b s.
Proof.
  split.
  - inversion 1; subst; auto.
  - intros [H|H]; [by apply lang_alt_l | by apply lang_alt_r].
Qed.

Lemma lang_eps_inv s : lang REps s <-> s = [].
Proof.
  split.
  - by inversion 1.
  - intros ->. constructor.
Qed.

Lemma lang_none_inv s : ~ lang RNone s.
Proof. inversion 1. Qed.

Lemma nullable_lang r : nullable r = true <-> lang r [].
Proof.
  induction r as [| |f|a IHa b IHb|a IHa b IHb|a IHa]; simpl.
  - split; [discriminate | by intros ?%lang_none_inv].
  - by rewrite lang_eps_inv.
  - rewrite lang_class_inv. split; [discriminate | by intros (c & ? & _)].
  - rewrite andb_true_iff, IHa, IHb, lang_seq_inv. split.
    + intros [Ha Hb]. by exists [], [].
    + intros (s1 & s2 & E & H1 & H2). symmetry in E.
      apply app_eq_nil in E as [-> ->]. done.
  - by rewrite orb_true_iff, IHa, IHb, lang_alt_inv.
  - split; [constructor | done].
Qed.

Lemma lang_star_cons_inv a c s :
  lang (RStar a) (c :: s) ->
  exists s1 s2, s = s1 ++ s2 /\ lang a (c :: s1) /\ lang (RStar a) s2.
Proof.
  intros H. remember (RStar a) as r eqn:Er. remember (c :: s) as t eqn:Et.
  revert s Et. induction H as [| | | | | |a' s1 s2 H1 _ H2 IH2]; intros t' Et; try discriminate.
  injection Er as ->. destruct s1 as [|c1 s1]; simpl in Et.
  - apply IH2; done.
  - injection Et as -> <-. eauto.
Qed.

Lemma deriv_lang c r s : lang (deriv c r) s <-> lang r (c :: s).
Proof.
  revert s. induction r as [| |f|a IHa b IHb|a IHa b IHb|a IHa]; intros s; simpl.
  - split; by intros ?%lang_none_inv.
  - split; [by intros ?%lang_none_inv | by intros ?%lang_eps_inv].
  - rewrite lang_class_inv. destruct (f c) eqn:Hf.
    + rewrite lang_eps_inv. split.
      * intros ->. eauto.
      * intros (c' & E & _). by injection E.
    + split; [by intros ?%lang_none_inv|].
      intros (c' & E & Hc). injection E as -> ->. congruence.
  - assert (Hseq : lang (RSeq (deriv c a) b) s <->
              exists s1 s2, s = s1 ++ s2 /\ lang a (c :: s1) /\ lang b s2).
    { rewrite lang_seq_inv. split; intros (s1 & s2 & E & H1 & H2);
        exists s1, s2; (split; [done|]); (split; [by apply IHa | done]). }
    assert (Hinv : lang (RSeq a b) (c :: s) <->
              lang (RSeq (deriv c a) b) s \/ (lang a [] /\ lang b (c :: s))).
    { rewrite Hseq, lang_seq_inv. split.
      - intros (s1 & s2 & E & H1 & H2). destruct s1 as [|c1 s1]; simpl in E.
        + subst. by right.
        + injection E as -> ->. left. eauto.
      - intros [(s1 & s2 & -> & H1 & H2)|[H1 H2]].
        + by exists (c :: s1), s2.
        + by exists [], (c :: s). }
    rewrite Hinv. destruct (nullable a) eqn:Hn.
    + rewrite lang_alt_inv, IHb. apply nullable_lang in Hn. tauto.
    + split; [tauto|]. intros [H|[H _]]; [done|].
      apply nullable_lang in H. congruence.
  - by rewrite !lang_alt_inv, IHa, IHb.
  - rewrite lang_seq_inv. split.
    + intros (s1 & s2 & -> & H1 & H2).
      apply IHa in H1. exact (lang_star_cons a (c :: s1) s2 H1 H2).
    + intros H. apply lang_star_cons_inv in H as (s1 & s2 & -> & H1 & H2).
      exists s1, s2. split; [done|]. split; [by apply IHa | done].
Qed.

Lemma re_full_lang r s : re_full r s = true <-> lang r s.
Proof.
  revert r. induction s as [|c s IH]; intros r; simpl.
  - apply nullable_lang.
  - rewrite IH. apply deriv_lang.
Qed.

Lemma lang_star_class f s :
  lang (RStar (RClass f)) s <-> Forall (fun c => f c = true) s.
Proof.
  split.
  - induction s as [|c s IH]; [constructor|].
    intros H. apply lang_star_cons_inv in H as (s1 & s2 & -> & H1 & H2).
    apply lang_class_inv in H1 as (c' & E & Hc). injection E as -> ->.
    constructor; [done | by apply IH].
  - induction 1 as [|c s Hc _ IH]; [constructor|].
    apply (lang_star_cons (RClass f) [c] s); [by constructor | done].
Qed.

Lemma lang_chr c s : lang (RChr c) s <-> s = [c].
Proof.
  unfold RChr. rewrite lang_class_inv. split.
  - intros (c' & -> & H). apply Ascii.eqb_eq in H. by subst.
  - intros ->. exists c. split; [done | apply Ascii.eqb_refl].
Qed.

Lemma lang_dollar P s :
  lang (RSeq P (ROpt (RChr newline))) s <-> lang P s \/ exists s', s = s' ++ [newline] /\ lang P s'.
Proof.
  rewrite lang_seq_inv. split.
  - intros (s1 & s2 & -> & H1 & H2). unfold ROpt in H2.
    apply lang_alt_inv in H2 as [H2|H2].
    + apply lang_chr in H2 as ->. eauto.
    + apply lang_eps_inv in H2 as ->. rewrite app_nil_r. by left.
  - intros [H|(s' & -> & H)].
    + exists s, []. rewrite app_nil_r. repeat split; [done|]. apply lang_alt_r. constructor.
    + exists s', [newline]. repeat split; [done|]. apply lang_alt_l. by apply lang_chr.
Qed.

Lemma letter_is_letter_or_underscore c :
  is_letter c = true -> is_letter_or_underscore c = true.
Proof. unfold is_letter_or_underscore. intros ->. done. Qed.

Lemma lang_long_command_re s :
  lang long_command_re s <->
  exists name, s = "-"%char :: "-"%char :: name /\ long_name_chars name.
Proof.
  unfold long_command_re, RAtLeast2, dash. split.
  - intros H.
    apply lang_seq_inv in H as (d1 & r1 & -> & Hd1 & H).
    apply lang_seq_inv in H as (d2 & r2 & -> & Hd2 & H).
    apply lang_seq_inv in H as (h & t & -> & Hh & Ht).
    apply lang_seq_inv in Hh as (a & r3 & -> & Ha & Hh).
    apply lang_seq_inv in Hh as (b & ls & -> & Hb & Hls).
    apply lang_seq_inv in Ht as (us & z & -> & Hus & Hz).
    apply lang_chr in Hd1 as ->. apply lang_chr in Hd2 as ->.
    apply lang_class_inv in Ha as (a' & -> & Ha).
    apply lang_class_inv in Hb as (b' & -> & Hb).
    apply lang_class_inv in Hz as (z' & -> & Hz).
    apply lang_star_class in Hls. apply lang_star_class in Hus.
    eexists. split; [reflexivity|].
    exists a', b', (ls ++ us), z'. repeat split; try done.
    + simpl. by rewrite <- app_assoc.
    + apply Forall_app. split; [|done].
      eapply Forall_impl; [exact Hls|]. intros c. apply letter_is_letter_or_underscore.
  - intros (name & -> & a & b & mid & z & -> & Ha & Hb & Hmid & Hz).
    apply (lang_seq _ _ ["-"%char] ("-"%char :: a :: b :: mid ++ [z])); [by apply lang_chr|].
    apply (lang_seq _ _ ["-"%char] (a :: b :: mid ++ [z])); [by apply lang_chr|].
    apply (lang_seq _ _ [a; b] (mid ++ [z])).
    + apply (lang_seq _ _ [a] [b]); [by constructor|].
      apply (lang_seq _ _ [b] []); [by constructor | constructor].
    + constructor; [by apply lang_star_class | by constructor].
Qed.

Lemma forallb_Forall {A} (f : A -> bool) l :
  forallb f l = true <-> Forall (fun c => f c = true) l.
Proof.
  induction l as [|x l IH]; simpl.
  - split; [constructor | done].
  - rewrite andb_true_iff, IH, Forall_cons. done.
Qed.

Lemma long_name_ok_chars name :
  long_name_ok name = true <-> long_name_chars (list_ascii_of_string name).
Proof.
  unfold long_name_ok, long_name_chars.
  destruct (list_ascii_of_string name) as [|a [|b rest]].
  - split; [discriminate | intros (?&?&?&?&?&_); discriminate].
  - split; [discriminate | intros (?&?&?&?&?&_); discriminate].
  - rewrite !andb_true_iff, forallb_Forall. split.
    + intros [[[Ha Hb] Hall] Hlast].
      destruct (last rest) as [z|] eqn:El; [|discriminate].
      apply last_Some in El as (mid & ->).
      apply Forall_app in Hall as [Hall _].
      by exists a, b, mid, z.
    + intros (a' & b' & mid & z & E & Ha & Hb & Hmid & Hz).
      injection E as <- <- ->. rewrite last_snoc. repeat split; try done.
      apply Forall_app. split; [done|].
      constructor; [by apply letter_is_letter_or_underscore | constructor].
Qed.

Lemma list_ascii_app (s1 s2 : string) :
  list_ascii_of_string (s1 ++ s2) = list_ascii_of_string s1 ++ list_ascii_of_string s2.
Proof. induction s1 as [|c s1 IH]; simpl; [done | by rewrite IH]. Qed.

Lemma list_ascii_inj (s1 s2 : string) :
  list_ascii_of_string s1 = list_ascii_of_string s2 -> s1 = s2.
Proof.
  intros H. rewrite <- (string_of_list_ascii_of_string s1), <- (string_of_list_ascii_of_string s2).
  by rewrite H.
Qed.

Lemma long_command_re_match tok :
  re_match long_command_re tok = true <->
  exists name, long_name_ok name = true /\ (tok = "--" +:+ name \/ tok = "--" +:+ name +:+ nl).
Proof.
  unfold re_match. rewrite re_full_lang, lang_dollar. split.
  - intros [H|(s' & E & H)].
    + apply lang_long_command_re in H as (name & E & Hn).
      exists (string_of_list_ascii name). split.
      * apply long_name_ok_chars. by rewrite list_ascii_of_string_of_list_ascii.
      * left. apply list_ascii_inj. rewrite E.
        change ("--" +:+ string_of_list_ascii name)
          with (String "-" (String "-" (string_of_list_ascii name))).
        cbn [list_ascii_of_string]. by rewrite list_ascii_of_string_of_list_ascii.
    + apply lang_long_command_re in H as (name & -> & Hn).
      exists (string_of_list_ascii name). split.
      * apply long_name_ok_chars. by rewrite list_ascii_of_string_of_list_ascii.
      * right. apply list_ascii_inj. rewrite E.
        change ("--" +:+ string_of_list_ascii name +:+ nl)
          with (String "-" (String "-" (string_of_list_ascii name +:+ nl))).
        cbn [list_ascii_of_string].
        rewrite list_ascii_app, list_ascii_of_string_of_list_ascii. done.
  - intros (name & Hn & [->| ->]); apply long_name_ok_chars in Hn.
    + left. apply lang_long_command_re. eexists. split; [reflexivity | done].
    + right. exists ("-"%char :: "-"%char :: list_ascii_of_string name). split.
      * change ("--" +:+ name +:+ nl) with (String "-" (String "-" (name +:+ nl))).
        cbn [list_ascii_of_string]. by rewrite list_ascii_app.
      * apply lang_long_command_re. eexists. split; [reflexivity | done].
Qed.

(** ** The outcome monad and [_Parameter.__init__] *)

Lemma bind_Return {A B} (m : outcome A) (f : A -> outcome B) b :
  m ≫= f = Return b -> exists a, m = Return a /\ f a = Return b.
Proof. destruct m as [a| |]; simpl; [eauto | done | done]. Qed.

(** What [__init__] fixes about a parameter it returns. *)
Lemma setattr_Return (namespace namespace' : Namespace) name v :
  setattr namespace name v = Return namespace' <->
  assignable name = true /\ namespace' = <[name := v]> namespace.
Proof.
  unfold setattr, assignable. cbn [str_in existsb].
  destruct (String.eqb name "__weakref__"); [rewrite !orb_true_r; by split; [|intros []]|].
  rewrite !orb_false_r.
  destruct (String.eqb name "__class__" || String.eqb name "__dict__"); simpl.
  - by split; [|intros []].
  - split; [by intros [= <-] | by intros [_ ->]].
Qed.

Lemma setattr_assignable (namespace : Namespace) name v :
  assignable name = true -> setattr namespace name v = Return (<[name := v]> namespace).
Proof. intros H. by apply setattr_Return. Qed.

Lemma print_help_raises {A} self (a : A) : _print_help self <> Return a.
Proof.
  unfold _print_help.
  destruct (_ ≫= _) as [l|e|]; [by destruct (existsb _ _)|done|done].
Qed.

Lemma Parameter_init_Return rt name long_name dest kw param :
  _Parameter_init rt name long_name dest kw = Return param ->
  p_name param = name /\ p_long_name param = long_name /\ p_dest param = dest /\
  p_action param = kw_action kw /\
  p_default_nargs param = bool_decide (kw_nargs kw = None) /\
  (if String.eqb (kw_action kw) "store_true" || String.eqb (kw_action kw) "store_false"
   then p_nargs param = AInt 0
   else p_nargs param = default (AInt 1) (kw_nargs kw) /\
        match p_nargs param with
        | AInt n => (0 <= n)%Z
        | AStr s => str_in s ["+"; "*"; "?"] = true
        end).
Proof.
  unfold _Parameter_init. intros H.
  destruct (negb (valid_type _)); [done|].
  destruct (negb (str_in (kw_action kw) _)); [done|].
  apply bind_Return in H as (default1 & _ & H).
  apply bind_Return in H as (const1 & _ & H).
  apply bind_Return in H as (choices1 & _ & H).
  destruct (kw_nargs kw) as [n0|] eqn:En.
  - apply bind_Return in H as (nargs1 & H1 & [= <-]). simpl.
    repeat split.
    destruct (_ || _); [by injection H1 as <-|].
    destruct n0 as [n|s].
    + destruct (0 <=? n)%Z eqn:E0; [|done]. injection H1 as <-.
      split; [done|]. by apply Z.leb_le.
    + destruct (str_in s _) eqn:Es; [|done].
      assert (nargs1 = AStr s) as ->; [|done].
      revert H1. repeat case_match; congruence.
  - apply bind_Return in H as (nargs1 & H1 & [= <-]). simpl.
    repeat split.
    destruct (_ || _); [by injection H1 as <-|].
    simpl in H1. injection H1 as <-. done.
Qed.

(** ** The value consumer *)

Section ConsumerFacts.

Context (rt : Runtime).

Lemma check_type_int_str tok :
  _check_type rt TInt (VStr tok) = Return (bool_decide (is_Some (int_of_str tok))).
Proof.
  unfold _check_type, call_type, py_int.
  by destruct (int_of_str tok) as [z|].
Qed.

Lemma is_value_str tok :
  _is_value rt (VStr tok) =
  Return (bool_decide (is_Some (int_of_str tok)) || negb (startswith "-" tok)).
Proof.
  unfold _is_value. rewrite check_type_int_str. simpl.
  by destruct (bool_decide _).
Qed.

Lemma is_value_candidate tok :
  _is_value rt (VStr tok) = Return true <-> candidate_value tok.
Proof.
  rewrite is_value_str. unfold candidate_value. split.
  - intros [= H]. apply orb_true_iff in H as [H|H].
    + left. by apply bool_decide_eq_true in H.
    + right. by apply negb_true_iff in H.
  - intros [H|H]; f_equal; apply orb_true_iff.
    + left. by apply bool_decide_eq_true.
    + right. by apply negb_true_iff.
Qed.

Lemma is_value_not_candidate tok :
  _is_value rt (VStr tok) = Return false <-> ~ candidate_value tok.
Proof.
  rewrite <- is_value_candidate, is_value_str.
  destruct (_ || _); split; try done; congruence.
Qed.

(** The loop collects the longest run of tokens that pass the test. *)
Lemma collect_values_spec l :
  exists largs rest,
    collect_values rt l = Return largs /\ l = largs ++ rest /\
    Forall candidate_value largs /\ no_value_follows rest.
Proof.
  induction l as [|a l (largs & rest & E & -> & Hall & Hrest)]; simpl.
  - by exists [], [].
  - destruct (_is_value rt (VStr a)) as [[|]| |] eqn:Ea.
    + exists (a :: largs), rest. rewrite E. simpl. repeat split; try done.
      constructor; [by apply is_value_candidate | done].
    + exists [], (a :: largs ++ rest). repeat split; try done.
      by apply is_value_not_candidate.
    + by rewrite is_value_str in Ea.
    + by rewrite is_value_str in Ea.
Qed.

Lemma collect_values_none l :
  no_value_follows l -> collect_values rt l = Return [].
Proof.
  destruct l as [|a l]; simpl; [done|].
  intros H. apply is_value_not_candidate in H. by rewrite H.
Qed.

Lemma parse_list_loop_flag param tok slist acc :
  ~ candidate_value tok ->
  _parse_list_loop rt param (VStr tok :: slist) acc
  = raise_for param (NotValidValue (VStr tok)).
Proof. intros H. apply is_value_not_candidate in H. simpl. by rewrite H. Qed.

(** What a successful run of the loop returns: the values collected so
    far, followed by the coerced form of every element of [slist]. *)
Lemma parse_list_loop_Return param slist acc vs :
  _parse_list_loop rt param slist acc = Return vs ->
  exists vs', vs = acc ++ vs' /\
    Forall2 (fun x v => call_type rt (p_type param) x = Return v) slist vs'.
Proof.
  revert acc. induction slist as [|x slist IH]; intros acc; simpl.
  - intros [= <-]. exists []. by rewrite app_nil_r.
  - destruct (_is_value rt x) as [[|]| |]; simpl; try done.
    destruct (_check_type rt (p_type param) x) as [[|]| |]; simpl; try done.
    destruct (call_type rt (p_type param) x) as [v| |] eqn:Ev; simpl; try done.
    destruct (_check_choices rt (p_choices param) v); [|done].
    intros (vs' & -> & H)%IH. exists (v :: vs'). split.
    + by rewrite <- app_assoc.
    + by constructor.
Qed.

Lemma parse_list_fixed param n slist :
  p_nargs param = AInt n ->
  _parse_list rt param slist =
  if (Z.of_nat (length slist) <? n)%Z then raise_for param (NeedsValues n)
  else _parse_list_loop rt param slist [].
Proof. unfold _parse_list. by intros ->. Qed.

Lemma parse_list_str param s slist :
  p_nargs param = AStr s ->
  _parse_list rt param slist = _parse_list_loop rt param slist [].
Proof. unfold _parse_list. by intros ->. Qed.

Lemma store_action_fixed param namespace external_index args n :
  p_nargs param = AInt n ->
  str_in (p_dest param) (Namespace_iter namespace) = false ->
  String.eqb (p_action param) "store_true" = false ->
  String.eqb (p_action param) "store_false" = false ->
  _store_action rt param namespace external_index args =
  (list_values ← _parse_list rt param
      (VStr <$> take (Z.to_nat n) (drop (external_index + 1) args));
   namespace ← store_fixed param namespace list_values;
   Return (namespace, (external_index + Z.to_nat n)%nat)).
Proof.
  intros Hn Hd Ht Hf. unfold _store_action. rewrite Hd, Ht, Hf, Hn.
  destruct (_parse_list rt param _) as [[|v [|v' l]]| |]; done.
Qed.

Lemma store_action_collecting param namespace external_index args s :
  p_nargs param = AStr s -> String.eqb s "?" = false ->
  str_in (p_dest param) (Namespace_iter namespace) = false ->
  String.eqb (p_action param) "store_true" = false ->
  String.eqb (p_action param) "store_false" = false ->
  _store_action rt param namespace external_index args =
  (largs ← collect_values rt (drop (external_index + 1) args);
   list_values ← _parse_list rt param (VStr <$> largs);
   if String.eqb s "+" && (length list_values =? 0)%nat
   then raise_for param NeedAtLeastOne
   else store_collected param namespace list_values (external_index + length largs)%nat).
Proof.
  intros Hn Hs Hd Ht Hf. unfold _store_action, store_collected.
  rewrite Hd, Ht, Hf, Hn, Hs.
  destruct (collect_values rt _) as [largs| |]; [|done|done].
  cbn [mbind outcome_bind].
  destruct (_parse_list rt param _) as [lv| |]; [|done|done].
  cbn [mbind outcome_bind].
  by destruct (String.eqb s "+" && _).
Qed.

Lemma store_action_optional param namespace external_index args :
  p_nargs param = AStr "?" ->
  str_in (p_dest param) (Namespace_iter namespace) = false ->
  String.eqb (p_action param) "store_true" = false ->
  String.eqb (p_action param) "store_false" = false ->
  external_index < length args ->
  _store_action rt param namespace external_index args =
  match args !! (external_index + 1)%nat with
  | Some a =>
      is_value ← _is_value rt (VStr a);
      if is_value : bool then
        list_values ← _parse_list rt param [VStr a];
        store_collected param namespace list_values (external_index + 1)%nat
      else
        list_values ← _parse_list rt param [p_const param];
        store_collected param namespace list_values external_index
  | None =>
      list_values ← _parse_list rt param [p_const param];
      store_collected param namespace list_values external_index
  end.
Proof.
  intros Hn Hd Ht Hf Hlt. unfold _store_action, store_collected.
  rewrite Hd, Ht, Hf, Hn.
  change (String.eqb "?" "?") with true. cbv iota.
  destruct (args !! (external_index + 1)%nat) as [a|] eqn:Ea.
  - apply lookup_lt_Some in Ea.
    destruct (Nat.eqb_spec (length args) (external_index + 1)); [lia|].
    cbn [negb].
    destruct (_is_value rt (VStr a)) as [[|]| |]; [| |done|done];
      cbn [mbind outcome_bind];
      by destruct (_parse_list rt param _).
  - apply lookup_ge_None in Ea.
    destruct (Nat.eqb_spec (length args) (external_index + 1)); [|lia].
    cbn [negb]. by destruct (_parse_list rt param _).
Qed.

End ConsumerFacts.

(** ** Fixed arity *)

(** Closes [~ candidate_value tok] for a concrete token. *)
Ltac refute_candidate :=
  let z := fresh "z" in
  let Hz := fresh "Hz" in
  let Hs := fresh "Hs" in
  intros [[z Hz]|Hs]; [vm_compute in Hz | vm_compute in Hs]; discriminate.

(** The parser objects of the examples are what the calls return, and hold
    the parameters written out above. *)
Lemma example_parsers :
  ParameterParser_init bare_runtime true None = Return help_parser /\
  parser_ab bare_runtime = Return ab_parser /\
  parser_o bare_runtime = Return o_parser /\
  parser_star bare_runtime = Return star_parser /\
  last (parameters o_parser) = Some o_param /\
  last (parameters star_parser) = Some star_param /\
  (self ← parser_n bare_runtime; Return (last (parameters self)))
  = Return (Some n_param).
Proof. repeat split; vm_compute; reflexivity. Qed.

(** C3: for a parameter with arity fixed(N) that takes values, when at
    least N tokens follow the flag the consumer takes exactly the next N
    tokens, whatever they look like, moves the index by N and hands those N
    tokens to the validation of the values; a taken token that looks like
    a flag is then refused as "not a valid value", which is no failure of
    the arity. "needs N values" is raised when fewer than N tokens follow,
    and only then. *)
Theorem fixed_arity_takes_next_tokens (rt : Runtime) (param : _Parameter)
    (namespace : Namespace) (external_index : nat) (args : list string) (N : nat) :
  p_nargs param = AInt (Z.of_nat N) ->
  str_in (p_dest param) (Namespace_iter namespace) = false ->
  String.eqb (p_action param) "store_true" = false ->
  String.eqb (p_action param) "store_false" = false ->
  let following := drop (external_index + 1) args in
  (length following < N ->
     _store_action rt param namespace external_index args
     = raise_for param (NeedsValues (Z.of_nat N))) /\
  (N <= length following ->
     length (take N following) = N /\
     _store_action rt param namespace external_index args =
       (list_values ← _parse_list_loop rt param (VStr <$> take N following) [];
        namespace ← store_fixed param namespace list_values;
        Return (namespace, (external_index + N)%nat)) /\
     (forall tok rest, take N following = tok :: rest -> ~ candidate_value tok ->
        _store_action rt param namespace external_index args
        = raise_for param (NotValidValue (VStr tok)))).
Proof.
  intros Hn Hd Ht Hf following.
  rewrite (store_action_fixed rt param namespace external_index args _ Hn Hd Ht Hf).
  rewrite (parse_list_fixed rt param _ _ Hn), Nat2Z.id.
  fold following. rewrite length_fmap, length_take.
  split.
  - intros Hlt. destruct (Z.ltb_spec (Z.of_nat (N `min` length following)) (Z.of_nat N)); [done|lia].
  - intros Hle. destruct (Z.ltb_spec (Z.of_nat (N `min` length following)) (Z.of_nat N)); [lia|].
    split; [lia|]. split; [done|].
    intros tok rest -> Hc. simpl fmap.
    by rewrite parse_list_loop_flag.
Qed.

Lemma fixed_arity_takes_next_tokens_witness :
  p_nargs n_param = AInt (Z.of_nat 1) /\
  _store_action bare_runtime n_param ∅ 0 ["-n"; "-x"]
  = raise_for n_param (NotValidValue (VStr "-x")).
Proof.
  split; [reflexivity|].
  destruct (fixed_arity_takes_next_tokens bare_runtime n_param ∅ 0 ["-n"; "-x"] 1)
    as [_ H]; [reflexivity | vm_compute; reflexivity | reflexivity | reflexivity |].
  destruct H as (_ & _ & H); [simpl; lia|].
  apply (H "-x" []); [reflexivity|]. refute_candidate.
Defined.

(** C2 (as amended): for a parameter with arity fixed(N) that takes
    values (its action is neither [store_true] nor [store_false]), whether
    the caller gave [nargs] or not: when N is 1 the single coerced value is
    stored at [dest] as it is, and for every other N the list of the N
    coerced values is stored. *)
Theorem fixed_arity_stored_value (rt : Runtime) (param : _Parameter)
    (namespace namespace' : Namespace) (external_index external_index' : nat)
    (args : list string) (n : Z) :
  p_nargs param = AInt n ->
  String.eqb (p_action param) "store_true" = false ->
  String.eqb (p_action param) "store_false" = false ->
  _store_action rt param namespace external_index args
  = Return (namespace', external_index') ->
  exists list_values,
    Forall2 (fun tok v => call_type rt (p_type param) (VStr tok) = Return v)
      (take (Z.to_nat n) (drop (external_index + 1) args)) list_values /\
    length list_values = Z.to_nat n /\
    (n = 1%Z -> exists v, list_values = [v] /\ namespace' !! p_dest param = Some v) /\
    (n <> 1%Z -> namespace' !! p_dest param = Some (VList list_values)).
Proof.
  intros Hn Ht Hf H.
  destruct (str_in (p_dest param) (Namespace_iter namespace)) eqn:Hd.
  { unfold _store_action in H. by rewrite Hd in H. }
  rewrite (store_action_fixed rt param namespace external_index args _ Hn Hd Ht Hf) in H.
  apply bind_Return in H as (vs & Hp & H).
  apply bind_Return in H as (ns & Hst & [= <- <-]).
  rewrite (parse_list_fixed rt param _ _ Hn) in Hp.
  destruct (Z.ltb_spec (Z.of_nat (length (VStr <$> take (Z.to_nat n)
              (drop (external_index + 1) args)))) n) as [|Hge]; [done|].
  apply parse_list_loop_Return in Hp as (vs' & -> & HF). simpl in Hst.
  apply Forall2_fmap_l in HF.
  pose proof (Forall2_length _ _ _ HF) as Hlen.
  rewrite length_fmap in Hge.
  assert (length vs' = Z.to_nat n) as Hvs.
  { rewrite <- Hlen. rewrite length_take in *. lia. }
  exists vs'. split; [done|]. split; [done|]. split.
  - intros ->. destruct vs' as [|v [|v' vs']]; try done.
    exists v. split; [done|]. apply setattr_Return in Hst as [_ ->].
    by rewrite lookup_insert_eq.
  - intros Hne. unfold store_fixed in Hst.
    destruct vs' as [|v [|v' vs']];
      try (apply setattr_Return in Hst as [_ ->]; by rewrite lookup_insert_eq).
    simpl in Hvs. lia.
Qed.

Lemma fixed_arity_stored_value_witness :
  _store_action bare_runtime n_param ∅ 0 ["-n"; "5"]
  = Return (<["n" := VInt 5]> ∅, 1) /\
  exists v, call_type bare_runtime TInt (VStr "5") = Return v /\
            (<["n" := VInt 5]> (∅ : Namespace)) !! "n" = Some v.
Proof.
  assert (H : _store_action bare_runtime n_param ∅ 0 ["-n"; "5"]
              = Return (<["n" := VInt 5]> ∅, 1)) by (vm_compute; reflexivity).
  split; [exact H|].
  destruct (fixed_arity_stored_value bare_runtime n_param ∅
              (<["n" := VInt 5]> ∅) 0 1 ["-n"; "5"] 1 eq_refl eq_refl eq_refl H)
    as (vs & HF & _ & H1 & _).
  destruct (H1 eq_refl) as (v & -> & Hv).
  exists v. split; [|exact Hv].
  apply Forall2_cons_1 in HF as [Hc _]. exact Hc.
Defined.

(** ** The candidate-value test *)

(** C1: on the paths that use the candidate-value test a token counts as a
    value exactly when it parses as an integer or does not begin with a
    dash. For one-or-more and zero-or-more the tokens collected are the
    longest run of tokens after the flag that pass the test; for
    optional-one the token after the flag is consumed when it passes the
    test and [const] is taken otherwise; in the validation of the values a
    token that fails the test is refused as "not a valid value". With [-n]
    registered with [type=int] and arity fixed(1), given or left to the
    default, parsing [["-n", "-5"]] leaves the integer -5 at [n]. *)
Theorem candidate_value_test (rt : Runtime) :
  (forall tok, _is_value rt (VStr tok) = Return true <-> candidate_value tok) /\
  (forall tok, _is_value rt (VStr tok) = Return false <-> ~ candidate_value tok) /\
  (forall param namespace external_index args s,
     p_nargs param = AStr s -> String.eqb s "?" = false ->
     str_in (p_dest param) (Namespace_iter namespace) = false ->
     String.eqb (p_action param) "store_true" = false ->
     String.eqb (p_action param) "store_false" = false ->
     exists largs rest,
       drop (external_index + 1) args = largs ++ rest /\
       Forall candidate_value largs /\ no_value_follows rest /\
       _store_action rt param namespace external_index args =
       (list_values ← _parse_list rt param (VStr <$> largs);
        if String.eqb s "+" && (length list_values =? 0)%nat
        then raise_for param NeedAtLeastOne
        else store_collected param namespace list_values
               (external_index + length largs)%nat)) /\
  (forall param namespace external_index args,
     p_nargs param = AStr "?" ->
     str_in (p_dest param) (Namespace_iter namespace) = false ->
     String.eqb (p_action param) "store_true" = false ->
     String.eqb (p_action param) "store_false" = false ->
     external_index < length args ->
     (forall a, drop (external_index + 1) args !! 0%nat = Some a -> candidate_value a ->
        _store_action rt param namespace external_index args =
        (list_values ← _parse_list rt param [VStr a];
         store_collected param namespace list_values (external_index + 1)%nat)) /\
     (no_value_follows (drop (external_index + 1) args) ->
        _store_action rt param namespace external_index args =
        (list_values ← _parse_list rt param [p_const param];
         store_collected param namespace list_values external_index))) /\
  (forall param tok slist list_values,
     ~ candidate_value tok ->
     _parse_list_loop rt param (VStr tok :: slist) list_values
     = raise_for param (NotValidValue (VStr tok))) /\
  result_attr (self ← parser_n rt; parse_params rt self ["-n"; "-5"] None) "n"
  = Return (Some (VInt (-5))) /\
  result_attr (self ← parser_n_default rt;
               parse_params rt self ["-n"; "-5"] None) "n"
  = Return (Some (VInt (-5))).
Proof.
  split; [apply is_value_candidate|].
  split; [apply is_value_not_candidate|].
  split.
  { intros param namespace external_index args s Hn Hs Hd Ht Hf.
    destruct (collect_values_spec rt (drop (external_index + 1) args))
      as (largs & rest & E & Hsplit & Hall & Hrest).
    exists largs, rest. repeat split; try done.
    rewrite (store_action_collecting rt param namespace external_index args s)
      by done.
    by rewrite E. }
  split.
  { intros param namespace external_index args Hn Hd Ht Hf Hlt.
    rewrite (store_action_optional rt param namespace external_index args)
      by done.
    replace (args !! (external_index + 1)%nat)
      with (drop (external_index + 1) args !! 0%nat)
      by (by rewrite lookup_drop, Nat.add_0_r).
    split.
    - intros a Ha Hc. rewrite Ha.
      apply (is_value_candidate rt) in Hc. by rewrite Hc.
    - unfold no_value_follows.
      destruct (drop (external_index + 1) args) as [|a l]; simpl; [done|].
      intros Hc. apply (is_value_not_candidate rt) in Hc. by rewrite Hc. }
  split; [intros; by apply parse_list_loop_flag|].
  split; vm_compute; reflexivity.
Qed.

Lemma candidate_value_test_witness :
  candidate_value "-5" /\ ~ candidate_value "-x" /\
  _is_value bare_runtime (VStr "-5") = Return true /\
  _is_value bare_runtime (VStr "-x") = Return false.
Proof.
  assert (H5 : candidate_value "-5") by (left; vm_compute; eauto).
  assert (Hx : ~ candidate_value "-x") by refute_candidate.
  destruct (candidate_value_test bare_runtime) as (Ht & Hf & _).
  split; [exact H5|]. split; [exact Hx|].
  split; [apply Ht; exact H5 | apply Hf; exact Hx].
Defined.

(** ** The constraint graphs *)

Lemma except_Return {A} (m : outcome A) a :
  except_ParameterError m = Return a -> m = Return a.
Proof. destruct m as [?|[]|]; simpl; done. Qed.

Lemma str_in_elem x l : str_in x l = true <-> x ∈ l.
Proof.
  unfold str_in. induction l as [|y l IH]; simpl.
  - split; [done | by intros ?%elem_of_nil].
  - rewrite orb_true_iff, IH, String.eqb_eq, elem_of_cons. done.
Qed.

Lemma str_in_not_elem x l : str_in x l = false <-> x ∉ l.
Proof.
  rewrite <- str_in_elem. destruct (str_in x l); split; try done; congruence.
Qed.

Lemma own_set_own m self d : own_restrictions m (set_own_restrictions m self d) = d.
Proof. by destruct m. Qed.

Lemma other_set_own m self d :
  other_restrictions m (set_own_restrictions m self d) = other_restrictions m self.
Proof. by destruct m. Qed.

Lemma parameters_set_own m self d :
  parameters (set_own_restrictions m self d) = parameters self.
Proof. by destruct m. Qed.

Lemma valid_parameter_set_own m self d t x :
  _valid_parameter (set_own_restrictions m self d) t x = _valid_parameter self t x.
Proof. unfold _valid_parameter. by rewrite parameters_set_own. Qed.

Lemma own_opposite m self : own_restrictions (opposite m) self = other_restrictions m self.
Proof. by destruct m. Qed.


(** A call with one key and one target, step by step. *)
Lemma restriction_pair m self a b :
  restriction_params m self [VStr a; VStr b] =
  match _valid_parameter self "short" (str_replace1 "-" "" b) with
  | None => _error None (NotExists m (str_replace1 "-" "" b))
  | Some _ =>
      match _valid_parameter self "short" (str_replace1 "-" "" a) with
      | None => _error None (NotExists m (str_replace1 "-" "" a))
      | Some _ =>
          if String.eqb a b then _error None (RestrictionToItself m a)
          else if str_in b (default [] (other_restrictions m self !! a))
          then _error None (DependencyAndIncompatibility m a b)
          else Return (set_own_restrictions m self
                         (declared (own_restrictions m self) a b))
      end
  end.
Proof.
  unfold restriction_params, declared. simpl.
  destruct (_valid_parameter self "short" (str_replace1 "-" "" b)); [|done]. simpl.
  destruct (_valid_parameter self "short" (str_replace1 "-" "" a)); [|done].
  rewrite orb_false_r. destruct (String.eqb a b); [done|].
  destruct (other_restrictions m self !! a) as [l|]; simpl.
  - destruct (str_in b l); [done|].
    by destruct (own_restrictions m self !! a).
  - by destruct (own_restrictions m self !! a).
Qed.

Lemma declared_lookup own a b :
  declared own a b !! a = Some (remove_dups (default [] (own !! a) ++ [b])).
Proof. unfold declared. by rewrite lookup_fmap, lookup_insert_eq. Qed.

Lemma declared_lookup_ne own a b k :
  k <> a -> declared own a b !! k = remove_dups <$> own !! k.
Proof. intros H. unfold declared. by rewrite lookup_fmap, lookup_insert_ne. Qed.

Lemma declared_target own a b l : declared own a b !! a = Some l -> b ∈ l.
Proof.
  rewrite declared_lookup. intros [= <-].
  apply elem_of_remove_dups, elem_of_app. right. by apply list_elem_of_singleton.
Qed.

Lemma occurrences_not_elem x l : x ∉ l -> occurrences x l = 0.
Proof.
  unfold occurrences. induction l as [|y l IH]; simpl; [done|].
  intros H. apply not_elem_of_cons in H as [Hne H].
  destruct (String.eqb_spec x y); [done|]. by apply IH.
Qed.

Lemma occurrences_NoDup x l : NoDup l -> x ∈ l -> occurrences x l = 1.
Proof.
  unfold occurrences. induction 1 as [|y l Hy Hl IH]; simpl.
  - by intros ?%elem_of_nil.
  - intros H. destruct (String.eqb_spec x y) as [->|Hne]; simpl.
    + f_equal. by apply occurrences_not_elem.
    + apply elem_of_cons in H as [H|H]; [done|]. by apply IH.
Qed.


Lemma restriction_declared_twice m (self self1 : ParameterParser) (a b : string) :
  restriction_params m self [VStr a; VStr b] = Return self1 ->
  exists self2,
    restriction_params m self1 [VStr a; VStr b] = Return self2 /\
    (exists l, own_restrictions m self2 !! a = Some l /\ occurrences b l = 1) /\
    (forall k,
       match own_restrictions m self1 !! k, own_restrictions m self2 !! k with
       | Some l1, Some l2 => NoDup l2 /\ l1 ≡ₚ l2
       | None, None => True
       | _, _ => False
       end) /\
    other_restrictions m self2 = other_restrictions m self1 /\
    parameters self2 = parameters self1.
Proof.
  rewrite !restriction_pair.
  destruct (_valid_parameter self "short" (str_replace1 "-" "" b)) eqn:Hb; [|done].
  destruct (_valid_parameter self "short" (str_replace1 "-" "" a)) eqn:Ha; [|done].
  destruct (String.eqb a b) eqn:Hab; [done|].
  destruct (str_in b _) eqn:Hc; [done|]. intros Hret.
  assert (self1 = set_own_restrictions m self (declared (own_restrictions m self) a b))
    as -> by congruence.
  clear Hret.
  rewrite !valid_parameter_set_own, Hb, Ha, other_set_own, Hc, own_set_own.
  eexists. split; [reflexivity|].
  rewrite !own_set_own, !other_set_own, !parameters_set_own.
  set (own := own_restrictions m self).
  assert (Hin : b ∈ remove_dups (default [] (own !! a) ++ [b])).
  { apply elem_of_remove_dups, elem_of_app. right. by apply list_elem_of_singleton. }
  split; [|split; [|done]].
  - eexists. split; [apply declared_lookup|].
    apply occurrences_NoDup; [apply NoDup_remove_dups|].
    apply elem_of_remove_dups, elem_of_app. right. by apply list_elem_of_singleton.
  - intros k. destruct (decide (k = a)) as [->|Hne].
    + rewrite (declared_lookup (declared own a b)), (declared_lookup own). simpl.
      split; [apply NoDup_remove_dups|].
      apply NoDup_Permutation; [apply NoDup_remove_dups | apply NoDup_remove_dups|].
      intros x.
      rewrite (elem_of_remove_dups (remove_dups _ ++ [b])), elem_of_app,
        list_elem_of_singleton.
      split; [auto|]. intros [H| ->]; [done | exact Hin].
    + rewrite (declared_lookup_ne (declared own a b)), (declared_lookup_ne own) by done.
      destruct (own !! k) as [l|]; simpl; [|done].
      split; [apply NoDup_remove_dups|].
      apply NoDup_Permutation; [apply NoDup_remove_dups | apply NoDup_remove_dups|].
      intros x. by rewrite !elem_of_remove_dups.
Qed.

(** C9: when [dependency_params(a, b)] has returned, the same call returns
    again; [b] then stands exactly once in the list of [a], and every key
    has the targets it had, each once. *)
Theorem dependency_declared_twice (self self1 : ParameterParser) (a b : string) :
  dependency_params self [VStr a; VStr b] = Return self1 ->
  exists self2,
    dependency_params self1 [VStr a; VStr b] = Return self2 /\
    (exists l, dependency_params_restrictions self2 !! a = Some l /\
               occurrences b l = 1) /\
    (forall k,
       match dependency_params_restrictions self1 !! k,
             dependency_params_restrictions self2 !! k with
       | Some l1, Some l2 => NoDup l2 /\ l1 ≡ₚ l2
       | None, None => True
       | _, _ => False
       end) /\
    incompatible_params_restrictions self2 = incompatible_params_restrictions self1 /\
    parameters self2 = parameters self1.
Proof. apply (restriction_declared_twice Dependency). Qed.

Lemma dependency_declared_twice_witness :
  dependency_params ab_parser [VStr "-a"; VStr "-b"] = Return ab_dependency /\
  exists self2,
    dependency_params ab_dependency [VStr "-a"; VStr "-b"] = Return self2 /\
    exists l, dependency_params_restrictions self2 !! "-a" = Some l /\
              occurrences "-b" l = 1.
Proof.
  assert (H : dependency_params ab_parser [VStr "-a"; VStr "-b"] = Return ab_dependency)
    by (vm_compute; reflexivity).
  split; [exact H|].
  destruct (dependency_declared_twice ab_parser ab_dependency "-a" "-b" H)
    as (self2 & H2 & Hl & _).
  exists self2. split; [exact H2 | exact Hl].
Defined.

(** ** The registry *)

Lemma existsb_dest_false dest (ps : list _Parameter) :
  existsb (fun param => String.eqb dest (p_dest param)) ps = false ->
  dest ∉ p_dest <$> ps.
Proof.
  induction ps as [|p ps IH]; simpl.
  - intros _. apply not_elem_of_nil.
  - intros [Hp Hps]%orb_false_iff. apply not_elem_of_cons. split; [|by apply IH].
    by apply String.eqb_neq.
Qed.

Lemma add_parameter_Return rt self short_command long_command kw self' :
  add_parameter rt self short_command long_command kw = Return self' ->
  exists p, parameters self' = parameters self ++ [p] /\
            p_dest p ∉ p_dest <$> parameters self.
Proof.
  unfold add_parameter. intros H%except_Return.
  apply bind_Return in H as (short & _ & H).
  apply bind_Return in H as (long & _ & H).
  destruct (existsb _ (parameters self)) eqn:Hd; [done|].
  apply bind_Return in H as (p & Hp & [= <-]).
  apply Parameter_init_Return in Hp as (_ & _ & Hdest & _).
  exists p. split; [done|]. rewrite Hdest. by apply existsb_dest_false.
Qed.

Lemma add_parameter_unique_dests rt self short_command long_command kw self' :
  NoDup (p_dest <$> parameters self) ->
  add_parameter rt self short_command long_command kw = Return self' ->
  NoDup (p_dest <$> parameters self').
Proof.
  intros Hnd (p & -> & Hp)%add_parameter_Return.
  rewrite fmap_app. apply NoDup_app. split; [done|]. split.
  - intros x Hx [->|[]%elem_of_nil]%elem_of_cons. done.
  - apply NoDup_singleton.
Qed.

Lemma init_unique_dests rt add_help_ version_ self :
  ParameterParser_init rt add_help_ version_ = Return self ->
  NoDup (p_dest <$> parameters self).
Proof.
  unfold ParameterParser_init. intros H.
  apply bind_Return in H as (self1 & H1 & H).
  assert (NoDup (p_dest <$> parameters self1)) as Hnd.
  { destruct add_help_.
    - eapply add_parameter_unique_dests; [|exact H1]. constructor.
    - injection H1 as <-. constructor. }
  destruct version_.
  - by eapply add_parameter_unique_dests.
  - by injection H as <-.
Qed.

(** ** The scan *)

Lemma parse_params_Return rt self args namespace0 namespace self' :
  parse_params rt self args namespace0 = Return (namespace, self') ->
  exists scanned names index,
    scan rt self args (default ∅ namespace0) = Return (scanned, names, index) /\
    (exists writes,
       complete_from (parameters self) scanned = Return (namespace, writes)) /\
    self' = set_user_name_parameters self names.
Proof.
  unfold parse_params. intros H%except_Return.
  apply bind_Return in H as ([[scanned names] index] & Hscan & H).
  destruct (negb _); [done|].
  apply bind_Return in H as (? & _ & H).
  apply bind_Return in H as (? & _ & H).
  apply bind_Return in H as (ns & Hc & [= <- <-]).
  unfold _complete_namespace in Hc.
  apply bind_Return in Hc as ([ns' writes] & Hc & [= <-]).
  exists scanned, names, index. split; [done|]. split; [|done]. by exists writes.
Qed.

Lemma built_unique_dests rt self :
  built rt self -> NoDup (p_dest <$> parameters self).
Proof.
  induction 1 as [h v self H|self sc lc kw self' _ IH H|m self args self' _ IH H
                 |self args ns ns' self' _ IH H].
  - by eapply init_unique_dests.
  - by eapply add_parameter_unique_dests.
  - unfold restriction_params in H. apply except_Return in H.
    destruct (_ <? _)%nat; [done|]. destruct (last args); [|done].
    apply bind_Return in H as (? & _ & H).
    apply bind_Return in H as (? & _ & [= <-]).
    by rewrite parameters_set_own.
  - apply parse_params_Return in H as (? & ? & ? & _ & _ & ->). done.
Qed.

(** ** [_complete_namespace] *)

Lemma contains_false (namespace : Namespace) k :
  Namespace_contains namespace k = false <-> namespace !! k = None.
Proof.
  unfold Namespace_contains. rewrite bool_decide_eq_false, <- eq_None_not_Some. done.
Qed.

Lemma contains_true (namespace : Namespace) k :
  Namespace_contains namespace k = true <-> is_Some (namespace !! k).
Proof. unfold Namespace_contains. by rewrite bool_decide_eq_true. Qed.

(** [setattr] is only called on an attribute that is absent, and with a
    key that is the [dest] of one of the parameters. *)
Lemma complete_from_writes ps (namespace namespace' : Namespace) writes k v :
  complete_from ps namespace = Return (namespace', writes) ->
  (k, v) ∈ writes ->
  namespace !! k = None /\ k ∈ p_dest <$> ps.
Proof.
  revert namespace writes. induction ps as [|p ps IH]; intros namespace writes; simpl.
  - intros [= _ <-]. by intros ?%elem_of_nil.
  - assert (complete_from ps namespace = Return (namespace', writes) ->
            (k, v) ∈ writes -> namespace !! k = None /\ k ∈ p_dest p :: (p_dest <$> ps))
      as Hskip.
    { intros Hc Hin. destruct (IH _ _ Hc Hin). split; [done|].
      apply elem_of_cons. by right. }
    destruct (p_default p) as [|d]; [done|].
    destruct (Namespace_contains namespace (p_dest p)) eqn:Hc; simpl; [done|].
    intros H. apply bind_Return in H as (ns1 & [_ ->]%setattr_Return & H).
    apply bind_Return in H as ([ns w] & E & [= <- <-]).
    intros [[= -> ->]|Hin]%elem_of_cons.
    + split; [by apply contains_false|]. apply elem_of_cons. by left.
    + destruct (IH _ _ E Hin) as [Hl Hk].
      split; [|apply elem_of_cons; by right].
      destruct (decide (p_dest p = k)) as [<-|Hne].
      * by rewrite lookup_insert_eq in Hl.
      * by rewrite lookup_insert_ne in Hl.
Qed.

Lemma write_count_zero k (writes : list (string * pyval)) :
  (forall v, (k, v) ∉ writes) -> write_count k writes = 0.
Proof.
  unfold write_count. induction writes as [|[k' v'] writes IH]; simpl; [done|].
  intros H. destruct (String.eqb_spec k' k) as [->|Hne].
  - exfalso. apply (H v'). by apply elem_of_cons; left.
  - apply IH. intros v Hv. apply (H v). by apply elem_of_cons; right.
Qed.

(** An attribute that is set keeps its value, and is not written. *)
Lemma complete_from_set ps (namespace namespace' : Namespace) writes k v :
  complete_from ps namespace = Return (namespace', writes) ->
  namespace !! k = Some v ->
  namespace' !! k = Some v /\ write_count k writes = 0.
Proof.
  intros Hc Hk. split.
  - revert namespace writes Hc Hk.
    induction ps as [|p ps IH]; intros namespace writes Hc Hk; simpl in Hc.
    + by injection Hc as <- _.
    + destruct (p_default p) as [|d]; [by eapply IH|].
      destruct (Namespace_contains namespace (p_dest p)) eqn:Hcon; simpl in Hc;
        [by eapply IH|].
      apply bind_Return in Hc as (ns1 & [_ ->]%setattr_Return & Hc).
      apply bind_Return in Hc as ([ns w] & E & [= <- <-]).
      eapply IH; [exact E|].
      apply contains_false in Hcon.
      rewrite lookup_insert_ne; [done|]. congruence.
  - apply write_count_zero. intros v' Hin.
    destruct (complete_from_writes _ _ _ _ _ _ Hc Hin). congruence.
Qed.

(** A parameter whose default is not [SUPPRESS] and whose [dest] is absent
    gets its default, by one call of [setattr]. *)
Lemma complete_from_default ps (namespace namespace' : Namespace) writes p d :
  complete_from ps namespace = Return (namespace', writes) ->
  NoDup (p_dest <$> ps) -> p ∈ ps -> p_default p = DVal d ->
  namespace !! p_dest p = None ->
  namespace' !! p_dest p = Some d /\ write_count (p_dest p) writes = 1.
Proof.
  revert namespace writes.
  induction ps as [|q ps IH]; intros namespace writes Hc Hnd Hin Hdef Hnone.
  - by apply elem_of_nil in Hin.
  - rewrite fmap_cons in Hnd. apply NoDup_cons in Hnd as [Hq Hnd].
    simpl in Hc. apply elem_of_cons in Hin as [->|Hin].
    + rewrite Hdef in Hc.
      apply contains_false in Hnone. rewrite Hnone in Hc. simpl in Hc.
      apply bind_Return in Hc as (ns1 & [_ ->]%setattr_Return & Hc).
      apply bind_Return in Hc as ([ns w] & E & [= <- <-]).
      destruct (complete_from_set ps _ _ _ (p_dest q) d E) as [H1 H2].
      { apply lookup_insert_eq. }
      split; [done|].
      unfold write_count in *. simpl. rewrite String.eqb_refl. simpl. by rewrite H2.
    + assert (p_dest q <> p_dest p) as Hne.
      { intros Heq. apply Hq. rewrite Heq. by apply list_elem_of_fmap_2. }
      destruct (p_default q) as [|dq]; [by eapply IH|].
      destruct (Namespace_contains namespace (p_dest q)) eqn:Hcon; simpl in Hc;
        [by eapply IH|].
      apply bind_Return in Hc as (ns1 & [_ ->]%setattr_Return & Hc).
      apply bind_Return in Hc as ([ns w] & E & [= <- <-]).
      destruct (IH _ _ E) as [H1 H2]; try done.
      { by rewrite lookup_insert_ne. }
      split; [done|].
      unfold write_count in *. simpl.
      destruct (String.eqb_spec (p_dest q) (p_dest p)); [done|]. done.
Qed.

Lemma complete_namespace_Return self (scanned namespace : Namespace) :
  _complete_namespace self scanned = Return namespace <->
  exists writes, complete_from (parameters self) scanned = Return (namespace, writes).
Proof.
  unfold _complete_namespace. split.
  - intros ([ns w] & E & [= <-])%bind_Return. by exists w.
  - intros [w ->]. done.
Qed.

(** The completion returns when every default it has to write goes to a
    name [setattr] can write. *)
Lemma complete_from_returns ps (namespace : Namespace) :
  (forall p d, p ∈ ps -> p_default p = DVal d -> namespace !! p_dest p = None ->
     assignable (p_dest p) = true) ->
  exists r, complete_from ps namespace = Return r.
Proof.
  revert namespace. induction ps as [|p ps IH]; intros namespace H; simpl.
  - by eexists.
  - assert (exists r, complete_from ps namespace = Return r) as Hskip.
    { apply IH. intros q d Hq. apply H, elem_of_cons. by right. }
    destruct (p_default p) as [|d] eqn:Hd; [done|].
    destruct (Namespace_contains namespace (p_dest p)) eqn:Hc; simpl; [done|].
    apply contains_false in Hc.
    rewrite setattr_assignable by (eapply H; [apply elem_of_cons; by left|done..]).
    cbn [mbind outcome_bind].
    destruct (IH (<[p_dest p := d]> namespace)) as [[ns w] ->].
    { intros q dq Hq Hdq Hnone. apply (H q dq); [apply elem_of_cons; by right|done|].
      destruct (decide (p_dest p = p_dest q)) as [E|E].
      - rewrite E, lookup_insert_eq in Hnone. done.
      - by rewrite lookup_insert_ne in Hnone. }
    by eexists.
Qed.

(** ** The scan always ends *)

Section ScanFacts.

Context (rt : Runtime).

Lemma store_collected_index param namespace list_values i namespace' i' :
  store_collected param namespace list_values i = Return (namespace', i') -> i' = i.
Proof.
  unfold store_collected. intros H.
  by apply bind_Return in H as (ns & _ & [= _ <-]).
Qed.

(** [_store_action] never moves the index backwards. *)
Lemma store_action_index param namespace i args namespace' i' :
  _store_action rt param namespace i args = Return (namespace', i') -> i <= i'.
Proof.
  intros H.
  destruct (str_in (p_dest param) (Namespace_iter namespace)) eqn:Hd.
  { unfold _store_action in H. by rewrite Hd in H. }
  destruct (String.eqb (p_action param) "store_true") eqn:Ht.
  { unfold _store_action in H. rewrite Hd, Ht in H.
    apply bind_Return in H as (? & _ & [= _ <-]). lia. }
  destruct (String.eqb (p_action param) "store_false") eqn:Hf.
  { unfold _store_action in H. rewrite Hd, Ht, Hf in H.
    apply bind_Return in H as (? & _ & [= _ <-]). lia. }
  destruct (p_nargs param) as [n|s] eqn:Hn.
  - rewrite (store_action_fixed rt param namespace i args n) in H by done.
    apply bind_Return in H as (? & _ & H).
    apply bind_Return in H as (? & _ & [= _ <-]). lia.
  - destruct (String.eqb s "?") eqn:Hs.
    + apply String.eqb_eq in Hs as ->.
      unfold _store_action in H. rewrite Hd, Ht, Hf, Hn in H.
      apply bind_Return in H as ([lv j] & Hj & H).
      assert (i <= j) as Hij.
      { change (String.eqb "?" "?") with true in Hj. cbv iota in Hj.
        destruct (negb _).
        - destruct (args !! (i + 1)%nat); [|done].
          apply bind_Return in Hj as ([|] & _ & Hj);
            apply bind_Return in Hj as (? & _ & [= _ <-]); lia.
        - apply bind_Return in Hj as (? & _ & [= _ <-]). lia. }
      fold (store_collected param namespace lv j) in H.
      apply store_collected_index in H. lia.
    + rewrite (store_action_collecting rt param namespace i args s) in H by done.
      apply bind_Return in H as (largs & _ & H).
      apply bind_Return in H as (lv & _ & H).
      destruct (_ && _); [done|]. apply store_collected_index in H. lia.
Qed.

Lemma do_action_index self param namespace i args namespace' i' :
  _do_action rt self param namespace i args = Return (namespace', i') -> i <= i'.
Proof.
  unfold _do_action. destruct (String.eqb _ "help"); [by intros ?%print_help_raises|].
  destruct (String.eqb _ "version"); [done|]. apply store_action_index.
Qed.

Lemma bundle_loop_index self args letters namespace names i namespace' names' i' :
  bundle_loop rt self args letters (namespace, names, i)
  = Return (namespace', names', i') -> i <= i'.
Proof.
  revert namespace names i. induction letters as [|p letters IH];
    intros namespace names i; simpl.
  - by intros [= _ _ <-].
  - destruct (_valid_parameter self "short" p); [|done].
    intros H. apply bind_Return in H as ([ns j] & Hj & H).
    apply do_action_index in Hj. apply IH in H. lia.
Qed.

(** Every turn of the main loop moves the index forward. *)
Lemma scan_step_index self args namespace names i namespace' names' i' :
  scan_step rt self args (namespace, names, i) = Return (namespace', names', i') ->
  i < i'.
Proof.
  unfold scan_step. destruct (args !! i) as [tok|]; [|done].
  intros H. apply bind_Return in H as ([[ns nm] j] & Hj & [= _ _ <-]).
  assert (i <= j); [|lia].
  destruct (re_match short_bundle_re tok).
  - by apply bundle_loop_index in Hj.
  - destruct (re_match long_command_re tok); [|done].
    destruct (_valid_parameter self "long" _); [|done].
    apply bind_Return in Hj as ([ns0 j0] & Hj0 & [= _ _ <-]).
    by apply do_action_index in Hj0.
Qed.

(** The main loop never runs out of turns: from [len(args) - index] on,
    more fuel changes nothing. *)
Lemma main_loop_fuel self args fuel1 fuel2 st :
  length args - st.2 <= fuel1 -> length args - st.2 <= fuel2 ->
  main_loop rt self args fuel1 st = main_loop rt self args fuel2 st.
Proof.
  revert fuel2 st. induction fuel1 as [|fuel1 IH]; intros fuel2 st H1 H2.
  - destruct fuel2 as [|fuel2]; [done|]. simpl.
    destruct (Nat.ltb_spec st.2 (length args)); [lia | done].
  - destruct fuel2 as [|fuel2]; simpl.
    + destruct (Nat.ltb_spec st.2 (length args)); [lia | done].
    + destruct (Nat.ltb_spec st.2 (length args)); [|done].
      destruct st as [[ns nm] i].
      destruct (scan_step rt self args (ns, nm, i)) as [[[ns' nm'] i']| |] eqn:E;
        [|done|done].
      apply scan_step_index in E. simpl in *. apply IH; simpl; lia.
Qed.

Lemma scan_fuel self args namespace fuel :
  length args <= fuel ->
  main_loop rt self args fuel (namespace, user_name_parameters self, 0)
  = scan rt self args namespace.
Proof. intros H. unfold scan. apply main_loop_fuel; simpl; lia. Qed.

End ScanFacts.

Section ScanWrites.

Context (rt : Runtime).

Lemma store_collected_insert param (namespace : Namespace) list_values i namespace' i' :
  store_collected param namespace list_values i = Return (namespace', i') ->
  exists v, namespace' = <[p_dest param := v]> namespace.
Proof.
  unfold store_collected. intros H.
  apply bind_Return in H as (ns & Hs & [= <- _]).
  destruct (p_default_nargs param); [destruct list_values; [done|]|];
    apply setattr_Return in Hs as [_ ->]; eauto.
Qed.

(** [_store_action] sets the attribute [dest] and touches no other. *)
Lemma store_action_insert param (namespace : Namespace) i args namespace' i' :
  _store_action rt param namespace i args = Return (namespace', i') ->
  exists v, namespace' = <[p_dest param := v]> namespace.
Proof.
  intros H.
  destruct (str_in (p_dest param) (Namespace_iter namespace)) eqn:Hd.
  { unfold _store_action in H. by rewrite Hd in H. }
  destruct (String.eqb (p_action param) "store_true") eqn:Ht.
  { unfold _store_action in H. rewrite Hd, Ht in H.
    apply bind_Return in H as (ns & [_ ->]%setattr_Return & [= <- _]). eauto. }
  destruct (String.eqb (p_action param) "store_false") eqn:Hf.
  { unfold _store_action in H. rewrite Hd, Ht, Hf in H.
    apply bind_Return in H as (ns & [_ ->]%setattr_Return & [= <- _]). eauto. }
  destruct (p_nargs param) as [n|s] eqn:Hn.
  - rewrite (store_action_fixed rt param namespace i args n) in H by done.
    apply bind_Return in H as (lv & _ & H).
    apply bind_Return in H as (ns & Hs & [= <- _]).
    unfold store_fixed in Hs.
    destruct lv as [|v [|v' lv]]; apply setattr_Return in Hs as [_ ->]; eauto.
  - destruct (String.eqb s "?") eqn:Hs.
    + apply String.eqb_eq in Hs as ->.
      unfold _store_action in H. rewrite Hd, Ht, Hf, Hn in H.
      apply bind_Return in H as ([lv j] & _ & H).
      fold (store_collected param namespace lv j) in H.
      by apply store_collected_insert in H.
    + rewrite (store_action_collecting rt param namespace i args s) in H by done.
      apply bind_Return in H as (largs & _ & H).
      apply bind_Return in H as (lv & _ & H).
      destruct (_ && _); [done|]. by apply store_collected_insert in H.
Qed.

Lemma do_action_keeps self param (namespace : Namespace) i args namespace' i' k :
  _do_action rt self param namespace i args = Return (namespace', i') ->
  is_Some (namespace !! k) -> is_Some (namespace' !! k).
Proof.
  unfold _do_action. destruct (String.eqb _ "help"); [by intros ?%print_help_raises|].
  destruct (String.eqb _ "version"); [done|].
  intros (v & ->)%store_action_insert Hk.
  destruct (decide (p_dest param = k)) as [<-|Hne].
  - rewrite lookup_insert_eq. eauto.
  - by rewrite lookup_insert_ne.
Qed.

Lemma bundle_loop_keeps self args letters (namespace : Namespace) names i
    namespace' names' i' k :
  bundle_loop rt self args letters (namespace, names, i)
  = Return (namespace', names', i') ->
  is_Some (namespace !! k) -> is_Some (namespace' !! k).
Proof.
  revert namespace names i. induction letters as [|p letters IH];
    intros namespace names i; simpl.
  - by intros [= <- _ _].
  - destruct (_valid_parameter self "short" p); [|done].
    intros H Hk. apply bind_Return in H as ([ns j] & Hj & H).
    eapply IH; [exact H|]. by eapply do_action_keeps.
Qed.

Lemma scan_step_keeps self args (namespace : Namespace) names i namespace' names' i' k :
  scan_step rt self args (namespace, names, i) = Return (namespace', names', i') ->
  is_Some (namespace !! k) -> is_Some (namespace' !! k).
Proof.
  unfold scan_step. destruct (args !! i) as [tok|]; [|done].
  intros H Hk. apply bind_Return in H as ([[ns nm] j] & Hj & [= <- _ _]).
  destruct (re_match short_bundle_re tok).
  - by eapply bundle_loop_keeps.
  - destruct (re_match long_command_re tok); [|done].
    destruct (_valid_parameter self "long" _); [|done].
    apply bind_Return in Hj as ([ns0 j0] & Hj0 & [= <- _ _]).
    by eapply do_action_keeps.
Qed.

(** The scan only sets attributes: what is set when it starts is set when
    it ends. *)
Lemma scan_keeps_attributes self args (namespace : Namespace) scanned names index k :
  scan rt self args namespace = Return (scanned, names, index) ->
  is_Some (namespace !! k) -> is_Some (scanned !! k).
Proof.
  unfold scan. generalize (length args) at 1. intros fuel.
  generalize (user_name_parameters self) as names0. generalize 0 as i.
  revert namespace. induction fuel as [|fuel IH]; intros namespace i names0; simpl.
  - destruct (i <? length args)%nat; [done|]. by intros [= <- _ _].
  - destruct (i <? length args)%nat; [|by intros [= <- _ _]].
    intros H Hk. apply bind_Return in H as ([[ns nm] j] & Hstep & H).
    eapply IH; [exact H|]. by eapply scan_step_keeps.
Qed.

End ScanWrites.

(** C2, counterexample: [add_parameter('-n', type=int, nargs=1)] gives the
    arity explicitly, and parsing [["-n", "5"]] stores the integer 5 at [n],
    not a list. A [store_true] flag has arity fixed(0) and stores [True],
    not a list either. *)
Lemma explicit_fixed_one_stores_scalar :
  _Parameter_init bare_runtime "n" None "n" (with_type_nargs TInt (Some (AInt 1)))
  = Return n_param /\
  p_default_nargs n_param = false /\ p_nargs n_param = AInt 1 /\
  result_attr (self ← parser_n bare_runtime;
               parse_params bare_runtime self ["-n"; "5"] None) "n"
  = Return (Some (VInt 5)) /\
  (forall l, VInt 5 <> VList l) /\
  (p ← _Parameter_init bare_runtime "a" None "a" store_true_flag;
   Return (p_nargs p)) = Return (AInt 0) /\
  result_attr (parse_params bare_runtime ab_parser ["-a"] None) "a"
  = Return (Some (VBool true)).
Proof. repeat split; try (vm_compute; reflexivity). done. Qed.

(** C4, counterexample: with [-o] registered as in the claim, parsing
    [["-o"]] leaves the list [[1]] at [o], and [[1] == 1] is false;
    parsing [["-o", "7"]] leaves [[7]]. *)
Lemma optional_one_stores_list :
  result_attr (self ← parser_o bare_runtime;
               parse_params bare_runtime self ["-o"] None) "o"
  = Return (Some (VList [VInt 1])) /\
  py_eq bare_runtime (VList [VInt 1]) (VInt 1) = false /\
  result_attr (self ← parser_o bare_runtime;
               parse_params bare_runtime self ["-o"; "7"] None) "o"
  = Return (Some (VList [VInt 7])) /\
  py_eq bare_runtime (VList [VInt 7]) (VInt 7) = false.
Proof. repeat split; vm_compute; reflexivity. Qed.

(** C4 (as amended): with [-o] registered with [nargs='?'], [default=10],
    [const=1] and [type=int], parsing [[]] leaves the integer 10 at [o],
    parsing [["-o"]] leaves the list [[1]], and parsing [["-o", "7"]] leaves
    the list [[7]]. *)
Theorem optional_one_example (rt : Runtime) :
  result_attr (self ← parser_o rt; parse_params rt self [] None) "o"
  = Return (Some (VInt 10)) /\
  result_attr (self ← parser_o rt; parse_params rt self ["-o"] None) "o"
  = Return (Some (VList [VInt 1])) /\
  result_attr (self ← parser_o rt; parse_params rt self ["-o"; "7"] None) "o"
  = Return (Some (VList [VInt 7])).
Proof. repeat split; vm_compute; reflexivity. Qed.

(** C8: the list of the names resolved is an attribute of the parser. It
    is created by [__init__] and [parse_params] only appends to it, so a
    second call on the same parser sees the names of the first. With
    [-a] and [-b] declared incompatible, parsing [["-b"]] returns on the
    parser as built, and ends in the incompatibility error after a parse of
    [["-a"]] on the same parser. *)
Theorem user_name_parameters_outlive_the_call :
  exists namespace1 self1,
    parse_params bare_runtime ab_incompatible ["-a"] None = Return (namespace1, self1) /\
    user_name_parameters ab_incompatible = [] /\
    user_name_parameters self1 = ["a"] /\
    result_attr (parse_params bare_runtime ab_incompatible ["-b"] None) "b"
    = Return (Some (VBool true)) /\
    parse_params bare_runtime self1 ["-b"] None
    = _error (Some "a") (IncompatibleParameters ["-b"]).
Proof.
  eexists _, _. split; [vm_compute; reflexivity|].
  repeat split; vm_compute; reflexivity.
Qed.

(** ** The long-flag grammar *)

(** A token that matches the bundle pattern has a letter after its dash. *)
Lemma short_bundle_second_char s :
  lang (RSeq short_bundle_re (ROpt (RChr newline))) s ->
  exists c rest, s = "-"%char :: c :: rest /\ is_letter c = true.
Proof.
  assert (H : forall s', lang short_bundle_re s' ->
            exists c rest, s' = "-"%char :: c :: rest /\ is_letter c = true).
  { intros s' Hs. unfold short_bundle_re, RPlus, dash in Hs.
    apply lang_seq_inv in Hs as (d & r & -> & Hd & Hr).
    apply lang_seq_inv in Hr as (c & ls & -> & Hc & _).
    apply lang_chr in Hd as ->.
    apply lang_class_inv in Hc as (c' & -> & Hc). by exists c', ls. }
  intros [Hs|(s' & -> & Hs)]%lang_dollar.
  - by apply H.
  - apply H in Hs as (c & rest & -> & Hc). by exists c, (rest ++ [newline]).
Qed.

(** No token matches both the bundle pattern and the long pattern. *)
Lemma long_is_no_bundle tok :
  re_match long_command_re tok = true -> re_match short_bundle_re tok = false.
Proof.
  intros Hl. destruct (re_match short_bundle_re tok) eqn:Hs; [|done].
  unfold re_match in *. apply re_full_lang in Hl, Hs.
  apply short_bundle_second_char in Hs as (c & rest & E & Hc).
  apply lang_dollar in Hl as [Hl|(s' & E' & Hl)];
    apply lang_long_command_re in Hl as (name & E'' & _).
  - rewrite E in E''. injection E'' as -> _. discriminate Hc.
  - rewrite E, E'' in E'. injection E' as -> _. discriminate Hc.
Qed.

(** C5, counterexample: [ab] has two characters, both letters, but the
    token [--ab] does not match the long pattern: registering it is refused
    and parsing it fails. *)
Lemma two_letter_long_name_rejected :
  claimed_long_name_ok "ab" = true /\
  re_match long_command_re "--ab" = false /\
  add_parameter bare_runtime help_parser (Some "-x") (Some "--ab") no_kwargs
  = _error None (NotValidLong "--ab") /\
  parse_params bare_runtime star_parser ["--ab"] None
  = _error None (NotValidFormat "--ab").
Proof. repeat split; vm_compute; reflexivity. Qed.

(** C5 (as amended): the long pattern accepts exactly the tokens made of
    two dashes and a name of at least three characters whose first two
    characters and last character are letters and whose other characters
    are letters or underscores (one newline may follow the name, which [$]
    lets pass). Registration refuses a long command with the message "is
    not valid as long command" exactly when the pattern fails; at parse
    time a token is looked up as a long name when the pattern matches, and
    a token that matches neither pattern is "not a valid parameter
    format". *)
Theorem long_flag_grammar :
  (forall tok,
     re_match long_command_re tok = true <->
     exists name, long_name_ok name = true /\
                  (tok = "--" +:+ name \/ tok = "--" +:+ name +:+ nl)) /\
  (forall self long_command,
     check_long_command self (Some long_command)
     = Raise (ParameterError None (NotValidLong long_command)) <->
     re_match long_command_re long_command = false) /\
  (forall rt self args namespace names index tok,
     args !! index = Some tok ->
     (re_match long_command_re tok = true ->
      scan_step rt self args (namespace, names, index)
      = long_flag_turn rt self args (namespace, names, index) tok) /\
     (re_match long_command_re tok = false ->
      re_match short_bundle_re tok = false ->
      scan_step rt self args (namespace, names, index)
      = Raise (ParameterError None (NotValidFormat tok)))).
Proof.
  split; [apply long_command_re_match|]. split.
  - intros self lc. unfold check_long_command.
    destruct (re_match long_command_re lc); [|done].
    destruct (existsb _ _); split; done.
  - intros rt self args namespace names index tok Htok. unfold scan_step.
    rewrite Htok. split.
    + intros Hl. rewrite (long_is_no_bundle tok Hl), Hl. unfold long_flag_turn.
      destruct (_valid_parameter self "long" _); [|done].
      by destruct (_do_action rt self _ namespace index args) as [[? ?]| |].
    + by intros -> ->.
Qed.

Lemma long_flag_grammar_witness :
  re_match long_command_re "--list" = true /\
  ["--list"] !! 0%nat = Some "--list" /\
  scan_step bare_runtime star_parser ["--list"] (∅, [], 0)
  = long_flag_turn bare_runtime star_parser ["--list"] (∅, [], 0) "--list".
Proof.
  assert (H : re_match long_command_re "--list" = true) by (vm_compute; reflexivity).
  split; [exact H|]. split; [reflexivity|].
  destruct long_flag_grammar as (_ & _ & Hparse).
  destruct (Hparse bare_runtime star_parser ["--list"] ∅ [] 0 "--list" eq_refl)
    as [Hlong _].
  exact (Hlong H).
Defined.

(** ** More on the registry *)

Lemma existsb_false_Forall {A} (f : A -> bool) l :
  existsb f l = false <-> Forall (fun x => f x = false) l.
Proof.
  induction l as [|x l IH]; simpl.
  - split; [constructor | done].
  - rewrite orb_false_iff, IH, Forall_cons. done.
Qed.

Lemma find_app_None {A} (f : A -> bool) l x :
  existsb f l = false -> List.find f (l ++ [x]) = if f x then Some x else None.
Proof.
  induction l as [|y l IH]; simpl; [done|].
  intros [-> H]%orb_false_iff. by apply IH.
Qed.

Lemma find_app_Some {A} (f : A -> bool) l l' y :
  List.find f l = Some y -> List.find f (l ++ l') = Some y.
Proof.
  induction l as [|x l IH]; simpl; [done|].
  destruct (f x); [done | apply IH].
Qed.

Lemma find_Some_elem {A} (f : A -> bool) l y :
  List.find f l = Some y -> y ∈ l /\ f y = true.
Proof.
  intros [H1 H2]%List.find_some. split; [by apply list_elem_of_In | done].
Qed.

(** What a registration that returned has done. *)
Lemma add_parameter_inv rt self short_command long_command kw self' :
  add_parameter rt self short_command long_command kw = Return self' ->
  exists sc short long p,
    short_command = Some sc /\ re_match short_command_re sc = true /\
    short = str_replace1 "-" "" sc /\
    existsb (fun param => String.eqb (p_name param) short) (parameters self) = false /\
    check_long_command self long_command = Return long /\
    existsb (fun param => String.eqb (p_dest p) (p_dest param)) (parameters self)
    = false /\
    p_dest p = match kw_dest kw with
               | Some d => d
               | None => match long with Some l => l | None => short end
               end /\
    _Parameter_init rt short long (p_dest p) kw = Return p /\
    self' = set_parameters self (parameters self ++ [p]).
Proof.
  unfold add_parameter. intros H%except_Return.
  apply bind_Return in H as (short & Hs & H).
  apply bind_Return in H as (long & Hl & H).
  destruct (existsb _ (parameters self)) eqn:Hd; [done|].
  apply bind_Return in H as (p & Hp & [= <-]).
  unfold check_short_command in Hs.
  destruct short_command as [sc|]; [|done].
  destruct (re_match short_command_re sc) eqn:Hre; [|done].
  destruct (existsb _ (parameters self)) eqn:Hn in Hs; [done|].
  injection Hs as <-.
  pose proof (Parameter_init_Return _ _ _ _ _ _ Hp) as (_ & _ & Hdest & _).
  exists sc, (str_replace1 "-" "" sc), long, p.
  rewrite Hdest. repeat split; done.
Qed.

Lemma check_long_command_Return self long_command long :
  check_long_command self long_command = Return long ->
  match long_command, long with
  | None, None => True
  | Some lc, Some l =>
      re_match long_command_re lc = true /\ l = str_replace1 "--" "" lc /\
      existsb (fun param => match p_long_name param with
                            | Some l' => String.eqb l' l
                            | None => false
                            end) (parameters self) = false
  | _, _ => False
  end.
Proof.
  unfold check_long_command. destruct long_command as [lc|].
  - destruct (re_match long_command_re lc); [|done].
    destruct (existsb _ _) eqn:E; [done|]. by intros [= <-].
  - by intros [= <-].
Qed.

(** X1: registering a parameter and looking it up. After [add_parameter]
    has returned, [_valid_parameter] finds the new parameter under its short
    name and, when it has one, under its long name; the parameters that
    were found before are found as before. *)
Theorem lookup_after_registration (rt : Runtime) (self self' : ParameterParser)
    (short_command long_command : option string) (kw : kwargs) :
  add_parameter rt self short_command long_command kw = Return self' ->
  exists p,
    parameters self' = parameters self ++ [p] /\
    (exists sc, short_command = Some sc /\ p_name p = str_replace1 "-" "" sc) /\
    _valid_parameter self' "short" (p_name p) = Some p /\
    (forall l, p_long_name p = Some l -> _valid_parameter self' "long" l = Some p) /\
    (forall t x q, _valid_parameter self t x = Some q ->
                   _valid_parameter self' t x = Some q).
Proof.
  intros (sc & short & long & p & -> & Hre & -> & Hn & Hl & Hd & _ & Hp & ->)
    %add_parameter_inv.
  apply Parameter_init_Return in Hp as (Hname & Hlong & _).
  exists p. split; [done|]. split.
  { by exists sc. }
  split.
  { unfold _valid_parameter. simpl. rewrite find_app_None.
    - by rewrite Hname, String.eqb_refl.
    - by rewrite <- Hname in Hn. }
  split.
  { intros l Hpl. unfold _valid_parameter. simpl.
    assert (long = Some l) as -> by congruence.
    apply check_long_command_Return in Hl.
    destruct long_command as [lc|]; simpl in Hl; [|done]. destruct Hl as (_ & _ & Hl).
    rewrite find_app_None; [|done]. by rewrite Hpl, String.eqb_refl. }
  intros t x q. unfold _valid_parameter. simpl.
  destruct (String.eqb t "short"); apply find_app_Some.
Qed.

Lemma lookup_after_registration_witness :
  exists p, parameters o_parser = parameters help_parser ++ [p] /\
            _valid_parameter o_parser "short" (p_name p) = Some p.
Proof.
  destruct (lookup_after_registration bare_runtime help_parser o_parser
              (Some "-o") None optional_one_kwargs) as (p & H1 & _ & H2 & _);
    [vm_compute; reflexivity|].
  exists p. split; [exact H1 | exact H2].
Defined.

Lemma existsb_name_false short (ps : list _Parameter) :
  existsb (fun param => String.eqb (p_name param) short) ps = false ->
  short ∉ p_name <$> ps.
Proof.
  induction ps as [|p ps IH]; simpl.
  - intros _. apply not_elem_of_nil.
  - intros [Hp Hps]%orb_false_iff. apply not_elem_of_cons. split; [|by apply IH].
    apply String.eqb_neq in Hp. congruence.
Qed.

Lemma existsb_long_false l (ps : list _Parameter) :
  existsb (fun param => match p_long_name param with
                        | Some l' => String.eqb l' l
                        | None => false
                        end) ps = false ->
  l ∉ omap p_long_name ps.
Proof.
  induction ps as [|p ps IH]; simpl.
  - intros _. apply not_elem_of_nil.
  - intros [Hp Hps]%orb_false_iff. destruct (p_long_name p) as [l'|]; [|by apply IH].
    apply not_elem_of_cons. split; [|by apply IH].
    apply String.eqb_neq in Hp. congruence.
Qed.

Lemma NoDup_snoc {A} (l : list A) x : NoDup l -> x ∉ l -> NoDup (l ++ [x]).
Proof.
  intros Hl Hx. apply NoDup_app. split; [done|]. split.
  - intros y Hy [->|[]%elem_of_nil]%elem_of_cons. done.
  - apply NoDup_singleton.
Qed.

Lemma add_parameter_registry_unique rt self short_command long_command kw self' :
  registry_unique self ->
  add_parameter rt self short_command long_command kw = Return self' ->
  registry_unique self'.
Proof.
  intros (Hn & Hl & Hd)
    (sc & short & long & p & -> & Hre & -> & Hname & Hlong & Hdest & _ & Hp & ->)
    %add_parameter_inv.
  apply Parameter_init_Return in Hp as (Hpn & Hpl & _).
  unfold registry_unique, long_names. simpl. rewrite !fmap_app, omap_app. simpl.
  split; [|split].
  - apply NoDup_snoc; [done|]. rewrite Hpn. by apply existsb_name_false.
  - rewrite Hpl. apply check_long_command_Return in Hlong.
    destruct long_command as [lc|], long as [l|]; simpl in *; try done.
    + destruct Hlong as (_ & _ & Hlong).
      apply NoDup_snoc; [done|]. by apply existsb_long_false.
    + by rewrite app_nil_r.
  - apply NoDup_snoc; [done|]. by apply existsb_dest_false.
Qed.

Lemma built_parameters_ind rt (P : list _Parameter -> Prop) :
  P [] ->
  (forall self short_command long_command kw self',
     P (parameters self) ->
     add_parameter rt self short_command long_command kw = Return self' ->
     P (parameters self')) ->
  forall self, built rt self -> P (parameters self).
Proof.
  intros Hnil Hadd self Hb.
  induction Hb as [h v self H|self sc lc kw self' _ IH H|m self args self' _ IH H
                  |self args ns ns' self' _ IH H].
  - unfold ParameterParser_init in H.
    apply bind_Return in H as (self1 & H1 & H).
    assert (P (parameters self1)) as H1'.
    { destruct h; [|by injection H1 as <-].
      eapply Hadd; [|exact H1]. exact Hnil. }
    destruct v; [by eapply Hadd | by injection H as <-].
  - by eapply Hadd.
  - unfold restriction_params in H. apply except_Return in H.
    destruct (_ <? _)%nat; [done|]. destruct (last args); [|done].
    apply bind_Return in H as (? & _ & H).
    apply bind_Return in H as (? & _ & [= <-]).
    by rewrite parameters_set_own.
  - apply parse_params_Return in H as (? & ? & ? & _ & _ & ->). done.
Qed.

(** X2: in every parser built through the public methods the short names
    are pairwise different, the long names are pairwise different, and the
    dests are pairwise different. *)
Theorem registry_names_unique (rt : Runtime) (self : ParameterParser) :
  built rt self ->
  NoDup (p_name <$> parameters self) /\ NoDup (long_names self) /\
  NoDup (p_dest <$> parameters self).
Proof.
  intros Hb. pattern (parameters self).
  eapply (built_parameters_ind rt (fun ps => NoDup (p_name <$> ps) /\
            NoDup (omap p_long_name ps) /\ NoDup (p_dest <$> ps))); [| |exact Hb].
  - repeat split; constructor.
  - intros s sc lc kw s' Hs Hadd.
    by apply (add_parameter_registry_unique rt s sc lc kw s').
Qed.

Lemma registry_names_unique_witness :
  built bare_runtime help_parser /\ NoDup (p_name <$> parameters help_parser).
Proof.
  assert (Hb : built bare_runtime help_parser).
  { apply (built_init bare_runtime true None). vm_compute. reflexivity. }
  split; [exact Hb|].
  exact (proj1 (registry_names_unique bare_runtime help_parser Hb)).
Defined.

Lemma existsb_true_elem {A} (f : A -> bool) l x :
  x ∈ l -> f x = true -> existsb f l = true.
Proof.
  intros Hx Hf. apply existsb_exists. exists x. split; [by apply list_elem_of_In | done].
Qed.

(** X3: a short flag, a long flag or a dest that is taken cannot be
    registered again. After [add_parameter] has returned, registering with
    the same short command ends in the error "duplicated as short command";
    with another short command that is accepted and the same long command,
    in "duplicate as long command"; and with accepted short and long
    commands that lead to the same dest, in "duplicate as dest". *)
Theorem duplicate_registration (rt : Runtime) (self self' : ParameterParser)
    (sc : string) (long_command : option string) (kw : kwargs) :
  add_parameter rt self (Some sc) long_command kw = Return self' ->
  (forall long_command' kw',
     add_parameter rt self' (Some sc) long_command' kw'
     = _error None (DuplicatedShort (str_replace1 "-" "" sc))) /\
  (forall short_command' short' lc kw',
     long_command = Some lc ->
     check_short_command self' short_command' = Return short' ->
     add_parameter rt self' short_command' (Some lc) kw'
     = _error None (DuplicateLong (str_replace1 "--" "" lc))) /\
  (forall short_command' long_command' short' long' kw' p,
     last (parameters self') = Some p ->
     check_short_command self' short_command' = Return short' ->
     check_long_command self' long_command' = Return long' ->
     match kw_dest kw' with
     | Some d => d
     | None => match long' with Some l => l | None => short' end
     end = p_dest p ->
     add_parameter rt self' short_command' long_command' kw'
     = _error None (DuplicateDest (p_dest p))).
Proof.
  intros (sc0 & short & long & p & [= <-] & Hre & -> & Hname & Hlong & Hdest & _ & Hp & ->)
    %add_parameter_inv.
  apply Parameter_init_Return in Hp as (Hpn & Hpl & _).
  assert (Hin : p ∈ parameters self ++ [p]).
  { apply elem_of_app. right. by apply list_elem_of_singleton. }
  split; [|split].
  - intros lc' kw'. unfold add_parameter, check_short_command. simpl.
    rewrite Hre.
    rewrite (existsb_true_elem _ _ p); [done | done |]. by rewrite Hpn, String.eqb_refl.
  - intros sc' short' lc kw' -> Hs. unfold add_parameter. rewrite Hs. simpl.
    apply check_long_command_Return in Hlong.
    destruct long as [l|]; [|done]. destruct Hlong as (Hrel & -> & _).
    rewrite Hrel.
    rewrite (existsb_true_elem _ _ p); [done | done |]. by rewrite Hpl, String.eqb_refl.
  - intros sc' lc' short' long' kw' q Hlast Hs Hl Hd. simpl in Hlast.
    rewrite last_snoc in Hlast. injection Hlast as <-.
    unfold add_parameter. rewrite Hs, Hl. simpl. rewrite Hd.
    rewrite (existsb_true_elem _ _ p); [done | done |]. by rewrite String.eqb_refl.
Qed.

Lemma duplicate_registration_witness :
  add_parameter bare_runtime help_parser (Some "-o") None optional_one_kwargs
  = Return o_parser /\
  add_parameter bare_runtime o_parser (Some "-o") (Some "--other") no_kwargs
  = _error None (DuplicatedShort "o").
Proof.
  assert (H : add_parameter bare_runtime help_parser (Some "-o") None
                optional_one_kwargs = Return o_parser) by (vm_compute; reflexivity).
  split; [exact H|].
  exact (proj1 (duplicate_registration bare_runtime help_parser o_parser "-o" None
                  optional_one_kwargs H) (Some "--other") no_kwargs).
Defined.

(** ** The fields of a registered parameter *)

Lemma Parameter_init_well_formed rt name long_name dest kw p :
  _Parameter_init rt name long_name dest kw = Return p -> well_formed p.
Proof.
  unfold _Parameter_init. intros H.
  destruct (valid_type _) eqn:Hty; cbn [negb] in H; [|done].
  destruct (str_in (kw_action kw) _) eqn:Hact; cbn [negb] in H; [|done].
  apply bind_Return in H as (default1 & Hdef & H).
  apply bind_Return in H as (const1 & Hconst & H).
  apply bind_Return in H as (choices1 & _ & H).
  assert (exists nargs0 dn,
            (nargs0, dn) = match kw_nargs kw with
                           | Some n => (n, false)
                           | None => (AInt 1, true)
                           end) as (nargs0 & dn & E) by (destruct (kw_nargs kw); eauto).
  rewrite <- E in H.
  apply bind_Return in H as (nargs1 & Hnargs & [= <-]).
  unfold well_formed. simpl. split; [done|]. split; [done|]. split.
  { by intros ->. }
  destruct (_ || _) eqn:Hflag.
  - injection Hnargs as <-. repeat split; try done.
  - assert (Hacc : match nargs0 with
                   | AInt n => (0 <=? n)%Z
                   | AStr s => str_in s ["+"; "*"; "?"]
                   end = true).
    { destruct (match nargs0 with AInt n => _ | AStr s => _ end); [done|]. done. }
    rewrite Hacc in Hnargs.
    assert (nargs1 = nargs0) as ->.
    { revert Hnargs. repeat case_match; congruence. }
    split.
    { destruct nargs0; [by apply Z.leb_le | done]. }
    split; [done|].
    intros ->. revert Hnargs. repeat case_match; try done; intros _; split; congruence.
Qed.

(** X4: every parameter of a parser built through the public methods has
    the fields [__init__] checks: a type of the closed set, one of the five
    actions, the section "Required" when it is required, an arity that is a
    non-negative count or one of [+], [*], [?], arity 0 when it is a boolean
    flag, and a default and a const that are not [None] when its arity is
    [?]. *)
Theorem registered_parameters_well_formed (rt : Runtime) (self : ParameterParser) :
  built rt self -> Forall well_formed (parameters self).
Proof.
  apply (built_parameters_ind rt (Forall well_formed)); [constructor|].
  intros s sc lc kw s' IH
    (? & ? & ? & p & _ & _ & _ & _ & _ & _ & _ & Hp & ->)%add_parameter_inv.
  simpl. apply Forall_app. split; [done|]. constructor; [|constructor].
  by eapply Parameter_init_well_formed.
Qed.

Lemma registered_parameters_well_formed_witness :
  built bare_runtime help_parser /\ Forall well_formed (parameters help_parser).
Proof.
  assert (Hb : built bare_runtime help_parser).
  { apply (built_init bare_runtime true None). vm_compute. reflexivity. }
  split; [exact Hb|].
  exact (registered_parameters_well_formed bare_runtime help_parser Hb).
Defined.

(** X5: the default of a boolean flag is what its type makes of [False]
    (for [store_true]) or of [True] (for [store_false]), whatever [default]
    the caller gave. The type is [str] when none is given, so the default
    of a [store_true] flag registered without a type is the string
    ["False"], and that of a [store_false] flag the string ["True"]. *)
Theorem flag_default_goes_through_type (rt : Runtime) (name : string)
    (long_name : option string) (dest : string) (kw : kwargs) (p : _Parameter) :
  _Parameter_init rt name long_name dest kw = Return p ->
  is_flag p ->
  p_type p = default TStr (kw_type kw) /\
  (exists v, p_default p = DVal v /\
     call_type rt (p_type p)
       (VBool (negb (String.eqb (p_action p) "store_true"))) = Return v) /\
  (kw_type kw = None ->
   p_default p = DVal (VStr (if String.eqb (p_action p) "store_true"
                             then "False" else "True"))).
Proof.
  unfold _Parameter_init, is_flag. intros H.
  destruct (valid_type _) eqn:Hty; cbn [negb] in H; [|done].
  destruct (str_in (kw_action kw) _) eqn:Hact; cbn [negb] in H; [|done].
  apply bind_Return in H as (default1 & Hdef & H).
  apply bind_Return in H as (const1 & _ & H).
  apply bind_Return in H as (choices1 & _ & H).
  destruct (kw_nargs kw);
    apply bind_Return in H as (nargs1 & _ & [= <-]); simpl; intros Hflag;
    (split; [done|]);
    (destruct (String.eqb (kw_action kw) "store_true") eqn:Ht;
     [apply String.eqb_eq in Ht; rewrite Ht in Hdef; simpl in Hdef
     |simpl in Hflag; rewrite Hflag in Hdef; simpl in Hdef]);
    apply bind_Return in Hdef as ([|] & Hc & Hdef); try done;
    apply bind_Return in Hdef as (v & Hv & [= <-]);
    (split; [by exists v|]); intros Hnone; rewrite Hnone in Hv;
    by injection Hv as <-.
Qed.

Lemma flag_default_goes_through_type_witness :
  exists p,
    _Parameter_init bare_runtime "a" None "a" store_true_flag = Return p /\
    p_default p = DVal (VStr "False").
Proof.
  eexists. split; [vm_compute; reflexivity|].
  refine (proj2 (proj2 (flag_default_goes_through_type bare_runtime "a" None "a"
                          store_true_flag _ _ _)) eq_refl);
    [vm_compute; reflexivity | reflexivity].
Defined.

(** ** The short-flag grammar *)

Lemma lang_short_command_re s :
  lang short_command_re s <-> exists c, s = ["-"%char; c] /\ is_letter c = true.
Proof.
  unfold short_command_re, dash. rewrite lang_seq_inv. split.
  - intros (d & r & -> & Hd & Hr). apply lang_chr in Hd as ->.
    apply lang_class_inv in Hr as (c & -> & Hc). by exists c.
  - intros (c & -> & Hc). exists ["-"%char], [c]. split; [done|].
    split; [by apply lang_chr | by constructor].
Qed.

Lemma lang_short_bundle_re s :
  lang short_bundle_re s <->
  exists letters, s = "-"%char :: letters /\ letters <> [] /\
                  Forall (fun c => is_letter c = true) letters.
Proof.
  unfold short_bundle_re, RPlus, dash. rewrite lang_seq_inv. split.
  - intros (d & r & -> & Hd & Hr). apply lang_chr in Hd as ->.
    apply lang_seq_inv in Hr as (c & ls & -> & Hc & Hls).
    apply lang_class_inv in Hc as (c' & -> & Hc). apply lang_star_class in Hls.
    exists (c' :: ls). split; [done|]. split; [done | by constructor].
  - intros (letters & -> & Hne & Hall). destruct letters as [|c ls]; [done|].
    apply Forall_cons in Hall as [Hc Hls].
    exists ["-"%char], (c :: ls). split; [done|]. split; [by apply lang_chr|].
    apply (lang_seq _ _ [c] ls); [by constructor | by apply lang_star_class].
Qed.

Lemma string_of_list_app l1 l2 :
  string_of_list_ascii (l1 ++ l2) = string_of_list_ascii l1 +:+ string_of_list_ascii l2.
Proof. induction l1 as [|c l1 IH]; simpl; [done | by rewrite IH]. Qed.

Lemma list_ascii_eq (s : string) l :
  list_ascii_of_string s = l <-> s = string_of_list_ascii l.
Proof.
  split.
  - intros <-. by rewrite string_of_list_ascii_of_string.
  - intros ->. by rewrite list_ascii_of_string_of_list_ascii.
Qed.

Lemma all_letters_Forall s :
  all_letters s = true <-> Forall (fun c => is_letter c = true) (list_ascii_of_string s).
Proof. apply forallb_Forall. Qed.

(** X6: the short patterns. The pattern of [add_parameter] accepts exactly
    a dash and one letter, and the pattern of [parse_params] exactly a dash
    and one or more letters; in both, one newline may follow, which [$] lets
    pass. [add_parameter] refuses a short command as "not valid as short
    command" exactly when it is absent or fails the pattern. *)
Theorem short_flag_grammar :
  (forall tok,
     re_match short_command_re tok = true <->
     exists c, is_letter c = true /\
               (tok = String "-" (String c "") \/ tok = String "-" (String c nl))) /\
  (forall tok,
     re_match short_bundle_re tok = true <->
     exists letters, letters <> "" /\ all_letters letters = true /\
                     (tok = "-" +:+ letters \/ tok = "-" +:+ letters +:+ nl)) /\
  (forall self short_command,
     check_short_command self short_command
     = Raise (ParameterError None (NotValidShort short_command)) <->
     match short_command with
     | Some sc => re_match short_command_re sc = false
     | None => True
     end).
Proof.
  split; [|split].
  - intros tok. unfold re_match. rewrite re_full_lang, lang_dollar. split.
    + intros [H|(s' & E & H)]; apply lang_short_command_re in H as (c & Es & Hc);
        exists c; (split; [done|]).
      * left. by apply list_ascii_eq in Es.
      * right. subst s'. by apply list_ascii_eq in E.
    + intros (c & Hc & [-> | ->]).
      * left. apply lang_short_command_re. by exists c.
      * right. exists ["-"%char; c]. split; [done|].
        apply lang_short_command_re. by exists c.
  - intros tok. unfold re_match. rewrite re_full_lang, lang_dollar. split.
    + intros [H|(s' & E & H)];
        apply lang_short_bundle_re in H as (letters & Es & Hne & Hall);
        exists (string_of_list_ascii letters);
        (split; [by destruct letters|]);
        (split; [apply all_letters_Forall;
                 by rewrite list_ascii_of_string_of_list_ascii|]).
      * left. by apply list_ascii_eq in Es.
      * right. subst s'. apply list_ascii_eq in E. rewrite E. simpl.
        by rewrite string_of_list_app.
    + intros (letters & Hne & Hall & Htok). apply all_letters_Forall in Hall.
      assert (list_ascii_of_string letters <> []) as Hne'.
      { by destruct letters. }
      destruct Htok as [-> | ->].
      * left. apply lang_short_bundle_re. by eexists.
      * right. exists ("-"%char :: list_ascii_of_string letters). split.
        -- change ("-" +:+ letters +:+ nl) with (String "-" (letters +:+ nl)).
           cbn [list_ascii_of_string]. by rewrite list_ascii_app.
        -- apply lang_short_bundle_re. by eexists.
  - intros self [sc|]; unfold check_short_command; [|done].
    destruct (re_match short_command_re sc); [|done].
    destruct (existsb _ _); split; done.
Qed.

(** ** More on the value consumer *)

(** What [for ns in namespace] yields: the visible names that are set. *)
Lemma Namespace_iter_spec (namespace : Namespace) x :
  str_in x (Namespace_iter namespace) = true <->
  visible x = true /\ is_Some (namespace !! x).
Proof.
  rewrite str_in_elem. unfold Namespace_iter.
  rewrite list_elem_of_In, List.filter_In, <- list_elem_of_In, list_elem_of_fmap.
  split.
  - intros [([k v] & -> & Hkv) Hvis]. split; [done|].
    apply elem_of_map_to_list in Hkv. eauto.
  - intros [Hvis [v Hv]]. split; [|done].
    exists (x, v). split; [done|]. by apply elem_of_map_to_list.
Qed.

Section MoreConsumerFacts.

Context (rt : Runtime).

Lemma store_action_repeated param (namespace : Namespace) i args :
  visible (p_dest param) = true -> is_Some (namespace !! p_dest param) ->
  _store_action rt param namespace i args = raise_for param PassedMoreThanOnce.
Proof.
  intros Hv Hs. unfold _store_action.
  by rewrite (proj2 (Namespace_iter_spec namespace (p_dest param)) (conj Hv Hs)).
Qed.

End MoreConsumerFacts.

(** X7: a dest is stored once per parse. When [_store_action] has stored
    the value of a parameter whose dest does not start with an underscore
    and is not [next], every later [_store_action] for a parameter with
    that dest, on a namespace where the dest is still set, ends in "passed
    more than one time". *)
Theorem dest_stored_once (rt : Runtime) (param param' : _Parameter)
    (namespace namespace1 namespace2 : Namespace) (i i1 i2 : nat)
    (args args2 : list string) :
  _store_action rt param namespace i args = Return (namespace1, i1) ->
  visible (p_dest param) = true ->
  p_dest param' = p_dest param ->
  (forall k, is_Some (namespace1 !! k) -> is_Some (namespace2 !! k)) ->
  _store_action rt param' namespace2 i2 args2 = raise_for param' PassedMoreThanOnce.
Proof.
  intros (v & ->)%store_action_insert Hv Hd Hext.
  apply store_action_repeated; rewrite Hd; [done|].
  apply Hext. rewrite lookup_insert_eq. eauto.
Qed.

Lemma dest_stored_once_witness :
  _store_action bare_runtime n_param ∅ 0 ["-n"; "5"; "-n"; "6"]
  = Return (<["n" := VInt 5]> ∅, 1) /\
  _store_action bare_runtime n_param (<["n" := VInt 5]> ∅) 2 ["-n"; "5"; "-n"; "6"]
  = raise_for n_param PassedMoreThanOnce.
Proof.
  assert (H : _store_action bare_runtime n_param ∅ 0 ["-n"; "5"; "-n"; "6"]
              = Return (<["n" := VInt 5]> ∅, 1)) by (vm_compute; reflexivity).
  split; [exact H|].
  apply (dest_stored_once bare_runtime n_param n_param ∅ _ _ 0 1 2 _ _ H);
    [reflexivity | reflexivity | auto].
Defined.

Lemma Namespace_iter_insert_ne (namespace : Namespace) x k v :
  x <> k -> str_in x (Namespace_iter namespace) = false ->
  str_in x (Namespace_iter (<[k := v]> namespace)) = false.
Proof.
  intros Hne H. destruct (str_in x (Namespace_iter (<[k:=v]> namespace))) eqn:E; [|done].
  apply Namespace_iter_spec in E as [Hv Hs]. rewrite lookup_insert_ne in Hs by done.
  rewrite (proj2 (Namespace_iter_spec namespace x) (conj Hv Hs)) in H. done.
Qed.

Lemma is_flag_cases p :
  is_flag p -> p_action p = "store_true" \/ p_action p = "store_false".
Proof.
  unfold is_flag. intros [H|H]%orb_true_iff; apply String.eqb_eq in H; auto.
Qed.

Section Bundles.

Context (rt : Runtime).

Lemma do_action_flag self p (namespace : Namespace) i args :
  is_flag p -> str_in (p_dest p) (Namespace_iter namespace) = false ->
  assignable (p_dest p) = true ->
  _do_action rt self p namespace i args
  = Return (<[p_dest p := VBool (String.eqb (p_action p) "store_true")]> namespace, i).
Proof.
  intros Hf Hd Ha. unfold _do_action, _store_action.
  destruct (is_flag_cases p Hf) as [-> | ->]; simpl; rewrite Hd;
    by rewrite setattr_assignable.
Qed.

Lemma bundle_loop_flags self args letters ps (namespace : Namespace) names index :
  Forall2 (fun l p => _valid_parameter self "short" l = Some p) letters ps ->
  Forall is_flag ps -> NoDup (p_dest <$> ps) ->
  Forall (fun p => str_in (p_dest p) (Namespace_iter namespace) = false) ps ->
  Forall (fun p => assignable (p_dest p) = true) ps ->
  bundle_loop rt self args letters (namespace, names, index)
  = Return (store_flags ps namespace, names ++ (p_name <$> ps), index).
Proof.
  intros HF. revert namespace names.
  induction HF as [|l p letters ps Hl _ IH];
    intros namespace names Hflag Hnd Hfree Hset.
  - simpl. by rewrite app_nil_r.
  - apply Forall_cons in Hflag as [Hp Hflag]. apply Forall_cons in Hfree as [Hd Hfree].
    apply Forall_cons in Hset as [Ha Hset].
    rewrite fmap_cons in Hnd. apply NoDup_cons in Hnd as [Hnin Hnd].
    simpl. rewrite Hl, (do_action_flag self p namespace index args Hp Hd Ha). simpl.
    rewrite IH; try done.
    + by rewrite <- app_assoc.
    + apply Forall_forall. intros q Hq. rewrite Forall_forall in Hfree.
      apply Namespace_iter_insert_ne; [|by apply Hfree].
      intros Heq. apply Hnin. rewrite <- Heq. by apply list_elem_of_fmap_2.
Qed.

End Bundles.

(** X8: a bundle of boolean flags. When the letters of a token that
    matches the bundle pattern resolve to boolean flags with pairwise
    different dests, none of them stored yet and each a name [setattr] can
    write, the turn of the main loop on that token stores [True] for every
    [store_true] flag and [False] for every [store_false] flag, appends
    their names to the resolved names in the order of the letters, and
    moves the index past that one token. *)
Theorem bundle_of_flags (rt : Runtime) (self : ParameterParser)
    (args : list string) (tok : string) (ps : list _Parameter)
    (namespace : Namespace) (names : list string) (index : nat) :
  args !! index = Some tok ->
  re_match short_bundle_re tok = true ->
  Forall2 (fun l p => _valid_parameter self "short" l = Some p)
    (str_chars (str_replace1 "-" "" tok)) ps ->
  Forall is_flag ps -> NoDup (p_dest <$> ps) ->
  Forall (fun p => str_in (p_dest p) (Namespace_iter namespace) = false) ps ->
  Forall (fun p => assignable (p_dest p) = true) ps ->
  scan_step rt self args (namespace, names, index)
  = Return (store_flags ps namespace, names ++ (p_name <$> ps), (index + 1)%nat).
Proof.
  intros Htok Hre HF Hflag Hnd Hfree Hset. unfold scan_step. rewrite Htok, Hre.
  by rewrite (bundle_loop_flags rt self args _ ps).
Qed.

Lemma bundle_of_flags_witness :
  exists a b,
    parameters ab_parser !! 1%nat = Some a /\ parameters ab_parser !! 2%nat = Some b /\
    scan_step bare_runtime ab_parser ["-ba"] (∅, [], 0)
    = Return (store_flags [b; a] ∅, ["b"; "a"], 1).
Proof.
  eexists _, _. split; [vm_compute; reflexivity|]. split; [vm_compute; reflexivity|].
  apply (bundle_of_flags bare_runtime ab_parser ["-ba"] "-ba").
  - reflexivity.
  - vm_compute. reflexivity.
  - repeat constructor; vm_compute; reflexivity.
  - repeat constructor; vm_compute; reflexivity.
  - vm_compute. apply NoDup_cons. split.
    + intros [H|H]%elem_of_cons; [discriminate | by apply elem_of_nil in H].
    + apply NoDup_singleton.
  - repeat constructor; vm_compute; reflexivity.
  - repeat constructor; vm_compute; reflexivity.
Defined.

Section Collection.

Context (rt : Runtime).

Lemma collect_values_run largs rest :
  Forall candidate_value largs -> no_value_follows rest ->
  collect_values rt (largs ++ rest) = Return largs.
Proof.
  intros Hall Hrest. induction Hall as [|a largs Ha _ IH]; simpl.
  - by apply collect_values_none.
  - apply (is_value_candidate rt) in Ha. by rewrite Ha, IH.
Qed.

Lemma check_type_Return t x v :
  call_type rt t x = Return v -> _check_type rt t x = Return true.
Proof. unfold _check_type. by intros ->. Qed.

(** The loop returns the coerced values when every token passes the test,
    is coerced by the type, and is among the choices. *)
Lemma parse_list_loop_coerced param toks vs acc :
  Forall candidate_value toks ->
  Forall2 (fun tok v => call_type rt (p_type param) (VStr tok) = Return v /\
                        _check_choices rt (p_choices param) v = true) toks vs ->
  _parse_list_loop rt param (VStr <$> toks) acc = Return (acc ++ vs).
Proof.
  intros Hc HF. revert acc Hc.
  induction HF as [|tok v toks vs [Hv Hch] _ IH]; intros acc Hc; simpl.
  - by rewrite app_nil_r.
  - apply Forall_cons in Hc as [Htok Hc].
    apply (is_value_candidate rt) in Htok. rewrite Htok. simpl.
    rewrite (check_type_Return _ _ _ Hv). simpl. rewrite Hv. simpl. rewrite Hch.
    rewrite IH by done. by rewrite <- app_assoc.
Qed.

End Collection.

(** X9: what one-or-more and zero-or-more store. For a registered
    parameter with arity [+] or [*] whose dest is not stored yet and is a
    name [setattr] can write: when the
    tokens after the flag start with a run of tokens that pass the
    candidate-value test, ended by the end of the input or by a token that
    fails it, and the type coerces every token of the run to a value among
    the choices, the list of those values, in the order of the tokens, is
    stored at dest and the index moves by the length of the run. For [+]
    the run must not be empty. *)
Theorem collected_values_stored (rt : Runtime) (name : string)
    (long_name : option string) (dest : string) (kw : kwargs) (param : _Parameter)
    (namespace : Namespace) (external_index : nat) (args largs rest : list string)
    (vs : list pyval) :
  _Parameter_init rt name long_name dest kw = Return param ->
  p_nargs param = AStr "+" \/ p_nargs param = AStr "*" ->
  str_in (p_dest param) (Namespace_iter namespace) = false ->
  assignable (p_dest param) = true ->
  drop (external_index + 1) args = largs ++ rest ->
  Forall candidate_value largs -> no_value_follows rest ->
  Forall2 (fun tok v => call_type rt (p_type param) (VStr tok) = Return v /\
                        _check_choices rt (p_choices param) v = true) largs vs ->
  (p_nargs param = AStr "+" -> largs <> []) ->
  _store_action rt param namespace external_index args
  = Return (<[p_dest param := VList vs]> namespace,
            (external_index + length largs)%nat).
Proof.
  intros Hinit Hn Hd Hset Hsplit Hc Hrest HF Hne.
  apply Parameter_init_Return in Hinit as (_ & _ & _ & Ha & Hdn & Hnargs).
  rewrite <- Ha in Hnargs.
  assert (exists s, p_nargs param = AStr s /\ String.eqb s "?" = false /\
                    (s = "+" -> largs <> [])) as (s & Hs & Hq & Hne').
  { destruct Hn as [Hn|Hn].
    - exists "+". split; [done|]. split; [done|]. intros _. by apply Hne.
    - exists "*". split; [done|]. split; [done|]. discriminate. }
  destruct (String.eqb (p_action param) "store_true") eqn:Ht;
    [simpl in Hnargs; congruence|].
  destruct (String.eqb (p_action param) "store_false") eqn:Hf;
    [simpl in Hnargs; congruence|].
  simpl in Hnargs. destruct Hnargs as [Hk _].
  assert (p_default_nargs param = false) as Hdn'.
  { rewrite Hdn. destruct (kw_nargs kw); [done|]. simpl in Hk. congruence. }
  rewrite (store_action_collecting rt param namespace external_index args s) by done.
  rewrite Hsplit, collect_values_run by done. simpl.
  rewrite (parse_list_str rt param s) by done.
  rewrite (parse_list_loop_coerced rt param largs vs []) by done. simpl.
  assert (length vs = length largs) as Hlen by (symmetry; by eapply Forall2_length).
  replace (String.eqb s "+" && (length vs =? 0)%nat) with false.
  - unfold store_collected. rewrite Hdn'. by rewrite setattr_assignable.
  - symmetry. apply andb_false_iff.
    destruct (String.eqb_spec s "+") as [->|]; [|by left]. right.
    apply Nat.eqb_neq. rewrite Hlen. specialize (Hne' eq_refl).
    by destruct largs.
Qed.

Lemma collected_values_stored_witness :
  _store_action bare_runtime star_param ∅ 0 ["-l"; "x"; "y"; "-z"]
  = Return (<["list" := VList [VStr "x"; VStr "y"]]> ∅, 2).
Proof.
  apply (collected_values_stored bare_runtime "l" (Some "list") "list"
           (with_type_nargs TStr (Some (AStr "*"))) star_param ∅ 0
           ["-l"; "x"; "y"; "-z"] ["x"; "y"] ["-z"]).
  - reflexivity.
  - right. reflexivity.
  - vm_compute. reflexivity.
  - reflexivity.
  - reflexivity.
  - repeat constructor; right; reflexivity.
  - refute_candidate.
  - repeat constructor.
  - discriminate.
Defined.

(** X10: one-or-more needs a value. For a registered parameter with arity
    [+] whose dest is not stored yet, when no token follows the flag or the
    token that follows fails the candidate-value test, the consumer ends in
    "need at least one value". *)
Theorem one_or_more_without_values (rt : Runtime) (name : string)
    (long_name : option string) (dest : string) (kw : kwargs) (param : _Parameter)
    (namespace : Namespace) (external_index : nat) (args : list string) :
  _Parameter_init rt name long_name dest kw = Return param ->
  p_nargs param = AStr "+" ->
  str_in (p_dest param) (Namespace_iter namespace) = false ->
  no_value_follows (drop (external_index + 1) args) ->
  _store_action rt param namespace external_index args
  = raise_for param NeedAtLeastOne.
Proof.
  intros Hinit Hn Hd Hnone.
  apply Parameter_init_Return in Hinit as (_ & _ & _ & Ha & _ & Hnargs).
  rewrite <- Ha in Hnargs.
  destruct (String.eqb (p_action param) "store_true") eqn:Ht;
    [simpl in Hnargs; congruence|].
  destruct (String.eqb (p_action param) "store_false") eqn:Hf;
    [simpl in Hnargs; congruence|].
  rewrite (store_action_collecting rt param namespace external_index args "+") by done.
  rewrite collect_values_none by done. simpl.
  by rewrite (parse_list_str rt param "+").
Qed.

Lemma one_or_more_without_values_witness :
  exists param,
    _Parameter_init bare_runtime "i" None "i" (with_type_nargs TInt (Some (AStr "+")))
    = Return param /\
    _store_action bare_runtime param ∅ 0 ["-i"; "-x"] = raise_for param NeedAtLeastOne.
Proof.
  eexists. split; [vm_compute; reflexivity|].
  apply (one_or_more_without_values bare_runtime "i" None "i"
           (with_type_nargs TInt (Some (AStr "+")))).
  - vm_compute. reflexivity.
  - reflexivity.
  - vm_compute. reflexivity.
  - refute_candidate.
Defined.

Lemma dash_is_no_value : ~ candidate_value "-".
Proof. refute_candidate. Qed.

Lemma candidate_is_no_dash tok : candidate_value tok -> String.eqb tok "-" = false.
Proof.
  intros H. destruct (String.eqb_spec tok "-") as [->|]; [|done].
  by apply dash_is_no_value in H.
Qed.

(** X11: a value of type [bool] is the truth of the token. For a
    parameter of type [bool] with arity fixed(1) and no choices whose dest
    is not stored yet and is a name [setattr] can write, a token after the
    flag that passes the
    candidate-value test is stored as [True] when it is not the empty string
    and as [False] when it is: the words "False" and "0" are stored as
    [True]. *)
Theorem bool_value_is_truth_of_token (rt : Runtime) (param : _Parameter)
    (namespace : Namespace) (external_index : nat) (args : list string)
    (tok : string) :
  p_type param = TBool -> p_nargs param = AInt 1 -> p_choices param = None ->
  String.eqb (p_action param) "store_true" = false ->
  String.eqb (p_action param) "store_false" = false ->
  str_in (p_dest param) (Namespace_iter namespace) = false ->
  assignable (p_dest param) = true ->
  args !! (external_index + 1)%nat = Some tok ->
  candidate_value tok ->
  _store_action rt param namespace external_index args
  = Return (<[p_dest param := VBool (negb (String.eqb tok ""))]> namespace,
            (external_index + 1)%nat).
Proof.
  intros Hty Hn Hch Ht Hf Hd Hset Htok Hc.
  rewrite (store_action_fixed rt param namespace external_index args 1) by done.
  assert (take (Z.to_nat 1) (drop (external_index + 1) args) = [tok]) as ->.
  { change (Z.to_nat 1) with 1%nat.
    rewrite <- (Nat.add_0_r (external_index + 1)), <- lookup_drop in Htok.
    destruct (drop (external_index + 1) args) as [|a l]; [done|].
    simpl in Htok. injection Htok as ->. by rewrite firstn_cons, take_0. }
  rewrite (parse_list_fixed rt param 1) by done. simpl.
  apply (is_value_candidate rt) in Hc. rewrite Hc. simpl.
  rewrite Hty, Hch. simpl. by rewrite setattr_assignable.
Qed.

Lemma bool_value_is_truth_of_token_witness :
  _Parameter_init bare_runtime "b" None "b" (with_type_nargs TBool (Some (AInt 1)))
  = Return (value_param "b" TBool (AInt 1)) /\
  _store_action bare_runtime (value_param "b" TBool (AInt 1)) ∅ 0 ["-b"; "False"]
  = Return (<["b" := VBool true]> ∅, 1).
Proof.
  split; [vm_compute; reflexivity|].
  apply (bool_value_is_truth_of_token bare_runtime (value_param "b" TBool (AInt 1))
           ∅ 0 ["-b"; "False"] "False"); try reflexivity.
  right. reflexivity.
Defined.

Lemma parse_list_loop_cons rt param value slist list_values :
  _parse_list_loop rt param (value :: slist) list_values =
  (is_value ← _is_value rt value;
   if is_value : bool then
     has_type ← _check_type rt (p_type param) value;
     if has_type : bool then
       value' ← call_type rt (p_type param) value;
       if _check_choices rt (p_choices param) value' then
         _parse_list_loop rt param slist (list_values ++ [value'])
       else raise_for param (NotInChoices value' (default [] (p_choices param)))
     else raise_for param (IsNotType value (p_type param))
   else raise_for param (NotValidValue value)).
Proof. reflexivity. Qed.

Lemma FileType_call_path rt mode bufsize tok :
  String.eqb tok "-" = false ->
  FileType_call rt mode bufsize (VStr tok) =
  if negb (str_in mode ["r"; "w"]) then
    Raise (ParameterError None (NotValidFileMode mode))
  else
    match rt_open rt tok mode
            (match bufsize with
             | Some z => if Z.eqb z 0 then None else Some z
             | None => None
             end) with
    | Raise IOError => Raise (ParameterError None (CannotOpen tok))
    | r => r
    end.
Proof. intros H. unfold FileType_call. cbn [py_eq]. by rewrite H. Qed.

(** X12: values of type [FileType]. In the validation of the values of a
    parameter whose type is a [FileType]: the token [-] is refused as "not
    a valid value", so the standard streams cannot be asked for by a token;
    a token that passes the candidate-value test ends in the error "not a
    valid mode for FileType" when the mode is neither [r] nor [w], and in
    the error "cannot open" when [open] raises [IOError]. Both errors carry
    no parameter name. *)
Theorem file_values (rt : Runtime) (param : _Parameter) (mode : string)
    (bufsize : option Z) (slist list_values : list pyval) :
  p_type param = TFileType mode bufsize ->
  _parse_list_loop rt param (VStr "-" :: slist) list_values
  = raise_for param (NotValidValue (VStr "-")) /\
  (forall tok,
     candidate_value tok -> str_in mode ["r"; "w"] = false ->
     _parse_list_loop rt param (VStr tok :: slist) list_values
     = Raise (ParameterError None (NotValidFileMode mode))) /\
  (forall tok,
     candidate_value tok -> str_in mode ["r"; "w"] = true ->
     rt_open rt tok mode
       (match bufsize with
        | Some z => if Z.eqb z 0 then None else Some z
        | None => None
        end) = Raise IOError ->
     _parse_list_loop rt param (VStr tok :: slist) list_values
     = Raise (ParameterError None (CannotOpen tok))).
Proof.
  intros Hty. split; [apply parse_list_loop_flag, dash_is_no_value|]. split.
  - intros tok Hc Hm. pose proof (candidate_is_no_dash tok Hc) as Hd.
    apply (is_value_candidate rt) in Hc.
    rewrite parse_list_loop_cons, Hc, Hty. cbn [mbind outcome_bind].
    unfold _check_type. cbn [call_type].
    by rewrite (FileType_call_path rt mode bufsize tok Hd), Hm.
  - intros tok Hc Hm Ho. pose proof (candidate_is_no_dash tok Hc) as Hd.
    apply (is_value_candidate rt) in Hc.
    rewrite parse_list_loop_cons, Hc, Hty. cbn [mbind outcome_bind].
    unfold _check_type. cbn [call_type].
    by rewrite (FileType_call_path rt mode bufsize tok Hd), Hm, Ho.
Qed.

Lemma file_values_witness :
  _Parameter_init bare_runtime "f" None "f"
    (with_type_nargs (TFileType "r" None) (Some (AInt 1)))
  = Return (value_param "f" (TFileType "r" None) (AInt 1)) /\
  _parse_list_loop bare_runtime (value_param "f" (TFileType "r" None) (AInt 1))
    [VStr "notes.txt"] []
  = Raise (ParameterError None (CannotOpen "notes.txt")).
Proof.
  split; [vm_compute; reflexivity|].
  refine (proj2 (proj2 (file_values bare_runtime
                          (value_param "f" (TFileType "r" None) (AInt 1))
                          "r" None [] [] eq_refl)) "notes.txt" _ eq_refl eq_refl).
  right. reflexivity.
Defined.

(** ** More on the scan *)

Section Cursor.

Context (rt : Runtime).

Lemma collect_values_length l largs :
  collect_values rt l = Return largs -> length largs <= length l.
Proof.
  revert largs. induction l as [|a l IH]; intros largs; simpl.
  - by intros [= <-].
  - destruct (_is_value rt (VStr a)) as [[|]| |]; simpl; try done.
    + intros H. apply bind_Return in H as (largs' & H' & [= <-]).
      apply IH in H'. simpl. lia.
    + intros [= <-]. simpl. lia.
Qed.

(** [_store_action] leaves the index on a token of the list. *)
Lemma store_action_in_range param (namespace : Namespace) i args namespace' i' :
  _store_action rt param namespace i args = Return (namespace', i') ->
  i < length args -> i' < length args.
Proof.
  intros H Hi.
  destruct (str_in (p_dest param) (Namespace_iter namespace)) eqn:Hd.
  { unfold _store_action in H. by rewrite Hd in H. }
  destruct (String.eqb (p_action param) "store_true") eqn:Ht.
  { unfold _store_action in H. rewrite Hd, Ht in H.
    by apply bind_Return in H as (? & _ & [= _ <-]). }
  destruct (String.eqb (p_action param) "store_false") eqn:Hf.
  { unfold _store_action in H. rewrite Hd, Ht, Hf in H.
    by apply bind_Return in H as (? & _ & [= _ <-]). }
  destruct (p_nargs param) as [n|s] eqn:Hn.
  - rewrite (store_action_fixed rt param namespace i args n) in H by done.
    apply bind_Return in H as (lv & Hp & H).
    apply bind_Return in H as (? & _ & [= _ <-]).
    rewrite (parse_list_fixed rt param n) in Hp by done.
    destruct (Z.ltb_spec (Z.of_nat (length (VStr <$> take (Z.to_nat n)
                (drop (i + 1) args)))) n) as [|Hge]; [done|].
    rewrite length_fmap, length_take, length_drop in Hge. lia.
  - destruct (String.eqb s "?") eqn:Hs.
    + apply String.eqb_eq in Hs as ->.
      rewrite (store_action_optional rt param namespace i args) in H by done.
      destruct (args !! (i + 1)%nat) as [a|] eqn:Ea.
      * apply lookup_lt_Some in Ea.
        apply bind_Return in H as ([|] & _ & H);
          apply bind_Return in H as (lv & _ & H);
          apply store_collected_index in H; lia.
      * apply bind_Return in H as (lv & _ & H).
        apply store_collected_index in H. lia.
    + rewrite (store_action_collecting rt param namespace i args s) in H by done.
      apply bind_Return in H as (largs & Hl & H).
      apply bind_Return in H as (lv & _ & H).
      destruct (_ && _); [done|]. apply store_collected_index in H.
      apply collect_values_length in Hl. rewrite length_drop in Hl. lia.
Qed.

Lemma do_action_in_range self param (namespace : Namespace) i args namespace' i' :
  _do_action rt self param namespace i args = Return (namespace', i') ->
  i < length args -> i' < length args.
Proof.
  unfold _do_action. destruct (String.eqb _ "help"); [by intros ?%print_help_raises|].
  destruct (String.eqb _ "version"); [done|]. apply store_action_in_range.
Qed.

Lemma bundle_loop_in_range self args letters (namespace : Namespace) names i
    namespace' names' i' :
  bundle_loop rt self args letters (namespace, names, i)
  = Return (namespace', names', i') ->
  i < length args -> i' < length args.
Proof.
  revert namespace names i. induction letters as [|p letters IH];
    intros namespace names i; simpl.
  - by intros [= _ _ <-].
  - destruct (_valid_parameter self "short" p); [|done].
    intros H Hi. apply bind_Return in H as ([ns j] & Hj & H).
    apply do_action_in_range in Hj; [|done]. by apply IH in H.
Qed.

Lemma scan_step_in_range self args (namespace : Namespace) names i
    namespace' names' i' :
  scan_step rt self args (namespace, names, i) = Return (namespace', names', i') ->
  i < i' <= length args.
Proof.
  intros H. split; [by eapply scan_step_index|].
  unfold scan_step in H. destruct (args !! i) as [tok|] eqn:Htok; [|done].
  apply lookup_lt_Some in Htok.
  apply bind_Return in H as ([[ns nm] j] & Hj & [= _ _ <-]).
  assert (j < length args); [|lia].
  destruct (re_match short_bundle_re tok).
  - by apply bundle_loop_in_range in Hj.
  - destruct (re_match long_command_re tok); [|done].
    destruct (_valid_parameter self "long" _); [|done].
    apply bind_Return in Hj as ([ns0 j0] & Hj0 & [= _ _ <-]).
    by apply do_action_in_range in Hj0.
Qed.

Lemma main_loop_end self args fuel st st' :
  main_loop rt self args fuel st = Return st' ->
  st.2 <= length args -> st'.2 = length args.
Proof.
  revert st. induction fuel as [|fuel IH]; intros [[ns nm] i]; simpl.
  - destruct (Nat.ltb_spec i (length args)); [done|]. intros [= <-] Hi. simpl in *. lia.
  - destruct (Nat.ltb_spec i (length args)).
    + intros Hm _. apply bind_Return in Hm as ([[ns1 nm1] i1] & Hs & Hm).
      apply scan_step_in_range in Hs. apply IH in Hm; [done|]. simpl. lia.
    + intros [= <-] Hi. simpl in *. lia.
Qed.

End Cursor.

(** X13: every token is read. A turn of the main loop that returns moves
    the index forward and never past the end of the token list, and a scan
    that returns ends with the index at the end of the list: each token was
    read as a flag or taken as a value of the flag before it. *)
Theorem scan_reads_every_token (rt : Runtime) (self : ParameterParser)
    (args : list string) :
  (forall namespace names index namespace' names' index',
     scan_step rt self args (namespace, names, index)
     = Return (namespace', names', index') ->
     index < index' <= length args) /\
  (forall namespace scanned names index,
     scan rt self args namespace = Return (scanned, names, index) ->
     index = length args).
Proof.
  split.
  - intros ns nm i ns' nm' i'. apply scan_step_in_range.
  - intros ns scanned names index H. unfold scan in H.
    apply main_loop_end in H; [done | simpl; lia].
Qed.

Lemma scan_reads_every_token_witness :
  scan bare_runtime star_parser ["-l"; "x"; "y"] ∅
  = Return (<["list" := VList [VStr "x"; VStr "y"]]> ∅, ["l"], 3) /\
  3 = length ["-l"; "x"; "y"].
Proof.
  assert (H : scan bare_runtime star_parser ["-l"; "x"; "y"] ∅
              = Return (<["list" := VList [VStr "x"; VStr "y"]]> ∅, ["l"], 3))
    by (vm_compute; reflexivity).
  split; [exact H|].
  exact (proj2 (scan_reads_every_token bare_runtime star_parser ["-l"; "x"; "y"])
           _ _ _ _ H).
Defined.

(** ** What a parse that returned has checked *)

(** The checks a parse that returned has passed. *)
Lemma parse_params_checks rt self args namespace0 namespace self' :
  parse_params rt self args namespace0 = Return (namespace, self') ->
  exists scanned names index,
    scan rt self args (default ∅ namespace0) = Return (scanned, names, index) /\
    _check_required_param self scanned = [] /\
    check_incompatible self' names
      (map_to_list (incompatible_params_restrictions self)) = Return () /\
    check_dependency self' names
      (map_to_list (dependency_params_restrictions self)) = Return () /\
    _complete_namespace self scanned = Return namespace /\
    self' = set_user_name_parameters self names.
Proof.
  unfold parse_params. intros H%except_Return.
  apply bind_Return in H as ([[scanned names] index] & Hscan & H).
  destruct (_check_required_param self scanned) as [|q l] eqn:Hreq; [|done].
  simpl in H.
  apply bind_Return in H as ([] & Hi & H).
  apply bind_Return in H as ([] & Hd & H).
  apply bind_Return in H as (ns & Hc & [= <- <-]).
  by exists scanned, names, index.
Qed.

Lemma check_incompatible_Return self names items :
  check_incompatible self names items = Return () ->
  Forall (fun item =>
            str_in (str_replace1 "-" "" item.1) names = true ->
            Forall (fun r => str_in (str_replace1 "-" "" r) names = false) item.2)
    items.
Proof.
  induction items as [|[k l] items IH]; simpl; [constructor|].
  destruct (str_in (str_replace1 "-" "" k) names) eqn:Hk; simpl.
  - destruct (List.filter _ l) as [|x xs] eqn:Hf; simpl.
    + intros H. apply Forall_cons. split; [|by apply IH]. intros _. simpl.
      apply Forall_forall. intros r Hr.
      destruct (str_in (str_replace1 "-" "" r) names) eqn:E; [|done].
      assert (List.In r (List.filter
                (fun i => str_in (str_replace1 "-" "" i) names) l)) as Hin.
      { apply List.filter_In. split; [by apply list_elem_of_In | done]. }
      by rewrite Hf in Hin.
    + by destruct (_valid_parameter self "short" _).
  - intros H. apply Forall_cons. split; [|by apply IH]. simpl. congruence.
Qed.

Lemma check_dependency_Return self names items :
  check_dependency self names items = Return () ->
  Forall (fun item =>
            str_in (str_replace1 "-" "" item.1) names = true ->
            Forall (fun r => str_in (str_replace1 "-" "" r) names = true) item.2)
    items.
Proof.
  induction items as [|[k l] items IH]; simpl; [constructor|].
  destruct (str_in (str_replace1 "-" "" k) names) eqn:Hk; simpl.
  - destruct (List.filter _ l) as [|x xs] eqn:Hf; simpl.
    + intros H. apply Forall_cons. split; [|by apply IH]. intros _. simpl.
      apply Forall_forall. intros r Hr.
      destruct (str_in (str_replace1 "-" "" r) names) eqn:E; [done|].
      assert (List.In r (List.filter
                (fun i => negb (str_in (str_replace1 "-" "" i) names)) l)) as Hin.
      { apply List.filter_In. split; [by apply list_elem_of_In | by rewrite E]. }
      by rewrite Hf in Hin.
    + by destruct (_valid_parameter self "short" _).
  - intros H. apply Forall_cons. split; [|by apply IH]. simpl. congruence.
Qed.



(** X15: after a parse that returned, the resolved names the parser holds
    satisfy both graphs: for every key of the incompatibility dictionary
    whose parameter is among the resolved names none of its targets is, and
    for every key of the dependency dictionary whose parameter is among the
    resolved names all of its targets are. *)
Theorem constraints_hold_after_parse (rt : Runtime) (self self' : ParameterParser)
    (args : list string) (namespace0 : option Namespace) (namespace : Namespace) :
  parse_params rt self args namespace0 = Return (namespace, self') ->
  (forall k l r,
     incompatible_params_restrictions self !! k = Some l ->
     str_replace1 "-" "" k ∈ user_name_parameters self' -> r ∈ l ->
     str_replace1 "-" "" r ∉ user_name_parameters self') /\
  (forall k l r,
     dependency_params_restrictions self !! k = Some l ->
     str_replace1 "-" "" k ∈ user_name_parameters self' -> r ∈ l ->
     str_replace1 "-" "" r ∈ user_name_parameters self').
Proof.
  intros (scanned & names & index & _ & _ & Hi & Hd & _ & ->)%parse_params_checks.
  simpl. split.
  - intros k l r Hk Hkn Hr. apply check_incompatible_Return in Hi.
    rewrite Forall_forall in Hi. apply elem_of_map_to_list in Hk.
    specialize (Hi (k, l) Hk (proj2 (str_in_elem _ _) Hkn)).
    rewrite Forall_forall in Hi. by apply str_in_not_elem, Hi.
  - intros k l r Hk Hkn Hr. apply check_dependency_Return in Hd.
    rewrite Forall_forall in Hd. apply elem_of_map_to_list in Hk.
    specialize (Hd (k, l) Hk (proj2 (str_in_elem _ _) Hkn)).
    rewrite Forall_forall in Hd. by apply str_in_elem, Hd.
Qed.

Lemma constraints_hold_after_parse_witness :
  "a" ∈ user_name_parameters
          (parsed (parse_params bare_runtime ab_dependency ["-ab"] None)).2 /\
  "b" ∈ user_name_parameters
          (parsed (parse_params bare_runtime ab_dependency ["-ab"] None)).2.
Proof.
  assert (H : parse_params bare_runtime ab_dependency ["-ab"] None
              = Return ((parsed (parse_params bare_runtime ab_dependency ["-ab"] None)).1,
                        (parsed (parse_params bare_runtime ab_dependency ["-ab"] None)).2))
    by (vm_compute; reflexivity).
  assert (Ha : "a" ∈ user_name_parameters
                 (parsed (parse_params bare_runtime ab_dependency ["-ab"] None)).2).
  { vm_compute. apply elem_of_cons. by left. }
  split; [exact Ha|].
  refine (proj2 (constraints_hold_after_parse bare_runtime ab_dependency _ ["-ab"]
                   None _ H) "-a" ["-b"] "-b" _ Ha _).
  - vm_compute. reflexivity.
  - apply elem_of_cons. by left.
Defined.

(** ** More on the constraint graphs *)

Lemma VStr_inj : Inj (=) (=) VStr.
Proof. by intros ? ? [= ->]. Qed.

Lemma keys_and_targets_inj args keys R keys' R' :
  keys_and_targets args keys R -> keys_and_targets args keys' R' ->
  keys = keys' /\ R = R'.
Proof.
  pose proof VStr_inj.
  intros [->|(r & -> & ->)] [H'|(r' & -> & H')].
  - apply app_inj_tail in H' as [H1 [= H2]].
    split; by eapply (inj (fmap VStr)).
  - by apply app_inj_tail in H' as [_ [=]].
  - by apply app_inj_tail in H' as [_ [=]].
  - apply app_inj_tail in H' as [H1 [= ->]].
    split; [by eapply (inj (fmap VStr)) | done].
Qed.

Lemma registered_valid self r :
  registered self r <->
  exists p, _valid_parameter self "short" (str_replace1 "-" "" r) = Some p.
Proof. done. Qed.

Lemma check_restriction_list_Return m self l R :
  check_restriction_list m self l = Return R ->
  l = VStr <$> R /\ Forall (registered self) R.
Proof.
  revert R. induction l as [|v l IH]; intros R; simpl.
  - by intros [= <-].
  - destruct v as [| | |r| | |]; try done.
    destruct (_valid_parameter self "short" (str_replace1 "-" "" r)) eqn:Hr; [|done].
    intros (rest & [-> Hrest]%IH & [= <-])%bind_Return.
    split; [done|]. constructor; [|done]. unfold registered. by rewrite Hr.
Qed.

Lemma check_restriction_list_registered m self R :
  Forall (registered self) R ->
  check_restriction_list m self (VStr <$> R) = Return R.
Proof.
  induction 1 as [|r R [p Hr] _ IH]; [done|].
  rewrite fmap_cons. cbn [check_restriction_list]. by rewrite Hr, IH.
Qed.

Lemma no_conflict_find (other : gmap string (list string)) p R :
  match other !! p with
  | Some l => List.find (fun r => str_in r l) R
  | None => None
  end = None <->
  forall l r, other !! p = Some l -> r ∈ R -> r ∉ l.
Proof.
  destruct (other !! p) as [l|]; [|by split].
  split.
  - intros Hf l' r [= <-] Hr. apply str_in_not_elem.
    apply list_elem_of_In in Hr.
    by apply (List.find_none _ _ Hf) in Hr.
  - intros H. destruct (List.find _ R) as [r|] eqn:Hf; [|done].
    apply find_Some_elem in Hf as [Hr Hin].
    apply str_in_elem in Hin. by destruct (H l r eq_refl Hr).
Qed.

Section RestrictionLoop.

Context (m : restriction_method) (self : ParameterParser) (R : list string).

(** What the loop over the keys has checked and written when it ends. *)
Lemma restriction_loop_Return ps own aliased own' :
  restriction_loop m self R ps own aliased = Return own' ->
  exists keys, ps = VStr <$> keys /\ Forall (key_accepted m self R) keys /\
    forall k,
      (k ∈ keys -> exists l, own' !! k = Some l /\
         forall x, x ∈ l <-> x ∈ default [] (own !! k) \/ x ∈ R) /\
      (k ∉ keys -> own' !! k = own !! k).
Proof.
  revert own aliased. induction ps as [|v ps IH]; intros own aliased.
  - intros [= <-]. exists []. split; [done|]. split; [constructor|].
    intros k. split; [by intros ?%elem_of_nil | done].
  - cbn [restriction_loop]. destruct v as [| | |p| | |]; try done.
    destruct (_valid_parameter self "short" (str_replace1 "-" "" p)) eqn:Hp; [|done].
    destruct (str_in p R) eqn:HpR; [done|].
    destruct (match other_restrictions m self !! p with
              | Some l => List.find (fun r => str_in r l) R
              | None => None
              end) eqn:Hc; [done|].
    assert (key_accepted m self R p) as Hacc.
    { split; [unfold registered; by rewrite Hp|].
      split; [by apply str_in_not_elem | by apply no_conflict_find]. }
    assert (forall own1 aliased1 (l1 : list string),
              own1 !! p = Some l1 ->
              (forall x, x ∈ l1 <-> x ∈ default [] (own !! p) \/ x ∈ R) ->
              (forall k, k <> p -> own1 !! k = own !! k) ->
              restriction_loop m self R ps own1 aliased1 = Return own' ->
              exists keys, VStr p :: ps = VStr <$> keys /\
                Forall (key_accepted m self R) keys /\
                forall k,
                  (k ∈ keys -> exists l, own' !! k = Some l /\
                     forall x, x ∈ l <-> x ∈ default [] (own !! k) \/ x ∈ R) /\
                  (k ∉ keys -> own' !! k = own !! k)) as Hstep.
    { intros own1 aliased1 l1 Hl1 Hx Hne (keys & -> & Hk & Hown)%IH.
      exists (p :: keys). split; [done|]. split; [by constructor|].
      intros k. split.
      - intros Hin. destruct (decide (k ∈ keys)) as [Hk'|Hk'].
        + destruct (proj1 (Hown k) Hk') as (l & Hl & Hlx).
          exists l. split; [done|]. intros x. rewrite Hlx.
          destruct (decide (k = p)) as [->|Hkp].
          * rewrite Hl1. simpl. rewrite Hx. tauto.
          * by rewrite Hne.
        + apply elem_of_cons in Hin as [->|Hin]; [|done].
          exists l1. split; [|done]. by rewrite (proj2 (Hown p) Hk').
      - intros Hnin. apply not_elem_of_cons in Hnin as [Hkp Hnin].
        rewrite (proj2 (Hown k) Hnin). by apply Hne. }
    destruct (own !! p) as [l|] eqn:Hl.
    + destruct (str_in p aliased).
      * destruct R as [|r0 R0] eqn:HR; [|done].
        apply (Hstep own aliased l); [done| |done].
        intros x. simpl. rewrite elem_of_nil. tauto.
      * apply (Hstep (<[p := l ++ R]> own) aliased (l ++ R)).
        -- by rewrite lookup_insert_eq.
        -- intros x. by rewrite elem_of_app.
        -- intros k Hk. by rewrite lookup_insert_ne.
    + apply (Hstep (<[p := R]> own) (p :: aliased) R).
      * by rewrite lookup_insert_eq.
      * intros x. simpl. rewrite elem_of_nil. tauto.
      * intros k Hk. by rewrite lookup_insert_ne.
Qed.

(** With pairwise different keys that pass the checks the loop ends. *)
Lemma restriction_loop_accepted keys own aliased :
  NoDup keys -> Forall (key_accepted m self R) keys ->
  (forall k, k ∈ keys -> k ∉ aliased) ->
  exists own', restriction_loop m self R (VStr <$> keys) own aliased = Return own'.
Proof.
  revert own aliased. induction keys as [|p keys IH]; intros own aliased Hnd Hacc Hal.
  - by eexists.
  - apply NoDup_cons in Hnd as [Hp Hnd]. apply Forall_cons in Hacc as [Hk Hacc].
    destruct Hk as ([q Hq] & HpR & Hc).
    rewrite fmap_cons. cbn [restriction_loop]. rewrite Hq.
    apply str_in_not_elem in HpR. rewrite HpR.
    apply no_conflict_find in Hc. rewrite Hc.
    assert (str_in p aliased = false) as ->.
    { apply str_in_not_elem, Hal, elem_of_cons. by left. }
    destruct (own !! p).
    + apply IH; [done..|]. intros k Hin. apply Hal, elem_of_cons. by right.
    + apply IH; [done..|]. intros k Hin. apply not_elem_of_cons. split.
      * by intros ->.
      * apply Hal, elem_of_cons. by right.
Qed.

End RestrictionLoop.

(** What a restriction method that returned was called with, has checked
    and has written. *)
Lemma restriction_params_Return m self args self' :
  restriction_params m self args = Return self' ->
  exists keys R,
    keys_and_targets args keys R /\ keys <> [] /\
    Forall (registered self) R /\ Forall (key_accepted m self R) keys /\
    (forall k, k ∈ keys -> exists l,
       own_restrictions m self' !! k = Some l /\ NoDup l /\
       forall x, x ∈ l <-> x ∈ default [] (own_restrictions m self !! k) \/ x ∈ R) /\
    (forall k, k ∉ keys ->
       own_restrictions m self' !! k = remove_dups <$> own_restrictions m self !! k) /\
    other_restrictions m self' = other_restrictions m self /\
    parameters self' = parameters self /\
    user_name_parameters self' = user_name_parameters self.
Proof.
  unfold restriction_params. intros H%except_Return.
  destruct (length args <? 2)%nat eqn:Hlen; [done|].
  apply Nat.ltb_ge in Hlen.
  destruct (last args) as [restriction0|] eqn:Hlast; [|done].
  apply bind_Return in H as (R & HR & H).
  apply bind_Return in H as (own' & Hloop & [= <-]).
  apply restriction_loop_Return in Hloop as (keys & Hkeys & Hacc & Hown).
  assert (args = (VStr <$> keys) ++ [restriction0]) as Hargs.
  { rewrite <- Hkeys. destruct args as [|a args] using rev_ind; [done|].
    rewrite last_snoc in Hlast. injection Hlast as ->.
    by rewrite removelast_last. }
  assert (keys_and_targets args keys R /\ Forall (registered self) R) as [Hkt HRreg].
  { destruct restriction0 as [| | |s|l| |]; try done.
    - destruct (_valid_parameter self "short" (str_replace1 "-" "" s)) eqn:Hs; [|done].
      injection HR as <-. split; [right; by exists s|].
      constructor; [|constructor]. unfold registered. by rewrite Hs.
    - apply check_restriction_list_Return in HR as [-> HR]. split; [by left | done]. }
  exists keys, R. split; [done|]. split.
  { intros ->. rewrite Hargs in Hlen. simpl in Hlen. lia. }
  split; [done|]. split; [done|].
  rewrite own_set_own, other_set_own, parameters_set_own.
  split; [|split; [|split; [done|split; [done|]]]].
  - intros k (l & Hl & Hlx)%Hown. exists (remove_dups l).
    rewrite lookup_fmap, Hl. split; [done|]. split; [apply NoDup_remove_dups|].
    intros x. by rewrite elem_of_remove_dups.
  - intros k Hk%Hown. by rewrite lookup_fmap, Hk.
  - by destruct m.
Qed.

(** X16: when a restriction method has returned, every key of the call
    holds, each once, the targets it had and the targets of the call; the
    other keys hold what they held, each target once; the other dictionary,
    the registry and the resolved names are as they were. *)
Theorem restriction_adds_targets (m : restriction_method)
    (self self' : ParameterParser) (args : list pyval) (keys R : list string) :
  restriction_params m self args = Return self' ->
  keys_and_targets args keys R ->
  (forall k, k ∈ keys -> exists l,
     own_restrictions m self' !! k = Some l /\ NoDup l /\
     forall x, x ∈ l <-> x ∈ default [] (own_restrictions m self !! k) \/ x ∈ R) /\
  (forall k, k ∉ keys ->
     match own_restrictions m self !! k, own_restrictions m self' !! k with
     | Some l, Some l' => NoDup l' /\ forall x, x ∈ l' <-> x ∈ l
     | None, None => True
     | _, _ => False
     end) /\
  other_restrictions m self' = other_restrictions m self /\
  parameters self' = parameters self /\
  user_name_parameters self' = user_name_parameters self.
Proof.
  intros (keys' & R' & Hkt & _ & _ & _ & Hin & Hout & Ho & Hp & Hu)%restriction_params_Return
    Hkt'.
  destruct (keys_and_targets_inj _ _ _ _ _ Hkt Hkt') as [-> ->].
  split; [done|]. split; [|done].
  intros k Hk%Hout. rewrite Hk.
  destruct (own_restrictions m self !! k) as [l|]; simpl; [|done].
  split; [apply NoDup_remove_dups|]. intros x. by rewrite elem_of_remove_dups.
Qed.

Lemma restriction_adds_targets_witness :
  exists l, dependency_params_restrictions ab_dependency !! "-a" = Some l /\
    NoDup l /\ forall x, x ∈ l <-> x ∈ [] \/ x ∈ ["-b"].
Proof.
  assert (H : restriction_params Dependency ab_parser [VStr "-a"; VStr "-b"]
              = Return ab_dependency) by (vm_compute; reflexivity).
  assert (Hkt : keys_and_targets [VStr "-a"; VStr "-b"] ["-a"] ["-b"]).
  { right. by exists "-b". }
  refine (proj1 (restriction_adds_targets Dependency ab_parser ab_dependency
                   [VStr "-a"; VStr "-b"] ["-a"] ["-b"] H Hkt) "-a" _).
  apply elem_of_cons. by left.
Defined.

(** X17: a restriction method called with pairwise different keys returns
    exactly when there is at least one key, every target and every key is
    the short name of a registered parameter, no key is among the targets
    as written, and no key has one of the targets in the other
    dictionary. *)
Theorem restriction_accepted (m : restriction_method) (self : ParameterParser)
    (args : list pyval) (keys R : list string) :
  keys_and_targets args keys R -> NoDup keys ->
  (exists self', restriction_params m self args = Return self') <->
  keys <> [] /\ Forall (registered self) R /\ Forall (key_accepted m self R) keys.
Proof.
  intros Hkt Hnd. split.
  - intros [self' (keys' & R' & Hkt' & ? & ? & ? & _)%restriction_params_Return].
    by destruct (keys_and_targets_inj _ _ _ _ _ Hkt Hkt') as [-> ->].
  - intros (Hne & HR & Hacc).
    destruct (restriction_loop_accepted m self R keys (own_restrictions m self) []
                Hnd Hacc) as [own' Hown'].
    { intros k _. apply not_elem_of_nil. }
    assert (exists restriction0,
              args = (VStr <$> keys) ++ [restriction0] /\
              match restriction0 with
              | VStr s =>
                  match _valid_parameter self "short" (str_replace1 "-" "" s) with
                  | Some _ => Return [s]
                  | None => Raise (ParameterError None (NotExists m (str_replace1 "-" "" s)))
                  end
              | VList l => check_restriction_list m self l
              | _ => Raise (ParameterError None (MustBeStrOrList m))
              end = Return R) as (restriction0 & -> & Hr0).
    { destruct Hkt as [->|(r & -> & ->)].
      - eexists. split; [done|]. by apply check_restriction_list_registered.
      - eexists. split; [done|]. apply Forall_cons in HR as [[q Hq] _]. by rewrite Hq. }
    unfold restriction_params.
    assert ((length ((VStr <$> keys) ++ [restriction0]) <? 2)%nat = false) as ->.
    { apply Nat.ltb_ge. rewrite length_app, length_fmap. simpl.
      destruct keys; [done | simpl; lia]. }
    rewrite last_snoc, removelast_last, Hr0. cbn [mbind outcome_bind].
    rewrite Hown'. by eexists.
Qed.

Lemma restriction_accepted_witness :
  exists self', restriction_params Dependency ab_parser [VStr "-a"; VStr "-b"]
                = Return self'.
Proof.
  assert (Hkt : keys_and_targets [VStr "-a"; VStr "-b"] ["-a"] ["-b"]).
  { right. by exists "-b". }
  assert (Hnd : NoDup ["-a"]).
  { apply NoDup_cons. split; [apply not_elem_of_nil | apply NoDup_nil_2]. }
  apply (proj2 (restriction_accepted Dependency ab_parser [VStr "-a"; VStr "-b"]
                  ["-a"] ["-b"] Hkt Hnd)).
  split; [done|]. split.
  - apply Forall_cons. split; [|apply Forall_nil_2]. vm_compute. eauto.
  - apply Forall_cons. split; [|apply Forall_nil_2].
    split; [vm_compute; eauto|]. split.
    + intros [=]%list_elem_of_singleton.
    + intros l r Hl. vm_compute in Hl. discriminate.
Defined.

Lemma registered_parameters self self' r :
  parameters self' = parameters self -> registered self' r <-> registered self r.
Proof. unfold registered, _valid_parameter. by intros ->. Qed.

Lemma registered_add rt self short_command long_command kw self' r :
  add_parameter rt self short_command long_command kw = Return self' ->
  registered self r -> registered self' r.
Proof.
  intros (? & ? & ? & p & _ & _ & _ & _ & _ & _ & _ & _ & ->)%add_parameter_inv.
  unfold registered, _valid_parameter. simpl. intros [q Hq].
  exists q. by apply find_app_Some.
Qed.

(** The second half of [graphs_consistent], for either method. *)
Lemma graphs_disjoint m self :
  (forall k l1 l2 r,
     dependency_params_restrictions self !! k = Some l1 ->
     incompatible_params_restrictions self !! k = Some l2 ->
     r ∈ l1 -> r ∉ l2) <->
  (forall k l1 l2 r,
     own_restrictions m self !! k = Some l1 ->
     other_restrictions m self !! k = Some l2 ->
     r ∈ l1 -> r ∉ l2).
Proof.
  destruct m; simpl; [done|].
  split; intros H k l1 l2 r H1 H2 Hr Hr'; by apply (H k l2 l1 r).
Qed.

Lemma graphs_consistent_same self self' :
  parameters self' = parameters self ->
  dependency_params_restrictions self' = dependency_params_restrictions self ->
  incompatible_params_restrictions self' = incompatible_params_restrictions self ->
  graphs_consistent self -> graphs_consistent self'.
Proof.
  intros Hp Hd Hi [H1 H2]. split.
  - intros m k l Hl.
    assert (own_restrictions m self !! k = Some l) as Hl'.
    { destruct m; simpl in *; congruence. }
    destruct (H1 m k l Hl') as (? & ? & ? & ?).
    split; [by apply (registered_parameters self self')|].
    split; [|done]. eapply Forall_impl; [done|].
    intros x. by apply (registered_parameters self self').
  - rewrite Hd, Hi. exact H2.
Qed.

Lemma add_parameter_graphs rt self short_command long_command kw self' :
  add_parameter rt self short_command long_command kw = Return self' ->
  graphs_consistent self -> graphs_consistent self'.
Proof.
  intros Hadd [H1 H2].
  pose proof (fun r => registered_add _ _ _ _ _ _ r Hadd) as Hreg.
  apply add_parameter_inv in Hadd
    as (? & ? & ? & p & _ & _ & _ & _ & _ & _ & _ & _ & ->).
  split.
  - intros m k l Hl.
    assert (own_restrictions m self !! k = Some l) as Hl' by (by destruct m).
    destruct (H1 m k l Hl') as (? & ? & ? & ?).
    split; [by apply Hreg|]. split; [|done].
    eapply Forall_impl; [done|]. intros y. apply Hreg.
  - exact H2.
Qed.

Lemma restriction_graphs m self args self' :
  restriction_params m self args = Return self' ->
  graphs_consistent self -> graphs_consistent self'.
Proof.
  intros (keys & R & _ & _ & HR & Hacc & Hin & Hout & Ho & Hp & _)%restriction_params_Return
    [H1 H2].
  rewrite Forall_forall in Hacc. rewrite Forall_forall in HR.
  assert (forall k l, own_restrictions m self' !! k = Some l ->
            NoDup l /\
            forall x, x ∈ l ->
              (exists l0, own_restrictions m self !! k = Some l0 /\ x ∈ l0) \/
              (k ∈ keys /\ x ∈ R)) as Hnew.
  { intros k l Hl. destruct (decide (k ∈ keys)) as [Hk|Hk].
    - destruct (Hin k Hk) as (l' & Hl' & Hnd & Hx).
      assert (l' = l) as -> by congruence. split; [done|].
      intros x [Hx'|Hx']%Hx; [|by right].
      destruct (own_restrictions m self !! k) as [l0|]; [|by apply elem_of_nil in Hx'].
      left. exists l0. by split.
    - rewrite (Hout k Hk) in Hl.
      destruct (own_restrictions m self !! k) as [l0|]; [|done].
      injection Hl as <-. split; [apply NoDup_remove_dups|].
      intros x Hx. rewrite elem_of_remove_dups in Hx. left. exists l0. by split. }
  assert (forall k l, own_restrictions m self' !! k = Some l -> registered self k)
    as Hkey.
  { intros k l Hl. destruct (decide (k ∈ keys)) as [Hk|Hk].
    - by destruct (Hacc k Hk).
    - rewrite (Hout k Hk) in Hl.
      destruct (own_restrictions m self !! k) as [l0|] eqn:E; [|done].
      by destruct (H1 m k l0 E). }
  split.
  - intros m0 k l Hl.
    assert (registered self k /\ Forall (registered self) l /\ NoDup l /\ k ∉ l)
      as (Hk & Hl1 & Hl2 & Hl3).
    { assert (m0 = m \/ m0 <> m) as [->|Hm] by (destruct m0, m; auto).
      - destruct (Hnew k l Hl) as [Hnd Hx]. split; [by eapply Hkey|].
        split; [|split; [done|]].
        + apply Forall_forall. intros x [(l0 & Hl0 & Hx0)|[_ Hx0]]%Hx.
          * destruct (H1 m k l0 Hl0) as (_ & Hf & _).
            rewrite Forall_forall in Hf. by apply Hf.
          * by apply HR.
        + intros [(l0 & Hl0 & Hx0)|[Hk Hx0]]%Hx.
          * by destruct (H1 m k l0 Hl0) as (_ & _ & _ & ?).
          * by destruct (Hacc k Hk) as (_ & ? & _).
      - assert (own_restrictions m0 self' = other_restrictions m self') as E'
          by (by destruct m0, m).
        assert (own_restrictions m0 self = other_restrictions m self) as E
          by (by destruct m0, m).
        rewrite E', Ho, <- E in Hl. by apply (H1 m0). }
    split; [by apply (registered_parameters self self')|].
    split; [|done]. eapply Forall_impl; [done|].
    intros x. by apply (registered_parameters self self').
  - apply (graphs_disjoint m). pose proof (proj1 (graphs_disjoint m self) H2) as H2'.
    clear H2. rename H2' into H2.
    intros k l1 l2 r Hl1 Hl2 Hr. rewrite Ho in Hl2.
    destruct (Hnew k l1 Hl1) as [_ Hx].
    destruct (Hx r Hr) as [(l0 & Hl0 & Hx0)|[Hk Hx0]].
    + by apply (H2 k l0 l2 r).
    + destruct (Hacc k Hk) as (_ & _ & Hc). by apply (Hc l2 r).
Qed.

(** X18: in every parser built through the public methods, every key and
    every target of the two dictionaries is the short name of a registered
    parameter, no list holds a target twice, no key stands in its own list,
    and no key has the same target in both dictionaries. *)
Theorem graphs_stay_consistent (rt : Runtime) (self : ParameterParser) :
  built rt self -> graphs_consistent self.
Proof.
  induction 1 as [h v self H|self sc lc kw self' _ IH H|m self args self' _ IH H
                 |self args ns ns' self' _ IH H].
  - unfold ParameterParser_init in H.
    apply bind_Return in H as (self1 & H1 & H).
    assert (graphs_consistent self1) as H1'.
    { assert (graphs_consistent
                {| add_help := h; version := v; parameters := [];
                   user_name_parameters := [];
                   dependency_params_restrictions := ∅;
                   incompatible_params_restrictions := ∅ |}) as H0.
      { split.
        - intros m k l Hl. by destruct m.
        - intros k l1 l2 r Hl. done. }
      destruct h; [|by injection H1 as <-].
      by eapply add_parameter_graphs. }
    destruct v; [by eapply add_parameter_graphs | by injection H as <-].
  - by eapply add_parameter_graphs.
  - by eapply restriction_graphs.
  - apply parse_params_Return in H as (? & ? & ? & _ & _ & ->).
    by apply (graphs_consistent_same self).
Qed.

Lemma graphs_stay_consistent_witness :
  built bare_runtime ab_dependency /\ graphs_consistent ab_dependency.
Proof.
  assert (Hh : built bare_runtime help_parser).
  { apply (built_init bare_runtime true None). vm_compute. reflexivity. }
  assert (Ha : built bare_runtime
                 (returned (add_parameter bare_runtime help_parser (Some "-a") None
                              store_true_flag) empty_parser)).
  { apply (built_add bare_runtime help_parser (Some "-a") None store_true_flag _ Hh).
    vm_compute. reflexivity. }
  assert (Hab : built bare_runtime ab_parser).
  { apply (built_add bare_runtime _ (Some "-b") None store_true_flag _ Ha).
    vm_compute. reflexivity. }
  assert (Hb : built bare_runtime ab_dependency).
  { apply (built_restriction bare_runtime Dependency ab_parser
             [VStr "-a"; VStr "-b"] _ Hab).
    vm_compute. reflexivity. }
  split; [exact Hb|].
  exact (graphs_stay_consistent bare_runtime ab_dependency Hb).
Defined.

Section LoopRuns.

Context (m : restriction_method) (self : ParameterParser) (R : list string).

(** Over keys that pass the checks the loop either does not end or goes on
    with a dictionary that has kept its keys and the keys bound to the list
    of targets. *)
Lemma restriction_loop_app ks ps own aliased :
  Forall (key_accepted m self R) ks ->
  restriction_loop m self R ((VStr <$> ks) ++ ps) own aliased = Loops \/
  exists own1 aliased1,
    restriction_loop m self R ((VStr <$> ks) ++ ps) own aliased
    = restriction_loop m self R ps own1 aliased1 /\
    (forall k, k ∉ ks -> own1 !! k = own !! k) /\
    (forall k, is_Some (own !! k) -> is_Some (own1 !! k)) /\
    (forall k, k ∈ aliased -> k ∈ aliased1).
Proof.
  intros Hacc. revert own aliased.
  induction Hacc as [|p ks ([q Hq] & HpR & Hc) _ IH]; intros own aliased.
  - right. by exists own, aliased.
  - rewrite fmap_cons. cbn [app restriction_loop]. rewrite Hq.
    apply str_in_not_elem in HpR. rewrite HpR.
    apply no_conflict_find in Hc. rewrite Hc.
    assert (forall own0 aliased0,
              (forall k, k <> p -> own0 !! k = own !! k) ->
              (forall k, is_Some (own !! k) -> is_Some (own0 !! k)) ->
              (forall k, k ∈ aliased -> k ∈ aliased0) ->
              restriction_loop m self R ((VStr <$> ks) ++ ps) own0 aliased0 = Loops \/
              exists own1 aliased1,
                restriction_loop m self R ((VStr <$> ks) ++ ps) own0 aliased0
                = restriction_loop m self R ps own1 aliased1 /\
                (forall k, k ∉ p :: ks -> own1 !! k = own !! k) /\
                (forall k, is_Some (own !! k) -> is_Some (own1 !! k)) /\
                (forall k, k ∈ aliased -> k ∈ aliased1)) as Hstep.
    { intros own0 aliased0 H1 H2 H3.
      destruct (IH own0 aliased0) as [HL|(own1 & aliased1 & E & H1' & H2' & H3')];
        [by left|].
      right. exists own1, aliased1. split; [done|]. split; [|split].
      - intros k [Hkp Hk]%not_elem_of_cons. rewrite H1' by done. by apply H1.
      - intros k Hk. by apply H2', H2.
      - intros k Hk. by apply H3', H3. }
    destruct (own !! p) as [l|] eqn:Hl.
    + destruct (str_in p aliased).
      * destruct R; [|by left]. by apply Hstep.
      * apply Hstep; [| |done].
        -- intros k Hk. by rewrite lookup_insert_ne.
        -- intros k Hk. destruct (decide (k = p)) as [->|Hne].
           ++ rewrite lookup_insert_eq. eauto.
           ++ by rewrite lookup_insert_ne.
    + apply Hstep.
      * intros k Hk. by rewrite lookup_insert_ne.
      * intros k Hk. destruct (decide (k = p)) as [->|Hne].
        -- rewrite lookup_insert_eq. eauto.
        -- by rewrite lookup_insert_ne.
      * intros k Hk. apply elem_of_cons. by right.
Qed.

End LoopRuns.

(** X19: a restriction method that is given twice, among keys that pass its
    checks, a key the dictionary did not hold, and at least one target,
    never returns: the key is bound to the list of targets itself, and at
    its second occurrence the loop appends to that list the elements of that
    list. *)
Theorem repeated_new_key_never_returns (m : restriction_method)
    (self : ParameterParser) (args : list pyval) (pre mid rest R : list string)
    (p : string) :
  keys_and_targets args (pre ++ p :: mid ++ p :: rest) R ->
  R <> [] -> Forall (registered self) R ->
  Forall (key_accepted m self R) (pre ++ p :: mid) ->
  own_restrictions m self !! p = None -> p ∉ pre ->
  restriction_params m self args = Loops.
Proof.
  intros Hkt HR Hreg Hacc Hp Hpre.
  apply Forall_app in Hacc as [Hacc1 Hacc2].
  apply Forall_cons in Hacc2 as [Hacc Hacc2].
  assert (exists restriction0,
            args = (VStr <$> pre ++ p :: mid ++ p :: rest) ++ [restriction0] /\
            match restriction0 with
            | VStr s =>
                match _valid_parameter self "short" (str_replace1 "-" "" s) with
                | Some _ => Return [s]
                | None => Raise (ParameterError None (NotExists m (str_replace1 "-" "" s)))
                end
            | VList l => check_restriction_list m self l
            | _ => Raise (ParameterError None (MustBeStrOrList m))
            end = Return R) as (restriction0 & -> & Hr0).
  { destruct Hkt as [->|(r & -> & ->)].
    - eexists. split; [done|]. by apply check_restriction_list_registered.
    - eexists. split; [done|]. apply Forall_cons in Hreg as [[q Hq] _]. by rewrite Hq. }
  unfold restriction_params.
  assert ((length ((VStr <$> pre ++ p :: mid ++ p :: rest) ++ [restriction0]) <? 2)%nat
          = false) as ->.
  { apply Nat.ltb_ge. rewrite length_app, length_fmap, length_app. simpl. lia. }
  rewrite last_snoc, removelast_last, Hr0. cbn [mbind outcome_bind]. simpl.
  assert (restriction_loop m self R (VStr <$> pre ++ p :: mid ++ p :: rest)
            (own_restrictions m self) [] = Loops) as ->; [|done].
  rewrite fmap_app, fmap_cons, fmap_app, fmap_cons.
  destruct (restriction_loop_app m self R pre
              (VStr p :: (VStr <$> mid) ++ VStr p :: (VStr <$> rest))
              (own_restrictions m self) [] Hacc1)
    as [HL|(own1 & aliased1 & -> & Hown1 & _ & _)]; [done|].
  destruct Hacc as ([q Hq] & HpR & Hc).
  apply str_in_not_elem in HpR. apply no_conflict_find in Hc.
  cbn [restriction_loop]. rewrite Hq, HpR, Hc, (Hown1 p Hpre), Hp.
  destruct (restriction_loop_app m self R mid (VStr p :: (VStr <$> rest))
              (<[p := R]> own1) (p :: aliased1) Hacc2)
    as [HL|(own2 & aliased2 & -> & _ & Hown2 & Hal2)]; [done|].
  cbn [restriction_loop]. rewrite Hq, HpR, Hc.
  destruct (Hown2 p) as [l ->]; [rewrite lookup_insert_eq; eauto|].
  assert (str_in p aliased2 = true) as ->.
  { apply str_in_elem, Hal2, elem_of_cons. by left. }
  by destruct R.
Qed.

Lemma repeated_new_key_never_returns_witness :
  restriction_params Dependency ab_parser [VStr "-a"; VStr "-a"; VStr "-b"] = Loops.
Proof.
  assert (Hkt : keys_and_targets [VStr "-a"; VStr "-a"; VStr "-b"]
                  ([] ++ "-a" :: [] ++ "-a" :: []) ["-b"]).
  { right. by exists "-b". }
  apply (repeated_new_key_never_returns Dependency ab_parser
           [VStr "-a"; VStr "-a"; VStr "-b"] [] [] [] ["-b"] "-a" Hkt).
  - done.
  - apply Forall_cons. split; [|apply Forall_nil_2]. vm_compute. eauto.
  - apply Forall_cons. split; [|apply Forall_nil_2].
    split; [vm_compute; eauto|]. split.
    + intros [=]%list_elem_of_singleton.
    + intros l r Hl. vm_compute in Hl. discriminate.
  - vm_compute. reflexivity.
  - apply not_elem_of_nil.
Defined.

(** ** The validation of the values *)

Section Validation.

Context (rt : Runtime).

Lemma check_type_true t x :
  _check_type rt t x = Return true <-> exists v, call_type rt t x = Return v.
Proof.
  unfold _check_type. destruct (call_type rt t x) as [v|e|].
  - split; eauto.
  - split; [|by intros [? ?]]. by destruct e.
  - split; [done | by intros [? ?]].
Qed.

Lemma parse_list_loop_iff param slist acc vs :
  _parse_list_loop rt param slist acc = Return vs <->
  exists vs', vs = acc ++ vs' /\
    Forall2 (fun x v => _is_value rt x = Return true /\
                        call_type rt (p_type param) x = Return v /\
                        _check_choices rt (p_choices param) v = true) slist vs'.
Proof.
  revert acc. induction slist as [|x slist IH]; intros acc.
  - simpl. split.
    + intros [= <-]. exists []. rewrite app_nil_r. split; [done | constructor].
    + intros (vs' & -> & ->%Forall2_nil_inv_l). by rewrite app_nil_r.
  - rewrite parse_list_loop_cons. split.
    + destruct (_is_value rt x) as [[|]| |] eqn:Ei; cbn [mbind outcome_bind]; try done.
      destruct (_check_type rt (p_type param) x) as [[|]| |];
        cbn [mbind outcome_bind]; try done.
      destruct (call_type rt (p_type param) x) as [v| |] eqn:Ev;
        cbn [mbind outcome_bind]; try done.
      destruct (_check_choices rt (p_choices param) v) eqn:Ec; [|done].
      intros (vs' & -> & H)%IH. exists (v :: vs'). split.
      * by rewrite <- app_assoc.
      * constructor; [|done]. by repeat split.
    + intros (vs' & -> & H).
      apply Forall2_cons_inv_l in H as (v & vs'' & (Hv & Hc & Hch) & H & ->).
      rewrite Hv. cbn [mbind outcome_bind].
      rewrite (proj2 (check_type_true _ _) (ex_intro _ v Hc)).
      cbn [mbind outcome_bind]. rewrite Hc. cbn [mbind outcome_bind]. rewrite Hch.
      apply IH. exists vs''. split; [by rewrite <- app_assoc | done].
Qed.

End Validation.

(** X20: [_parse_list] returns the list [vs] exactly when the list it is
    given is not shorter than a numeric arity and [vs] holds, in order, for
    every element one value: the element passes the candidate-value test,
    the type converts it to that value, and that value passes the choices
    check. *)
Theorem parse_list_returns_iff (rt : Runtime) (param : _Parameter)
    (slist vs : list pyval) :
  _parse_list rt param slist = Return vs <->
  match p_nargs param with
  | AInt n => (n <= Z.of_nat (length slist))%Z
  | AStr _ => True
  end /\
  Forall2 (fun x v => _is_value rt x = Return true /\
                      call_type rt (p_type param) x = Return v /\
                      _check_choices rt (p_choices param) v = true) slist vs.
Proof.
  unfold _parse_list.
  assert (_parse_list_loop rt param slist [] = Return vs <->
          Forall2 (fun x v => _is_value rt x = Return true /\
                      call_type rt (p_type param) x = Return v /\
                      _check_choices rt (p_choices param) v = true) slist vs) as Hloop.
  { rewrite parse_list_loop_iff. split.
    - by intros (vs' & -> & H).
    - intros H. by exists vs. }
  destruct (p_nargs param) as [n|s].
  - destruct (Z.of_nat (length slist) <? n)%Z eqn:Hn.
    + apply Z.ltb_lt in Hn. split; [done|]. intros [? _]. lia.
    + apply Z.ltb_ge in Hn. rewrite Hloop. tauto.
  - rewrite Hloop. tauto.
Qed.

(** ** The outcomes of the constraint checks *)

Lemma filter_nil_Forall {A} (f : A -> bool) l :
  List.filter f l = [] <-> Forall (fun x => f x = false) l.
Proof.
  induction l as [|x l IH]; simpl.
  - split; [constructor | done].
  - rewrite Forall_cons. destruct (f x); [|by rewrite IH; tauto].
    split; [done | by intros [? _]].
Qed.

Lemma check_incompatible_passes self names items :
  Forall (fun item =>
            str_in (str_replace1 "-" "" item.1) names = true ->
            Forall (fun r => str_in (str_replace1 "-" "" r) names = false) item.2)
    items ->
  check_incompatible self names items = Return ().
Proof.
  induction 1 as [|[k l] items Hk _ IH]; [done|]. simpl in *.
  destruct (str_in (str_replace1 "-" "" k) names); [|done].
  by rewrite (proj2 (filter_nil_Forall _ l) (Hk eq_refl)).
Qed.

Lemma check_dependency_passes self names items :
  Forall (fun item =>
            str_in (str_replace1 "-" "" item.1) names = true ->
            Forall (fun r => str_in (str_replace1 "-" "" r) names = true) item.2)
    items ->
  check_dependency self names items = Return ().
Proof.
  induction 1 as [|[k l] items Hk _ IH]; [done|]. simpl in *.
  destruct (str_in (str_replace1 "-" "" k) names); [|done].
  assert (List.filter (fun i => negb (str_in (str_replace1 "-" "" i) names)) l = [])
    as ->; [|done].
  apply filter_nil_Forall. eapply Forall_impl; [by apply Hk|].
  intros r ->. done.
Qed.

Lemma check_required_nil self (scanned : Namespace) :
  _check_required_param self scanned = [] <->
  forall p, p ∈ parameters self -> p_required p = true ->
            str_in (p_dest p) (Namespace_iter scanned) = true.
Proof.
  unfold _check_required_param. rewrite filter_nil_Forall, Forall_forall. split.
  - intros H p Hp Hr. apply negb_false_iff, H, list_elem_of_In, List.filter_In.
    split; [by apply list_elem_of_In | done].
  - intros H p [Hp Hr]%list_elem_of_In%List.filter_In.
    apply negb_false_iff, H; [by apply list_elem_of_In | done].
Qed.

(** X21: when the scan has returned, every required parameter has a dest
    the namespace shows, no key of the incompatibility dictionary stands
    among the resolved names together with one of its targets, every key of
    the dependency dictionary among the resolved names has all its targets
    there, and every default that is left to write goes to a name [setattr]
    can write, the parse returns: the namespace of the scan completed with
    the defaults, and the parser with the resolved names. *)
Theorem parse_returns_when_checks_pass (rt : Runtime) (self : ParameterParser)
    (args : list string) (namespace0 : option Namespace) (scanned : Namespace)
    (names : list string) (index : nat) :
  scan rt self args (default ∅ namespace0) = Return (scanned, names, index) ->
  (forall p, p ∈ parameters self -> p_required p = true ->
     visible (p_dest p) = true /\ is_Some (scanned !! p_dest p)) ->
  (forall k l r,
     incompatible_params_restrictions self !! k = Some l ->
     str_replace1 "-" "" k ∈ names -> r ∈ l -> str_replace1 "-" "" r ∉ names) ->
  (forall k l r,
     dependency_params_restrictions self !! k = Some l ->
     str_replace1 "-" "" k ∈ names -> r ∈ l -> str_replace1 "-" "" r ∈ names) ->
  (forall p d,
     p ∈ parameters self -> p_default p = DVal d -> scanned !! p_dest p = None ->
     assignable (p_dest p) = true) ->
  exists namespace,
    _complete_namespace self scanned = Return namespace /\
    parse_params rt self args namespace0
    = Return (namespace, set_user_name_parameters self names).
Proof.
  intros Hscan Hreq Hi Hd Hset.
  destruct (complete_from_returns (parameters self) scanned Hset) as [[ns w] Hc].
  exists ns. split; [apply complete_namespace_Return; by exists w|].
  unfold parse_params. rewrite Hscan.
  cbn [mbind outcome_bind].
  assert (_check_required_param self scanned = []) as ->.
  { apply check_required_nil. intros p Hp Hr.
    destruct (Hreq p Hp Hr) as [Hv [v Hs]]. apply Namespace_iter_spec. eauto. }
  cbn [length Nat.eqb negb].
  rewrite check_incompatible_passes, check_dependency_passes.
  - cbn [mbind outcome_bind]. unfold _complete_namespace.
    cbn [parameters set_user_name_parameters]. by rewrite Hc.
  - apply Forall_forall. intros [k l] Hkl%elem_of_map_to_list Hk. simpl in *.
    apply Forall_forall. intros r Hr. apply str_in_elem.
    apply (Hd k l r); [done| by apply str_in_elem |done].
  - apply Forall_forall. intros [k l] Hkl%elem_of_map_to_list Hk. simpl in *.
    apply Forall_forall. intros r Hr. apply str_in_not_elem.
    apply (Hi k l r); [done| by apply str_in_elem |done].
Qed.

Lemma parse_returns_when_checks_pass_witness :
  exists namespace self',
    parse_params bare_runtime ab_dependency ["-ab"] None = Return (namespace, self').
Proof.
  assert (Hscan : scan bare_runtime ab_dependency ["-ab"] (default ∅ None)
                  = Return ((returned (scan bare_runtime ab_dependency ["-ab"] ∅)
                               (∅, [], 0%nat)).1.1,
                            (returned (scan bare_runtime ab_dependency ["-ab"] ∅)
                               (∅, [], 0%nat)).1.2,
                            (returned (scan bare_runtime ab_dependency ["-ab"] ∅)
                               (∅, [], 0%nat)).2))
    by (vm_compute; reflexivity).
  destruct (parse_returns_when_checks_pass bare_runtime ab_dependency ["-ab"] None
              _ _ _ Hscan) as (namespace & _ & H);
    [| | | |exists namespace; eexists; exact H].
  - intros p Hp Hr. vm_compute in Hp.
    apply elem_of_cons in Hp as [->|Hp]; [discriminate Hr|].
    apply elem_of_cons in Hp as [->|Hp]; [discriminate Hr|].
    apply elem_of_cons in Hp as [->|Hp]; [discriminate Hr|].
    by apply elem_of_nil in Hp.
  - intros k l r Hl. vm_compute in Hl. discriminate.
  - assert (E : dependency_params_restrictions ab_dependency = declared ∅ "-a" "-b")
      by (vm_compute; reflexivity).
    rewrite E. intros k l r Hl _ Hr.
    destruct (decide (k = "-a")) as [->|Hne].
    + rewrite declared_lookup in Hl. injection Hl as <-. vm_compute in Hr.
      apply list_elem_of_singleton in Hr as ->.
      vm_compute. apply elem_of_cons. right. apply elem_of_cons. by left.
    + rewrite declared_lookup_ne in Hl by done. by rewrite lookup_empty in Hl.
  - intros p d Hp _ _. vm_compute in Hp.
    apply elem_of_cons in Hp as [->|Hp]; [reflexivity|].
    apply elem_of_cons in Hp as [->|Hp]; [reflexivity|].
    apply elem_of_cons in Hp as [->|Hp]; [reflexivity|].
    by apply elem_of_nil in Hp.
Defined.

Lemma check_incompatible_outcome self names items :
  Forall (fun item => registered self item.1) items ->
  check_incompatible self names items = Return () \/
  exists k l p, (k, l) ∈ items /\
    _valid_parameter self "short" (str_replace1 "-" "" k) = Some p /\
    str_in (str_replace1 "-" "" k) names = true /\
    List.filter (fun i => str_in (str_replace1 "-" "" i) names) l <> [] /\
    check_incompatible self names items
    = Raise (ParameterError (Some (p_name p))
               (IncompatibleParameters
                  (List.filter (fun i => str_in (str_replace1 "-" "" i) names) l))).
Proof.
  induction 1 as [|[k l] items [p Hp] _ IH]; [by left|]. simpl in *.
  destruct (str_in (str_replace1 "-" "" k) names) eqn:Hk;
    [destruct (List.filter (fun i => str_in (str_replace1 "-" "" i) names) l)
       as [|x xs] eqn:Hf|]; simpl.
  2:{ right. exists k, l, p. rewrite Hf, Hp, Hk.
      split; [apply elem_of_cons; by left|]. done. }
  all: destruct IH as [IH|(k' & l' & p' & Hin & ? & ? & ? & ?)]; [by left|];
    right; exists k', l', p'; split; [apply elem_of_cons; by right | done].
Qed.

Lemma check_dependency_outcome self names items :
  Forall (fun item => registered self item.1) items ->
  check_dependency self names items = Return () \/
  exists k l p, (k, l) ∈ items /\
    _valid_parameter self "short" (str_replace1 "-" "" k) = Some p /\
    str_in (str_replace1 "-" "" k) names = true /\
    List.filter (fun i => negb (str_in (str_replace1 "-" "" i) names)) l <> [] /\
    check_dependency self names items
    = Raise (ParameterError (Some (p_name p))
               (MissingDependencies
                  (List.filter (fun i => negb (str_in (str_replace1 "-" "" i) names)) l))).
Proof.
  induction 1 as [|[k l] items [p Hp] _ IH]; [by left|]. simpl in *.
  destruct (str_in (str_replace1 "-" "" k) names) eqn:Hk;
    [destruct (List.filter (fun i => negb (str_in (str_replace1 "-" "" i) names)) l)
       as [|x xs] eqn:Hf|]; simpl.
  2:{ right. exists k, l, p. rewrite Hf, Hp, Hk.
      split; [apply elem_of_cons; by left|]. done. }
  all: destruct IH as [IH|(k' & l' & p' & Hin & ? & ? & ? & ?)]; [by left|];
    right; exists k', l', p'; split; [apply elem_of_cons; by right | done].
Qed.

(** X22: in a parser whose dictionaries are consistent, once the scan has
    returned and no required parameter is missing, and when every default
    that is left to write goes to a name [setattr] can write, the parse has
    one of three outcomes: it returns; or it ends the process with status 2
    and
    the message "incompatible parameters" for a key of the incompatibility
    dictionary that is among the resolved names, listing its targets that
    are there too; or, likewise, with "missing required parameters" for a
    key of the dependency dictionary, listing its targets that are not
    there. The error always names a registered parameter. *)
Theorem constraint_check_outcomes (rt : Runtime) (self : ParameterParser)
    (args : list string) (namespace0 : option Namespace) (scanned : Namespace)
    (names : list string) (index : nat) :
  graphs_consistent self ->
  scan rt self args (default ∅ namespace0) = Return (scanned, names, index) ->
  _check_required_param self scanned = [] ->
  (forall p d,
     p ∈ parameters self -> p_default p = DVal d -> scanned !! p_dest p = None ->
     assignable (p_dest p) = true) ->
  (exists namespace,
     _complete_namespace self scanned = Return namespace /\
     parse_params rt self args namespace0
     = Return (namespace, set_user_name_parameters self names)) \/
  exists k l p,
    _valid_parameter self "short" (str_replace1 "-" "" k) = Some p /\
    str_replace1 "-" "" k ∈ names /\
    ((incompatible_params_restrictions self !! k = Some l /\
      List.filter (fun i => str_in (str_replace1 "-" "" i) names) l <> [] /\
      parse_params rt self args namespace0
      = Raise (SystemExit 2
                 (ErrorText (Some (p_name p))
                    (IncompatibleParameters
                       (List.filter (fun i => str_in (str_replace1 "-" "" i) names) l)))))
     \/
     (dependency_params_restrictions self !! k = Some l /\
      List.filter (fun i => negb (str_in (str_replace1 "-" "" i) names)) l <> [] /\
      parse_params rt self args namespace0
      = Raise (SystemExit 2
                 (ErrorText (Some (p_name p))
                    (MissingDependencies
                       (List.filter
                          (fun i => negb (str_in (str_replace1 "-" "" i) names)) l)))))).
Proof.
  intros [Hg _] Hscan Hreq Hset.
  destruct (complete_from_returns (parameters self) scanned Hset) as [[ns w] Hc].
  unfold parse_params. rewrite Hscan.
  cbn [mbind outcome_bind]. rewrite Hreq. cbn [length Nat.eqb negb]. cbv zeta.
  change (incompatible_params_restrictions (set_user_name_parameters self names))
    with (own_restrictions Incompatible self).
  change (dependency_params_restrictions (set_user_name_parameters self names))
    with (own_restrictions Dependency self).
  set (self' := set_user_name_parameters self names).
  assert (forall m, Forall (fun item : string * list string => registered self' item.1)
                      (map_to_list (own_restrictions m self))) as Hkeys.
  { intros m. apply Forall_forall. intros [k l] Hkl%elem_of_map_to_list. simpl.
    apply (registered_parameters self self'); [done|].
    by destruct (Hg m k l Hkl). }
  destruct (check_incompatible_outcome self' names _ (Hkeys Incompatible))
    as [->|(k & l & p & Hin%elem_of_map_to_list & Hp & Hk & Hne & ->)].
  - cbn [mbind outcome_bind].
    destruct (check_dependency_outcome self' names _ (Hkeys Dependency))
      as [->|(k & l & p & Hin%elem_of_map_to_list & Hp & Hk & Hne & ->)].
    + left. exists ns. split; [apply complete_namespace_Return; by exists w|].
      cbn [mbind outcome_bind]. unfold _complete_namespace, self'.
      cbn [parameters set_user_name_parameters]. by rewrite Hc.
    + right. exists k, l, p. split; [done|]. split; [by apply str_in_elem|].
      right. done.
  - right. exists k, l, p. split; [done|]. split; [by apply str_in_elem|].
    left. done.
Qed.

Lemma constraint_check_outcomes_witness :
  parse_params bare_runtime ab_dependency ["-a"] None
  = Raise (SystemExit 2 (ErrorText (Some "a") (MissingDependencies ["-b"]))).
Proof.
  assert (Hg0 : graphs_consistent ab_parser).
  { split.
    - intros m k l Hl. destruct m; vm_compute in Hl; discriminate.
    - intros k l1 l2 r Hl. vm_compute in Hl. discriminate. }
  assert (Hg : graphs_consistent ab_dependency).
  { apply (restriction_graphs Dependency ab_parser [VStr "-a"; VStr "-b"]);
      [vm_compute; reflexivity | exact Hg0]. }
  assert (Hscan : scan bare_runtime ab_dependency ["-a"] (default ∅ None)
                  = Return ((returned (scan bare_runtime ab_dependency ["-a"] ∅)
                               (∅, [], 0%nat)).1.1,
                            (returned (scan bare_runtime ab_dependency ["-a"] ∅)
                               (∅, [], 0%nat)).1.2,
                            (returned (scan bare_runtime ab_dependency ["-a"] ∅)
                               (∅, [], 0%nat)).2))
    by (vm_compute; reflexivity).
  destruct (constraint_check_outcomes bare_runtime ab_dependency ["-a"] None
              _ _ _ Hg Hscan) as [(namespace & _ & H)|_].
  - vm_compute. reflexivity.
  - intros p d Hp _ _. vm_compute in Hp.
    apply elem_of_cons in Hp as [->|Hp]; [reflexivity|].
    apply elem_of_cons in Hp as [->|Hp]; [reflexivity|].
    apply elem_of_cons in Hp as [->|Hp]; [reflexivity|].
    by apply elem_of_nil in Hp.
  - vm_compute in H. discriminate H.
  - vm_compute. reflexivity.
Defined.

(** ** What the scan writes *)

Section ScanEffects.

Context (rt : Runtime).

Lemma do_action_insert self param (namespace : Namespace) i args namespace' i' :
  _do_action rt self param namespace i args = Return (namespace', i') ->
  exists v, namespace' = <[p_dest param := v]> namespace.
Proof.
  unfold _do_action. destruct (String.eqb _ "help"); [by intros ?%print_help_raises|].
  destruct (String.eqb _ "version"); [done|]. apply store_action_insert.
Qed.

Lemma insert_is_Some (namespace : Namespace) d v k :
  is_Some (<[d := v]> namespace !! k) -> is_Some (namespace !! k) \/ k = d.
Proof.
  destruct (decide (k = d)) as [->|Hne]; [by right|].
  rewrite lookup_insert_ne by done. by left.
Qed.

Lemma bundle_loop_effect self args letters (namespace : Namespace) names i
    namespace' names' i' :
  bundle_loop rt self args letters (namespace, names, i)
  = Return (namespace', names', i') ->
  (forall k, is_Some (namespace' !! k) ->
     is_Some (namespace !! k) \/ k ∈ p_dest <$> parameters self) /\
  exists new, names' = names ++ new /\
    Forall (fun n => n ∈ p_name <$> parameters self) new.
Proof.
  revert namespace names i. induction letters as [|p letters IH];
    intros namespace names i; simpl.
  - intros [= <- <- _]. split; [by left|]. exists []. by rewrite app_nil_r.
  - destruct (_valid_parameter self "short" p) as [q|] eqn:Hq; [|done].
    intros H. apply bind_Return in H as ([ns j] & Hj & H).
    apply do_action_insert in Hj as [v ->].
    apply IH in H as (Hns & new & -> & Hnew).
    unfold _valid_parameter in Hq. simpl in Hq.
    apply find_Some_elem in Hq as [Hq _]. split.
    + intros k [[Hk| ->]%insert_is_Some|Hk]%Hns; [by left| |by right].
      right. by apply list_elem_of_fmap_2.
    + exists (p_name q :: new). split; [by rewrite <- app_assoc|].
      constructor; [|done]. by apply list_elem_of_fmap_2.
Qed.

Lemma scan_step_effect self args (namespace : Namespace) names i namespace' names' i' :
  scan_step rt self args (namespace, names, i) = Return (namespace', names', i') ->
  (forall k, is_Some (namespace' !! k) ->
     is_Some (namespace !! k) \/ k ∈ p_dest <$> parameters self) /\
  exists new, names' = names ++ new /\
    Forall (fun n => n ∈ p_name <$> parameters self) new.
Proof.
  unfold scan_step. destruct (args !! i) as [tok|]; [|done].
  intros H. apply bind_Return in H as ([[ns nm] j] & Hj & [= <- <- _]).
  destruct (re_match short_bundle_re tok).
  - by eapply bundle_loop_effect.
  - destruct (re_match long_command_re tok); [|done].
    destruct (_valid_parameter self "long" _) as [q|] eqn:Hq; [|done].
    apply bind_Return in Hj as ([ns0 j0] & Hj0 & [= <- <- _]).
    apply do_action_insert in Hj0 as [v ->].
    unfold _valid_parameter in Hq. simpl in Hq.
    apply find_Some_elem in Hq as [Hq _]. split.
    + intros k [Hk| ->]%insert_is_Some; [by left|].
      right. by apply list_elem_of_fmap_2.
    + exists [p_name q]. split; [done|].
      constructor; [|done]. by apply list_elem_of_fmap_2.
Qed.

Lemma main_loop_effect self args fuel (namespace : Namespace) names i
    namespace' names' i' :
  main_loop rt self args fuel (namespace, names, i)
  = Return (namespace', names', i') ->
  (forall k, is_Some (namespace' !! k) ->
     is_Some (namespace !! k) \/ k ∈ p_dest <$> parameters self) /\
  exists new, names' = names ++ new /\
    Forall (fun n => n ∈ p_name <$> parameters self) new.
Proof.
  revert namespace names i. induction fuel as [|fuel IH]; intros namespace names i;
    simpl.
  - destruct (i <? length args)%nat; [done|]. intros [= <- <- _].
    split; [by left|]. exists []. by rewrite app_nil_r.
  - destruct (i <? length args)%nat.
    2:{ intros [= <- <- _]. split; [by left|]. exists []. by rewrite app_nil_r. }
    intros H. apply bind_Return in H as ([[ns nm] j] & Hstep & H).
    apply scan_step_effect in Hstep as (Hns1 & new1 & -> & Hnew1).
    apply IH in H as (Hns2 & new2 & -> & Hnew2). split.
    + intros k [Hk|Hk]%Hns2; [by apply Hns1 | by right].
    + exists (new1 ++ new2). split; [by rewrite app_assoc|]. by apply Forall_app.
Qed.

End ScanEffects.

Lemma complete_from_attributes ps (namespace namespace' : Namespace) writes k :
  complete_from ps namespace = Return (namespace', writes) ->
  is_Some (namespace' !! k) ->
  is_Some (namespace !! k) \/ k ∈ p_dest <$> ps.
Proof.
  revert namespace writes. induction ps as [|p ps IH]; intros namespace writes; simpl.
  { intros [= <- _]. by left. }
  assert (complete_from ps namespace = Return (namespace', writes) ->
          is_Some (namespace' !! k) ->
          is_Some (namespace !! k) \/ k ∈ p_dest p :: (p_dest <$> ps)) as Hskip.
  { intros Hc Hk. destruct (IH _ _ Hc Hk) as [H|H]; [by left|].
    right. apply elem_of_cons. by right. }
  destruct (p_default p) as [|d]; [done|].
  destruct (negb (Namespace_contains namespace (p_dest p))); [|done].
  intros H Hk. apply bind_Return in H as (ns1 & [_ ->]%setattr_Return & H).
  apply bind_Return in H as ([ns w] & E & [= <- <-]).
  destruct (IH _ _ E Hk) as [[Hk'| ->]%insert_is_Some|Hk'].
  - by left.
  - right. apply elem_of_cons. by left.
  - right. apply elem_of_cons. by right.
Qed.

(** X23: the attributes of the namespace a parse returns are the
    attributes of the namespace it was given and dests of registered
    parameters, nothing else; every attribute it was given is still
    there. *)
Theorem namespace_attributes (rt : Runtime) (self self' : ParameterParser)
    (args : list string) (namespace0 : option Namespace) (namespace : Namespace)
    (k : string) :
  parse_params rt self args namespace0 = Return (namespace, self') ->
  (is_Some (default ∅ namespace0 !! k) -> is_Some (namespace !! k)) /\
  (is_Some (namespace !! k) ->
   is_Some (default ∅ namespace0 !! k) \/ k ∈ p_dest <$> parameters self).
Proof.
  intros (scanned & names & index & Hscan & _ & _ & _ & Hc & _)%parse_params_checks.
  apply complete_namespace_Return in Hc as [writes Hc].
  split.
  - intros Hk. eapply scan_keeps_attributes in Hk as [v Hv]; [|exact Hscan].
    exists v. by destruct (complete_from_set _ _ _ _ _ _ Hc Hv).
  - intros Hk. destruct (complete_from_attributes _ _ _ _ _ Hc Hk) as [Hk'|Hk'];
      [|by right].
    unfold scan in Hscan. apply main_loop_effect in Hscan as [Hns _].
    by apply Hns.
Qed.

Lemma namespace_attributes_witness :
  is_Some ((∅ : Namespace) !! "a") \/ "a" ∈ p_dest <$> parameters ab_dependency.
Proof.
  assert (H : parse_params bare_runtime ab_dependency ["-ab"] None
              = Return ((parsed (parse_params bare_runtime ab_dependency ["-ab"] None)).1,
                        (parsed (parse_params bare_runtime ab_dependency ["-ab"] None)).2))
    by (vm_compute; reflexivity).
  assert (Ha : is_Some ((parsed (parse_params bare_runtime ab_dependency ["-ab"]
                                   None)).1 !! "a")).
  { vm_compute. eauto. }
  exact (proj2 (namespace_attributes bare_runtime ab_dependency _ ["-ab"] None _ "a" H)
           Ha).
Defined.

(** X24: a parse that returned has only appended to the resolved names of
    the parser, and what it appended are short names of registered
    parameters; the registry and the two dictionaries are as they were. *)
Theorem resolved_names_accumulate (rt : Runtime) (self self' : ParameterParser)
    (args : list string) (namespace0 : option Namespace) (namespace : Namespace) :
  parse_params rt self args namespace0 = Return (namespace, self') ->
  (exists new,
     user_name_parameters self' = user_name_parameters self ++ new /\
     Forall (fun n => n ∈ p_name <$> parameters self) new) /\
  parameters self' = parameters self /\
  dependency_params_restrictions self' = dependency_params_restrictions self /\
  incompatible_params_restrictions self' = incompatible_params_restrictions self.
Proof.
  intros (scanned & names & index & Hscan & _ & _ & _ & _ & ->)%parse_params_checks.
  split; [|done]. unfold scan in Hscan.
  by apply main_loop_effect in Hscan as [_ Hnew].
Qed.

Lemma resolved_names_accumulate_witness :
  parameters (parsed (parse_params bare_runtime ab_dependency ["-ab"] None)).2
  = parameters ab_dependency.
Proof.
  assert (H : parse_params bare_runtime ab_dependency ["-ab"] None
              = Return ((parsed (parse_params bare_runtime ab_dependency ["-ab"] None)).1,
                        (parsed (parse_params bare_runtime ab_dependency ["-ab"] None)).2))
    by (vm_compute; reflexivity).
  exact (proj1 (proj2 (resolved_names_accumulate bare_runtime ab_dependency _
                         ["-ab"] None _ H))).
Defined.

(** ** Values of type [int] and [DirType] *)

(** X25: values of type [int]. In the validation of the values of a
    parameter of type [int], a token that parses as an integer, negative
    ones included, goes on as that integer to the choices check; a token
    that does not begin with a dash and does not parse is refused as "is
    not type", with the name of the parameter. *)
Theorem int_values (rt : Runtime) (param : _Parameter)
    (slist list_values : list pyval) (tok : string) :
  p_type param = TInt -> candidate_value tok ->
  _parse_list_loop rt param (VStr tok :: slist) list_values
  = match int_of_str tok with
    | Some z =>
        if _check_choices rt (p_choices param) (VInt z)
        then _parse_list_loop rt param slist (list_values ++ [VInt z])
        else raise_for param (NotInChoices (VInt z) (default [] (p_choices param)))
    | None => raise_for param (IsNotType (VStr tok) TInt)
    end.
Proof.
  intros Hty Hc. apply (is_value_candidate rt) in Hc.
  rewrite parse_list_loop_cons, Hc, Hty. cbn [mbind outcome_bind].
  rewrite check_type_int_str. cbn [mbind outcome_bind call_type py_int].
  by destruct (int_of_str tok) as [z|].
Qed.

Lemma int_values_witness :
  _parse_list_loop bare_runtime (value_param "n" TInt (AInt 1)) [VStr "-5"] []
  = Return [VInt (-5)].
Proof.
  refine (int_values bare_runtime (value_param "n" TInt (AInt 1)) [] [] "-5"
            eq_refl _).
  left. vm_compute. eauto.
Defined.

(** X26: values of type [DirType]. In the validation of the values of a
    parameter whose type is a [DirType], a token that passes the
    candidate-value test goes on unchanged to the choices check when the
    type does not check or the token names a directory; when the type
    checks and it names none, the validation ends in the error "is not an
    actual directory", which carries no parameter name. *)
Theorem dir_values (rt : Runtime) (param : _Parameter) (check : bool)
    (slist list_values : list pyval) (tok : string) :
  p_type param = TDirType check -> candidate_value tok ->
  _parse_list_loop rt param (VStr tok :: slist) list_values
  = if check && negb (rt_isdir rt tok)
    then Raise (ParameterError None (NotADirectory tok))
    else if _check_choices rt (p_choices param) (VStr tok)
    then _parse_list_loop rt param slist (list_values ++ [VStr tok])
    else raise_for param (NotInChoices (VStr tok) (default [] (p_choices param))).
Proof.
  intros Hty Hc. apply (is_value_candidate rt) in Hc.
  rewrite parse_list_loop_cons, Hc, Hty. cbn [mbind outcome_bind].
  unfold _check_type. cbn [call_type DirType_call].
  by destruct (check && negb (rt_isdir rt tok)).
Qed.

Lemma dir_values_witness :
  _parse_list_loop bare_runtime (value_param "d" (TDirType true) (AInt 1))
    [VStr "nowhere"] []
  = Raise (ParameterError None (NotADirectory "nowhere")).
Proof.
  refine (dir_values bare_runtime (value_param "d" (TDirType true) (AInt 1)) true
            [] [] "nowhere" eq_refl _).
  right. reflexivity.
Defined.

(** ** Hidden dests *)

(** X27: a boolean flag whose dest starts with an underscore, or is
    [next], is never refused as "passed more than one time": the test goes
    over the names the namespace shows, and the dest is not among them.
    When the dest is a name [setattr] can write, the flag is stored
    whenever it is passed, also when the dest is set already. When it is
    one of the three names [setattr] cannot write ([__class__], [__dict__],
    [__weakref__]), the flag is never stored: passing it raises [TypeError]
    or [AttributeError]. *)
Theorem hidden_dest_stored_again (rt : Runtime) (param : _Parameter)
    (namespace : Namespace) (external_index : nat) (args : list string) :
  visible (p_dest param) = false -> is_flag param ->
  (assignable (p_dest param) = true ->
   _store_action rt param namespace external_index args
   = Return (<[p_dest param := VBool (String.eqb (p_action param) "store_true")]>
               namespace, external_index)) /\
  (assignable (p_dest param) = false ->
   _store_action rt param namespace external_index args = Raise TypeError \/
   _store_action rt param namespace external_index args = Raise AttributeError).
Proof.
  intros Hv Hf.
  assert (_store_action rt param namespace external_index args
          = (namespace' ← setattr namespace (p_dest param)
                            (VBool (String.eqb (p_action param) "store_true"));
             Return (namespace', external_index))) as ->.
  { unfold _store_action.
    assert (str_in (p_dest param) (Namespace_iter namespace) = false) as ->.
    { destruct (str_in _ _) eqn:E; [|done].
      apply Namespace_iter_spec in E as [E _]. congruence. }
    unfold is_flag in Hf.
    destruct (String.eqb (p_action param) "store_true"); [done|].
    simpl in Hf. by rewrite Hf. }
  split.
  - intros Ha. by rewrite setattr_assignable.
  - unfold assignable, setattr. cbn [str_in existsb].
    destruct (String.eqb (p_dest param) "__weakref__"); [by right|].
    rewrite !orb_false_r.
    destruct (String.eqb (p_dest param) "__class__" || String.eqb (p_dest param) "__dict__");
      [by left | done].
Qed.

Lemma hidden_dest_stored_again_witness :
  _Parameter_init bare_runtime "a" None "_a" store_true_flag = Return hidden_flag /\
  _store_action bare_runtime hidden_flag (<["_a" := VBool true]> ∅) 1 ["-a"; "-a"]
  = Return (<["_a" := VBool true]> (<["_a" := VBool true]> ∅), 1).
Proof.
  split; [vm_compute; reflexivity|].
  exact (proj1 (hidden_dest_stored_again bare_runtime hidden_flag
                  (<["_a" := VBool true]> ∅) 1 ["-a"; "-a"] eq_refl eq_refl) eq_refl).
Defined.

(** ** The parse ends *)

Lemma bind_not_Loops {A B} (m : outcome A) (f : A -> outcome B) :
  m <> Loops -> (forall a, m = Return a -> f a <> Loops) -> m ≫= f <> Loops.
Proof. destruct m; simpl; [|done..]. intros _ H. by apply H. Qed.

Lemma except_not_Loops {A} (m : outcome A) :
  m <> Loops -> except_ParameterError m <> Loops.
Proof. destruct m as [a|[]|]; done. Qed.

Lemma setattr_ends (namespace : Namespace) name v : setattr namespace name v <> Loops.
Proof.
  unfold setattr. destruct (String.eqb name "__weakref__"); [done|].
  by destruct (str_in name _).
Qed.

Lemma info_entry_ends name param_list : info_entry name param_list <> Loops.
Proof.
  unfold info_entry. destruct (List.find _ _) as [info|]; [|done].
  by destruct (p_long_name info).
Qed.

Lemma print_help_ends {A} self : @_print_help A self <> Loops.
Proof.
  unfold _print_help.
  destruct (_ ≫= _) as [l|e|] eqn:E; [by destruct (existsb _ _)|done|].
  exfalso. revert E. apply bind_not_Loops.
  - destruct (version self); [apply info_entry_ends | done].
  - intros l _. destruct (add_help self); [apply info_entry_ends | done].
Qed.

Lemma complete_from_ends ps (namespace : Namespace) :
  complete_from ps namespace <> Loops.
Proof.
  revert namespace. induction ps as [|p ps IH]; intros namespace; simpl; [done|].
  destruct (p_default p) as [|d]; [apply IH|].
  destruct (negb _); [|apply IH].
  apply bind_not_Loops; [apply setattr_ends|]. intros ns _.
  apply bind_not_Loops; [apply IH|]. by intros [? ?] _.
Qed.

Section Ends.

Context (rt : Runtime) (Hrt : runtime_ends rt).

Lemma call_type_ends t value : call_type rt t value <> Loops.
Proof.
  destruct Hrt as (Hfloat & Hopen & Hint).
  destruct t as [| | | |mode bufsize|check|c|]; simpl; try done.
  - destruct value; simpl; try done. by destruct (int_of_str _).
  - unfold FileType_call. destruct (py_eq rt value (VStr "-")).
    + destruct (str_contains "r" mode); [done|]. by destruct (str_contains "w" mode).
    + destruct (negb _); [done|]. destruct value; try done.
      match goal with
      | |- context [rt_open rt ?a ?b ?c] =>
          pose proof (Hopen a b c); destruct (rt_open rt a b c) as [?|[]|]
      end; done.
  - unfold DirType_call. destruct value; try done. by destruct (_ && _).
Qed.

Lemma check_type_ends t value : _check_type rt t value <> Loops.
Proof.
  unfold _check_type. pose proof (call_type_ends t value).
  by destruct (call_type rt t value) as [?|[]|].
Qed.

Lemma is_value_ends value : _is_value rt value <> Loops.
Proof.
  unfold _is_value. apply bind_not_Loops; [apply check_type_ends|].
  intros [|] _; [done|]. by destruct value.
Qed.

Lemma parse_list_loop_ends param slist list_values :
  _parse_list_loop rt param slist list_values <> Loops.
Proof.
  revert list_values. induction slist as [|value slist IH]; intros list_values;
    [done|].
  rewrite parse_list_loop_cons. apply bind_not_Loops; [apply is_value_ends|].
  intros [|] _; [|done]. apply bind_not_Loops; [apply check_type_ends|].
  intros [|] _; [|done]. apply bind_not_Loops; [apply call_type_ends|].
  intros v _. destruct (_check_choices _ _ _); [apply IH | done].
Qed.

Lemma parse_list_ends param slist : _parse_list rt param slist <> Loops.
Proof.
  unfold _parse_list. destruct (p_nargs param).
  - destruct (_ <? _)%Z; [done | apply parse_list_loop_ends].
  - apply parse_list_loop_ends.
Qed.

Lemma collect_values_ends l : collect_values rt l <> Loops.
Proof.
  induction l as [|a l IH]; [done|]. simpl.
  apply bind_not_Loops; [apply is_value_ends|].
  intros [|] _; [|done]. by apply bind_not_Loops.
Qed.

Lemma store_action_ends param (namespace : Namespace) i args :
  _store_action rt param namespace i args <> Loops.
Proof.
  unfold _store_action. destruct (str_in _ _); [done|].
  destruct (String.eqb _ "store_true");
    [by apply bind_not_Loops; [apply setattr_ends|]|].
  destruct (String.eqb _ "store_false");
    [by apply bind_not_Loops; [apply setattr_ends|]|].
  destruct (p_nargs param) as [n|s].
  - apply bind_not_Loops; [apply parse_list_ends|].
    intros lv _. apply bind_not_Loops; [|done].
    destruct lv as [|v [|v' lv]]; apply setattr_ends.
  - apply bind_not_Loops.
    + destruct (String.eqb s "?").
      * destruct (negb _).
        -- destruct (args !! _); [|done].
           apply bind_not_Loops; [apply is_value_ends|].
           intros [|] _; (apply bind_not_Loops; [apply parse_list_ends | done]).
        -- apply bind_not_Loops; [apply parse_list_ends | done].
      * apply bind_not_Loops; [apply collect_values_ends|]. intros largs _.
        apply bind_not_Loops; [apply parse_list_ends|]. intros lv _.
        by destruct (_ && _).
    + intros [lv j] _. apply bind_not_Loops; [|done].
      destruct (p_default_nargs param); [destruct lv; [done|]|]; apply setattr_ends.
Qed.

Lemma do_action_ends self param (namespace : Namespace) i args :
  _do_action rt self param namespace i args <> Loops.
Proof.
  unfold _do_action. destruct (String.eqb _ "help"); [apply print_help_ends|].
  destruct (String.eqb _ "version"); [done|]. apply store_action_ends.
Qed.

Lemma bundle_loop_ends self args letters st :
  bundle_loop rt self args letters st <> Loops.
Proof.
  revert st. induction letters as [|p letters IH]; intros [[ns nm] i]; [done|].
  simpl. destruct (_valid_parameter self "short" p); [|done].
  apply bind_not_Loops; [apply do_action_ends|]. intros [ns' j] _. apply IH.
Qed.

Lemma scan_step_ends self args st : scan_step rt self args st <> Loops.
Proof.
  destruct st as [[ns nm] i]. unfold scan_step.
  destruct (args !! i) as [tok|]; [|done].
  apply bind_not_Loops; [|by intros [[? ?] ?] _].
  destruct (re_match short_bundle_re tok); [apply bundle_loop_ends|].
  destruct (re_match long_command_re tok); [|done].
  destruct (_valid_parameter self "long" _); [|done].
  apply bind_not_Loops; [apply do_action_ends|]. by intros [? ?] _.
Qed.

(** [len(args) - index] turns are enough. *)
Lemma main_loop_ends self args fuel st :
  length args - st.2 <= fuel -> main_loop rt self args fuel st <> Loops.
Proof.
  revert st. induction fuel as [|fuel IH]; intros [[ns nm] i] Hfuel;
    cbn [main_loop snd] in *.
  - destruct (Nat.ltb_spec i (length args)); [lia | done].
  - destruct (i <? length args)%nat; [|done].
    apply bind_not_Loops; [apply scan_step_ends|].
    intros [[ns' nm'] i'] Hi%scan_step_index. apply IH. simpl. lia.
Qed.

Lemma check_incompatible_ends self names items :
  check_incompatible self names items <> Loops.
Proof.
  induction items as [|[k l] items IH]; [done|]. simpl.
  destruct (_ && _); [|done]. by destruct (_valid_parameter self "short" _).
Qed.

Lemma check_dependency_ends self names items :
  check_dependency self names items <> Loops.
Proof.
  induction items as [|[k l] items IH]; [done|]. simpl.
  destruct (_ && _); [|done]. by destruct (_valid_parameter self "short" _).
Qed.

End Ends.

(** X28: the parse ends. When [float], [open] and [int] on objects return or
    raise, [parse_params] returns or raises on every parser, token list and
    namespace: every turn of the main loop moves the index forward, so the
    loop makes at most [len(args)] turns. *)
Theorem parse_params_ends (rt : Runtime) (self : ParameterParser)
    (args : list string) (namespace0 : option Namespace) :
  runtime_ends rt ->
  (exists r, parse_params rt self args namespace0 = Return r) \/
  (exists e, parse_params rt self args namespace0 = Raise e).
Proof.
  intros Hrt.
  assert (parse_params rt self args namespace0 <> Loops) as H.
  { unfold parse_params. apply except_not_Loops. apply bind_not_Loops.
    - unfold scan. apply main_loop_ends; [done | simpl; lia].
    - intros [[ns nm] i] _. destruct (negb _); [done|]. cbv zeta.
      apply bind_not_Loops; [apply check_incompatible_ends|]. intros _ _.
      apply bind_not_Loops; [apply check_dependency_ends|]. intros _ _.
      apply bind_not_Loops; [|done]. unfold _complete_namespace.
      apply bind_not_Loops; [apply complete_from_ends|]. by intros [? ?] _. }
  destruct (parse_params rt self args namespace0) as [r|e|]; [left|right|done]; eauto.
Qed.

Lemma parse_params_ends_witness :
  (exists r, parse_params bare_runtime ab_parser ["-a"] None = Return r) \/
  (exists e, parse_params bare_runtime ab_parser ["-a"] None = Raise e).
Proof.
  apply (parse_params_ends bare_runtime ab_parser ["-a"] None).
  split; [|split]; intros; discriminate.
Defined.

(** ** The constructor *)

(** X29: the constructor always returns. The parser it makes holds the
    parameter [-h], [--help] when [add_help] is set, then the parameter
    [-V], [--version] when a version is given, both with the default
    [SUPPRESS]; it holds no resolved name and its two dictionaries are
    empty. *)
Theorem constructor_registers_information_flags (rt : Runtime) (add_help_ : bool)
    (version_ : option string) :
  exists self,
    ParameterParser_init rt add_help_ version_ = Return self /\
    parameters self
    = (if add_help_
       then [info_param "h" "help" "help" "Show this help and exit"] else []) ++
      match version_ with
      | Some _ => [info_param "V" "version" "version" "Show the version and exit"]
      | None => []
      end /\
    user_name_parameters self = [] /\
    dependency_params_restrictions self = ∅ /\
    incompatible_params_restrictions self = ∅.
Proof.
  destruct add_help_, version_ as [v|]; eexists; (split; [vm_compute; reflexivity|]);
    repeat split.
Qed.

(** ** Choices that do not convert *)

Lemma mapM_call_type_fails rt t (pre : list pyval) x rest e :
  Forall (fun y => exists v, call_type rt t y = Return v) pre ->
  call_type rt t x = Raise e ->
  mapM (call_type rt t) (pre ++ x :: rest) = Raise e.
Proof.
  intros Hpre Hx. induction Hpre as [|y pre [v Hy] _ IH]; simpl.
  - by rewrite Hx.
  - by rewrite Hy, IH.
Qed.

(** X30: [__init__] converts the choices with the type without testing
    them first, and [add_parameter] only catches [ParameterError]: with
    type [int], a list of choices in which a string that is no integer
    comes after choices that convert makes [add_parameter] raise
    [ValueError], where a default or a const that does not convert ends the
    process with a message. *)
Theorem unconvertible_choice_escapes (rt : Runtime) (self : ParameterParser)
    (sc s : string) (pre rest : list pyval) :
  re_match short_command_re sc = true ->
  existsb (fun param => String.eqb (p_name param) (str_replace1 "-" "" sc))
    (parameters self) = false ->
  existsb (fun param => String.eqb (str_replace1 "-" "" sc) (p_dest param))
    (parameters self) = false ->
  Forall (fun y => exists v, call_type rt TInt y = Return v) pre ->
  int_of_str s = None ->
  add_parameter rt self (Some sc) None (int_choices (pre ++ VStr s :: rest))
  = Raise ValueError.
Proof.
  intros Hre Hname Hdest Hpre Hs.
  unfold add_parameter, check_short_command. rewrite Hre, Hname.
  cbn [mbind outcome_bind check_long_command int_choices kw_dest]. rewrite Hdest.
  unfold _Parameter_init.
  cbn [int_choices kw_type kw_action kw_default kw_const kw_choices kw_required
       kw_section kw_nargs kw_help default valid_type negb str_in existsb
       default_needs_conversion mbind outcome_bind].
  cbv [id].
  rewrite (mapM_call_type_fails rt TInt pre (VStr s) rest ValueError Hpre).
  - vm_compute. reflexivity.
  - simpl. by rewrite Hs.
Qed.

Lemma unconvertible_choice_escapes_witness :
  add_parameter bare_runtime help_parser (Some "-n") None
    (int_choices ([VStr "1"] ++ VStr "x" :: []))
  = Raise ValueError.
Proof.
  apply (unconvertible_choice_escapes bare_runtime help_parser "-n" "x" [VStr "1"] []).
  - vm_compute. reflexivity.
  - vm_compute. reflexivity.
  - vm_compute. reflexivity.
  - apply Forall_cons. split; [|apply Forall_nil_2]. exists (VInt 1).
    vm_compute. reflexivity.
  - vm_compute. reflexivity.
Defined.

(** ** A pair in both graphs *)



Section Outcomes.

Context (m : restriction_method) (self : ParameterParser) (R : list string).



End Outcomes.




(** The same two parameters in the same roles, the key written once
    without its dash and once with it: [dependency_params('a', '-b')] and
    then [incompatible_params('-a', '-b')] both return. *)
Lemma respelled_pair_accepted :
  exists self1 self2,
    dependency_params ab_parser [VStr "a"; VStr "-b"] = Return self1 /\
    dependency_params_restrictions self1 !! "a" = Some ["-b"] /\
    incompatible_params self1 [VStr "-a"; VStr "-b"] = Return self2 /\
    dependency_params_restrictions self2 !! "a" = Some ["-b"] /\
    incompatible_params_restrictions self2 !! "-a" = Some ["-b"].
Proof.
  exists (returned (dependency_params ab_parser [VStr "a"; VStr "-b"]) empty_parser),
    (returned (incompatible_params
                 (returned (dependency_params ab_parser [VStr "a"; VStr "-b"])
                    empty_parser) [VStr "-a"; VStr "-b"]) empty_parser).
  repeat split; vm_compute; reflexivity.
Qed.

(** ** The defaults *)

(** C7, counterexample: [-o] is registered with the default 10. A caller
    who passes a namespace that has [o] set to 5, and no token, gets [o]
    at 5: the scan wrote nothing, and no default was written. *)
Lemma prefilled_dest_gets_no_default :
  last (parameters o_parser) = Some o_param /\
  p_default o_param = DVal (VInt 10) /\
  scan bare_runtime o_parser [] prefilled = Return (prefilled, [], 0) /\
  complete_from (parameters o_parser) prefilled = Return (prefilled, []) /\
  result_attr (parse_params bare_runtime o_parser [] (Some prefilled)) "o"
  = Return (Some (VInt 5)).
Proof. repeat split; vm_compute; reflexivity. Qed.

(** C7 (as amended): after a parse that returned, every registered
    parameter whose default is not [SUPPRESS] and whose [dest] is absent
    when the scan ends has its default at [dest] in the namespace that is
    returned, written by exactly one call of [setattr]. A [dest] that is
    absent then was absent from the namespace the scan started from, the
    one the caller passed or the empty one. An attribute that is set when
    the scan ends, written by the scan or set in the namespace the caller
    passed, is kept and no default is written for it. The parser is any
    parser built through the public methods. *)
Theorem defaults_completed (rt : Runtime) (self self' : ParameterParser)
    (args : list string) (namespace0 : option Namespace) (namespace : Namespace) :
  built rt self ->
  parse_params rt self args namespace0 = Return (namespace, self') ->
  exists scanned names index writes,
    scan rt self args (default ∅ namespace0) = Return (scanned, names, index) /\
    complete_from (parameters self) scanned = Return (namespace, writes) /\
    (forall p d,
       p ∈ parameters self -> p_default p = DVal d ->
       scanned !! p_dest p = None ->
       default ∅ namespace0 !! p_dest p = None /\
       namespace !! p_dest p = Some d /\
       write_count (p_dest p) writes = 1) /\
    (forall k v,
       scanned !! k = Some v ->
       namespace !! k = Some v /\ write_count k writes = 0) /\
    (forall k,
       is_Some (default ∅ namespace0 !! k) ->
       is_Some (scanned !! k) /\ is_Some (namespace !! k) /\ write_count k writes = 0).
Proof.
  intros Hb (scanned & names & index & Hscan & [writes Hc] & _)%parse_params_Return.
  exists scanned, names, index, writes. split; [done|]. split; [done|].
  assert (forall k, is_Some (default ∅ namespace0 !! k) -> is_Some (scanned !! k))
    as Hkeep.
  { intros k Hk. by eapply scan_keeps_attributes. }
  split; [|split].
  - intros p d Hin Hd Hnone. split.
    + destruct (default ∅ namespace0 !! p_dest p) eqn:E; [|done].
      destruct (Hkeep (p_dest p)) as [? ?]; [by rewrite E | congruence].
    + eapply complete_from_default; try done. by eapply built_unique_dests.
  - intros k v Hk. by eapply complete_from_set.
  - intros k Hk. destruct (Hkeep k Hk) as [v Hv]. split; [by exists v|].
    destruct (complete_from_set _ _ _ _ _ _ Hc Hv) as [H1 H2].
    split; [by exists v | done].
Qed.

Lemma defaults_completed_witness :
  built bare_runtime o_parser /\
  (parsed (parse_params bare_runtime o_parser [] None)).1 !! "o" = Some (VInt 10).
Proof.
  assert (Hb : built bare_runtime o_parser).
  { apply (built_add bare_runtime help_parser (Some "-o") None optional_one_kwargs).
    - apply (built_init bare_runtime true None). vm_compute. reflexivity.
    - vm_compute. reflexivity. }
  assert (H : parse_params bare_runtime o_parser [] None
              = Return ((parsed (parse_params bare_runtime o_parser [] None)).1,
                        (parsed (parse_params bare_runtime o_parser [] None)).2))
    by (vm_compute; reflexivity).
  split; [exact Hb|].
  destruct (defaults_completed bare_runtime o_parser _ [] None _ Hb H)
    as (scanned & names & index & writes & Hscan & _ & Hdef & _).
  assert (Hs : scan bare_runtime o_parser [] (default ∅ None) = Return (∅, [], 0))
    by (vm_compute; reflexivity).
  rewrite Hs in Hscan. injection Hscan as <- _ _.
  apply (Hdef o_param (VInt 10)).
  - vm_compute. apply elem_of_cons. right. apply elem_of_cons. by left.
  - reflexivity.
  - reflexivity.
Defined.

(** ** Zero-or-more without values *)

Section KeepsValues.

Context (rt : Runtime).

(** The scan does not change an attribute that the namespace shows. *)
Lemma store_action_keeps_value param (namespace : Namespace) i args namespace' i' k v :
  _store_action rt param namespace i args = Return (namespace', i') ->
  visible k = true -> namespace !! k = Some v -> namespace' !! k = Some v.
Proof.
  intros H Hv Hk.
  destruct (decide (p_dest param = k)) as [<-|Hne].
  - rewrite store_action_repeated in H; [done..|]. by exists v.
  - apply store_action_insert in H as [v' ->]. by rewrite lookup_insert_ne.
Qed.

Lemma do_action_keeps_value self param (namespace : Namespace) i args
    namespace' i' k v :
  _do_action rt self param namespace i args = Return (namespace', i') ->
  visible k = true -> namespace !! k = Some v -> namespace' !! k = Some v.
Proof.
  unfold _do_action. destruct (String.eqb _ "help"); [by intros ?%print_help_raises|].
  destruct (String.eqb _ "version"); [done|]. apply store_action_keeps_value.
Qed.

Lemma bundle_loop_keeps_value self args letters (namespace : Namespace) names i
    namespace' names' i' k v :
  bundle_loop rt self args letters (namespace, names, i)
  = Return (namespace', names', i') ->
  visible k = true -> namespace !! k = Some v -> namespace' !! k = Some v.
Proof.
  revert namespace names i. induction letters as [|p letters IH];
    intros namespace names i; simpl.
  - by intros [= <- _ _].
  - destruct (_valid_parameter self "short" p); [|done].
    intros H Hv Hk. apply bind_Return in H as ([ns j] & Hj & H).
    eapply IH; [exact H|done|]. by eapply do_action_keeps_value.
Qed.

Lemma scan_step_keeps_value self args (namespace : Namespace) names i
    namespace' names' i' k v :
  scan_step rt self args (namespace, names, i) = Return (namespace', names', i') ->
  visible k = true -> namespace !! k = Some v -> namespace' !! k = Some v.
Proof.
  unfold scan_step. destruct (args !! i) as [tok|]; [|done].
  intros H Hv Hk. apply bind_Return in H as ([[ns nm] j] & Hj & [= <- _ _]).
  destruct (re_match short_bundle_re tok).
  - by eapply bundle_loop_keeps_value.
  - destruct (re_match long_command_re tok); [|done].
    destruct (_valid_parameter self "long" _); [|done].
    apply bind_Return in Hj as ([ns0 j0] & Hj0 & [= <- _ _]).
    by eapply do_action_keeps_value.
Qed.

Lemma main_loop_keeps_value self args fuel (namespace : Namespace) names i
    namespace' names' i' k v :
  main_loop rt self args fuel (namespace, names, i) = Return (namespace', names', i') ->
  visible k = true -> namespace !! k = Some v -> namespace' !! k = Some v.
Proof.
  revert namespace names i. induction fuel as [|fuel IH]; intros namespace names i;
    cbn [main_loop snd].
  - destruct (i <? length args)%nat; [done|]. by intros [= <- _ _].
  - destruct (i <? length args)%nat; [|by intros [= <- _ _]].
    intros H Hv Hk. apply bind_Return in H as ([[ns nm] j] & Hstep & H).
    eapply IH; [exact H|done|]. by eapply scan_step_keeps_value.
Qed.

End KeepsValues.

(** C10: for a registered parameter with arity zero-or-more whose dest is
    not stored yet and is a name [setattr] can write, when no token follows
    the flag or the token that follows fails the candidate-value test, the
    consumer returns: the empty list is stored at [dest] and the index is
    where it was. The turn of the main loop on its flag then returns with
    the index moved past the flag only, and the main loop goes on from
    there with the next token, or ends when the flag was the last token.
    When the flag is the first token the scan of [parse_params] is the main
    loop from the second token on, and a parse that returns then has the
    empty list at [dest], if the namespace shows that name. *)
Theorem zero_or_more_without_values (rt : Runtime) (name : string)
    (long_name : option string) (dest : string) (kw : kwargs) (param : _Parameter)
    (namespace : Namespace) (external_index : nat) (args : list string) :
  _Parameter_init rt name long_name dest kw = Return param ->
  p_nargs param = AStr "*" ->
  str_in (p_dest param) (Namespace_iter namespace) = false ->
  assignable (p_dest param) = true ->
  no_value_follows (drop (external_index + 1) args) ->
  _store_action rt param namespace external_index args
  = Return (<[p_dest param := VList []]> namespace, external_index) /\
  forall self names tok,
    args !! external_index = Some tok ->
    resolves_to self tok param ->
    p_action param = "store" ->
    scan_step rt self args (namespace, names, external_index)
    = Return (stored_empty param (namespace, names, external_index)) /\
    (forall fuel,
       main_loop rt self args (S fuel) (namespace, names, external_index)
       = main_loop rt self args fuel
           (stored_empty param (namespace, names, external_index))) /\
    (external_index + 1 = length args ->
     forall fuel,
       main_loop rt self args (S fuel) (namespace, names, external_index)
       = Return (stored_empty param (namespace, names, external_index))) /\
    (external_index = 0 -> names = user_name_parameters self ->
     scan rt self args namespace
     = main_loop rt self args (length args - 1)
         (stored_empty param (namespace, names, external_index)) /\
     forall namespace0 result self',
       namespace = default ∅ namespace0 -> visible (p_dest param) = true ->
       parse_params rt self args namespace0 = Return (result, self') ->
       result !! p_dest param = Some (VList [])).
Proof.
  intros Hinit Hn Hd Hset Hnone.
  apply Parameter_init_Return in Hinit as (_ & _ & _ & Ha & Hdn & Hnargs).
  rewrite <- Ha in Hnargs.
  destruct (String.eqb (p_action param) "store_true") eqn:Ht;
    [simpl in Hnargs; congruence|].
  destruct (String.eqb (p_action param) "store_false") eqn:Hf;
    [simpl in Hnargs; congruence|].
  simpl in Hnargs. destruct Hnargs as [Hk _].
  assert (p_default_nargs param = false) as Hdn'.
  { rewrite Hdn. destruct (kw_nargs kw); [done|]. simpl in Hk. congruence. }
  assert (Hstore : _store_action rt param namespace external_index args
                   = Return (<[p_dest param := VList []]> namespace, external_index)).
  { rewrite (store_action_collecting rt param namespace external_index args "*")
      by done.
    rewrite collect_values_none by done. simpl.
    rewrite (parse_list_str rt param "*") by done. simpl.
    unfold store_collected. rewrite Hdn'. rewrite setattr_assignable by done.
    simpl. by rewrite Nat.add_0_r. }
  split; [done|].
  intros self names tok Htok Hres Hact.
  assert (Hdo : _do_action rt self param namespace external_index args
                = Return (<[p_dest param := VList []]> namespace, external_index)).
  { unfold _do_action. rewrite Hact. simpl. by rewrite Hstore. }
  assert (Hstep : scan_step rt self args (namespace, names, external_index)
                  = Return (stored_empty param (namespace, names, external_index))).
  { unfold scan_step, stored_empty. rewrite Htok.
    destruct Hres as [(Hre & Hch & Hv)|(Hre & Hlong & Hv)]; rewrite Hre.
    - rewrite Hch. simpl. rewrite Hv. by rewrite Hdo.
    - rewrite Hlong, Hv. by rewrite Hdo. }
  assert (Hlt : (external_index <? length args)%nat = true).
  { apply Nat.ltb_lt. by apply lookup_lt_Some in Htok. }
  assert (Hloop : forall fuel,
            main_loop rt self args (S fuel) (namespace, names, external_index)
            = main_loop rt self args fuel
                (stored_empty param (namespace, names, external_index))).
  { intros fuel. cbn [main_loop snd]. by rewrite Hlt, Hstep. }
  split; [done|]. split; [done|]. split.
  - intros Hlast fuel. rewrite Hloop.
    destruct fuel; cbn [main_loop stored_empty snd];
      by rewrite Hlast, Nat.ltb_irrefl.
  - intros -> ->.
    assert (scan rt self args namespace
            = main_loop rt self args (length args - 1)
                (stored_empty param (namespace, user_name_parameters self, 0)))
      as Hscan.
    { unfold scan. apply Nat.ltb_lt in Hlt.
      replace (length args) with (S (length args - 1)) at 1 by lia.
      apply Hloop. }
    split; [done|].
    intros namespace0 result self' -> Hvis
      (scanned & names & index & Hs & _ & _ & _ & Hc & _)%parse_params_checks.
    apply complete_namespace_Return in Hc as [writes Hc].
    rewrite Hscan in Hs. unfold stored_empty in Hs. cbn [fst snd] in Hs.
    eapply (main_loop_keeps_value rt) in Hs; [|done|apply lookup_insert_eq].
    by destruct (complete_from_set _ _ _ _ _ _ Hc Hs).
Qed.

Lemma zero_or_more_without_values_witness :
  no_value_follows (drop (0 + 1) ["--list"; "-x"]) /\
  scan_step bare_runtime
    (set_parameters
       {| add_help := false; version := None; parameters := [];
          user_name_parameters := []; dependency_params_restrictions := ∅;
          incompatible_params_restrictions := ∅ |} [star_param])
    ["--list"; "-x"] (∅, [], 0)
  = Return (<["list" := VList []]> ∅, ["l"], 1).
Proof.
  assert (Hnone : no_value_follows (drop (0 + 1) ["--list"; "-x"]))
    by refute_candidate.
  split; [exact Hnone|].
  destruct (zero_or_more_without_values bare_runtime "l" (Some "list") "list"
              (with_type_nargs TStr (Some (AStr "*"))) star_param ∅ 0
              ["--list"; "-x"]) as [_ H];
    [reflexivity | reflexivity | vm_compute; reflexivity | reflexivity
    | exact Hnone |].
  refine (proj1 (H (set_parameters
       {| add_help := false; version := None; parameters := [];
          user_name_parameters := []; dependency_params_restrictions := ∅;
          incompatible_params_restrictions := ∅ |} [star_param])
       [] "--list" eq_refl _ eq_refl)).
  right. repeat split; vm_compute; reflexivity.
Defined.
